(** * Youtube-shorts: the job pipeline, the content generator and the upload scheduler

    A shallow embedding of the service layer of the repository:

    - [AIService]          : services/aiService.js  (title, description and
                             hashtag generation),
    - [JobQueue]           : services/jobQueue.js   (the process-video
                             pipeline, the upload processor and the job
                             options handed to the durable queue),
    - [VideoProcessor]     : services/videoProcessor.js (splitting a video
                             into clips and resizing them),
    - [VideoDownloader]    : services/videoDownloader.js,
    - [ThumbnailGenerator] : services/thumbnailGenerator.js,
    - [Scheduler]          : services/scheduler.js  (deferred uploads, bulk
                             patterns, cancellation, start-up recovery,
                             queries and cleaning),
    - [SchedulerRoutes]    : routes/scheduler.js.

    These modules hold the definitions; what is proved about them is in
    [AIServiceFacts], [JobQueueFacts] and [SchedulerFacts], and then in
    [SchedulerStoreFacts], [JobQueueRunFacts], [AIServiceTextFacts],
    [VideoProcessorFacts], [VideoDownloaderFacts] and
    [ThumbnailGeneratorFacts].

    JavaScript values are represented as follows.  Strings are [string]
    (code units below 128; other code units are ordinary characters).
    Timestamps are [Z] milliseconds since the epoch, which is what [Date]
    holds and what [toISOString] prints without loss; where the scheduler
    computes a time, the range of [Date] is checked.  The numbers that
    carry progress percentages, durations and timestamps in seconds are
    exact rationals [Q]: the IEEE rounding of doubles is not represented,
    and what is proved of the clips is proved for inputs on which the
    arithmetic of doubles is exact.  A [Map] is a [gmap]; the order in
    which a [Map] lists its entries is an argument of the two queries that
    read it.  An [async] function is cut at its [await]: the part before
    and the part after are separate atomic steps of the event loop. *)

From Stdlib Require Import Ascii String ZArith QArith Qround Qminmax Lqa.

From stdpp Require Import base option list sorting gmap strings pretty.

(** ** Exceptions

    [Exc A] is the outcome of a JavaScript computation that either returns
    an [A] or throws an [Error] whose [message] is the carried string. *)

Module Exc.

Definition Exc (A : Type) : Type := (string + A)%type.

Definition ret {A} (a : A) : Exc A := inr a.

Definition throw {A} (msg : string) : Exc A := inl msg.

Definition bind {A B} (m : Exc A) (k : A -> Exc B) : Exc B :=
  match m with
  | inl e => inl e
  | inr a => k a
  end.

(** [try { body } catch (error) { handler(error.message) }] *)
Definition try_catch {A} (body : Exc A) (handler : string -> Exc A) : Exc A :=
  match body with
  | inl e => handler e
  | inr a => inr a
  end.

Definition returns {A} (m : Exc A) : bool :=
  match m with inr _ => true | inl _ => false end.

(** [try { body } catch (error) { throw new Error(prefix + error.message) }] *)
Definition rethrow {A} (prefix : string) (body : Exc A) : Exc A :=
  match body with
  | inl message => inl (prefix ++ message)%string
  | inr a => inr a
  end.

End Exc.

(** ** services/aiService.js *)

Module AIService.

Import Exc.

#[local] Open Scope string_scope.

(** The fields of the video metadata and of a clip that the service reads.
    [description] and [tags] may be missing ([undefined] or [null]). *)
Record VideoMetadata := {
  vm_title : string;
  vm_description : option string;
  vm_tags : option (list string)
}.

Record ClipInfo := {
  clip_id : string;
  clip_index : nat;
  clip_startTime : Q;
  clip_duration : Q
}.

(** What the service returns: [null] fields are [None]. *)
Record Content := {
  title : option string;
  description : option string
}.

(** [this.model]: [None] when no API key is configured or the client failed
    to initialise; otherwise the remote call, which maps a prompt to the text
    of the response or throws ([generateContent], [result.response] and
    [response.text()] taken together). *)
Definition Model : Type := option (string -> Exc string).

(** *** String helpers of the JavaScript runtime *)

Definition newline : ascii := ascii_of_nat 10.

Definition nl : string := String newline EmptyString.

(** [\s] and the characters removed by [trim()] *)
Definition is_space (c : ascii) : bool :=
  let n := nat_of_ascii c in
  (Nat.eqb n 9 || Nat.eqb n 10 || Nat.eqb n 11 || Nat.eqb n 12
   || Nat.eqb n 13 || Nat.eqb n 32)%bool.

(** the characters that [.] does not match without the [s] flag *)
Definition is_line_terminator (c : ascii) : bool :=
  let n := nat_of_ascii c in (Nat.eqb n 10 || Nat.eqb n 13)%bool.

Definition to_upper (c : ascii) : ascii :=
  let n := nat_of_ascii c in
  if (Nat.leb 97 n && Nat.leb n 122)%bool then ascii_of_nat (n - 32) else c.

Definition ascii_eqb_ci (a b : ascii) : bool :=
  Ascii.eqb (to_upper a) (to_upper b).

Definition is_empty (s : string) : bool :=
  match s with EmptyString => true | _ => false end.

(** a JavaScript string is truthy when it is not empty *)
Definition truthy (s : string) : bool := negb (is_empty s).

(** [p] read case-insensitively at the start of [s]: the rest of [s] *)
Fixpoint strip_prefix_ci (p s : string) : option string :=
  match p, s with
  | EmptyString, _ => Some s
  | String a p', String b s' =>
      if ascii_eqb_ci a b then strip_prefix_ci p' s' else None
  | String _ _, EmptyString => None
  end.

Fixpoint starts_with (p s : string) : bool :=
  match p, s with
  | EmptyString, _ => true
  | String a p', String b s' => (Ascii.eqb a b && starts_with p' s')%bool
  | String _ _, EmptyString => false
  end.

Fixpoint includes (c : ascii) (s : string) : bool :=
  match s with
  | EmptyString => false
  | String b s' => (Ascii.eqb b c || includes c s')%bool
  end.

Fixpoint trim_start (s : string) : string :=
  match s with
  | String c s' => if is_space c then trim_start s' else s
  | EmptyString => EmptyString
  end.

Fixpoint trim_end (s : string) : string :=
  match s with
  | EmptyString => EmptyString
  | String c s' =>
      let t := trim_end s' in
      if (is_space c && is_empty t)%bool then EmptyString else String c t
  end.

Definition trim (s : string) : string := trim_end (trim_start s).

Fixpoint join (sep : string) (l : list string) : string :=
  match l with
  | [] => ""
  | [x] => x
  | x :: rest => x ++ sep ++ join sep rest
  end.

(** [`${Math.floor(x)}`] *)
Definition show_floor (x : Q) : string := pretty (Qfloor x).

(** *** The two regular expressions of [parseResponse]

    A backtracking matcher written out for the two patterns.  [search] tries
    every start position from the left; [greedy_spaces] is [\s*], which takes
    as many blanks as it can and gives them back one by one when the rest of
    the pattern fails. *)

Fixpoint search (attempt : string -> option string) (s : string) : option string :=
  match attempt s with
  | Some g => Some g
  | None =>
      match s with
      | EmptyString => None
      | String _ s' => search attempt s'
      end
  end.

Fixpoint greedy_spaces (rest : string -> option string) (s : string) : option string :=
  match s with
  | String c s' =>
      if is_space c then
        match greedy_spaces rest s' with
        | Some g => Some g
        | None => rest s
        end
      else rest s
  | EmptyString => rest s
  end.

(** [(.+?)(?:\n|$)]: the shortest non-empty run of characters other than
    line terminators that is followed by a newline or by the end of input *)
Fixpoint lazy_line (s : string) : option string :=
  match s with
  | EmptyString => None
  | String c s' =>
      if is_line_terminator c then None
      else if (is_empty s' || starts_with nl s')%bool
           then Some (String c EmptyString)
           else String c <$> lazy_line s'
  end.

(** [(.+?)(?:\n\n|$)] with the [s] flag: the shortest non-empty run of any
    characters that is followed by an empty line or by the end of input *)
Fixpoint lazy_paragraph (s : string) : option string :=
  match s with
  | EmptyString => None
  | String c s' =>
      if (is_empty s' || starts_with (nl ++ nl) s')%bool
      then Some (String c EmptyString)
      else String c <$> lazy_paragraph s'
  end.

(** [text.match(/TITLE:\s*(.+?)(?:\n|$)/i)], the first group *)
Definition match_title (text : string) : option string :=
  search (fun s => strip_prefix_ci "TITLE:" s ≫= greedy_spaces lazy_line) text.

(** [text.match(/DESCRIPTION:\s*(.+?)(?:\n\n|$)/is)], the first group *)
Definition match_description (text : string) : option string :=
  search (fun s => strip_prefix_ci "DESCRIPTION:" s ≫= greedy_spaces lazy_paragraph) text.

(** *** The service *)

Definition validateTitle (t : string) : string :=
  if Nat.ltb 100 (String.length t) then substring 0 97 t ++ "..." else t.

Definition validateDescription (d : string) : string :=
  if negb (includes "#" d) then d ++ nl ++ nl ++ "#Shorts #YouTubeShorts #Viral" else d.

Definition parseResponse (text : string) : Content :=
  let title := trim <$> match_title text in
  let description := trim <$> match_description text in
  let finalTitle :=
    match title with
    | Some t => if truthy t then Some (validateTitle t) else None
    | None => None
    end in
  let finalDescription :=
    match description with
    | Some d => if truthy d then Some (validateDescription d) else None
    | None => None
    end in
  {| title := finalTitle; description := finalDescription |}.

Definition buildPrompt (videoMetadata : VideoMetadata) (clipInfo : ClipInfo) : string :=
  "You are a YouTube Shorts content expert. Generate an engaging title and description for a short video clip.

Original Video Information:
- Title: " ++ vm_title videoMetadata ++ "
- Description: " ++ match vm_description videoMetadata with
                    | Some d => if truthy d then d else "N/A"
                    | None => "N/A"
                    end ++ "
- Tags: " ++ match vm_tags videoMetadata with
             | Some tags => join ", " tags
             | None => "N/A"
             end ++ "

Clip Information:
- Clip Number: " ++ pretty (clip_index clipInfo + 1)%nat ++ "
- Start Time: " ++ show_floor (clip_startTime clipInfo) ++ "s
- Duration: " ++ show_floor (clip_duration clipInfo) ++ "s

Requirements:
1. Title: Create a catchy, attention-grabbing title (max 100 characters) that works well for YouTube Shorts
2. Description: Write an engaging description (2-3 sentences) with relevant hashtags

Format your response EXACTLY as follows:
TITLE: [your title here]
DESCRIPTION: [your description here]

Make it compelling and optimized for YouTube Shorts discovery!".

Definition generateFallbackContent (videoMetadata : VideoMetadata) (clipInfo : ClipInfo) : Content :=
  {| title := Some (vm_title videoMetadata ++ " - Part "
                    ++ pretty (clip_index clipInfo + 1)%nat ++ " #Shorts");
     description := Some ("Check out this amazing clip from: " ++ vm_title videoMetadata
                          ++ nl ++ nl ++ "#Shorts #YouTubeShorts #Viral #Trending") |}.

Definition generateTitleAndDescription (model : Model)
    (videoMetadata : VideoMetadata) (clipInfo : ClipInfo) : Exc Content :=
  match model with
  | None => ret (generateFallbackContent videoMetadata clipInfo)
  | Some generateContent =>
      try_catch
        (let prompt := buildPrompt videoMetadata clipInfo in
         bind (generateContent prompt) (fun text =>
         ret (parseResponse text)))
        (fun _ => ret (generateFallbackContent videoMetadata clipInfo))
  end.

(** one entry of the batch result: [{ clipId: clip.id, ...content }] *)
Record BatchEntry := {
  be_clipId : string;
  be_content : Content
}.

Fixpoint generateBatch (model : Model) (videoMetadata : VideoMetadata)
    (clips : list ClipInfo) : Exc (list BatchEntry) :=
  match clips with
  | [] => ret []
  | clip :: rest =>
      bind (generateTitleAndDescription model videoMetadata clip) (fun content =>
      bind (generateBatch model videoMetadata rest) (fun results =>
      ret ({| be_clipId := clip_id clip; be_content := content |} :: results)))
  end.

(** [[a-zA-Z0-9]] *)
Definition is_alphanumeric (c : ascii) : bool :=
  let n := nat_of_ascii c in
  ((Nat.leb 48 n && Nat.leb n 57) || (Nat.leb 65 n && Nat.leb n 90)
   || (Nat.leb 97 n && Nat.leb n 122))%bool.

(** [s.replace(re, '')] for a global pattern that matches the characters
    of one class, singly or in runs: every such character goes *)
Fixpoint remove (class : ascii -> bool) (s : string) : string :=
  match s with
  | EmptyString => EmptyString
  | String c s' => if class c then remove class s' else String c (remove class s')
  end.

(** [tag.replace(/\s+/g, '').replace(/[^a-zA-Z0-9]/g, '')] *)
Definition to_hashtag (tag : string) : string :=
  remove (fun c => negb (is_alphanumeric c)) (remove is_space tag).

Definition generateHashtags (videoMetadata : VideoMetadata) : list string :=
  let baseHashtags := ["Shorts"; "YouTubeShorts"; "Viral"] in
  match vm_tags videoMetadata with
  | Some tags =>
      if Nat.ltb 0 (length tags)
      then baseHashtags ++ (to_hashtag <$> take 5 tags)
      else baseHashtags
  | None => baseHashtags
  end.

(** a title and a description that can be shown and uploaded: both present *)
Definition usable (c : Content) : bool :=
  (bool_decide (is_Some (title c)) && bool_decide (is_Some (description c)))%bool.

(** *** Notions used to state the properties *)

(** the string holds no line terminator *)
Definition single_line (s : string) : Prop :=
  ∀ c, includes c s = true -> is_line_terminator c = false.

(** the remote model is missing, or the call made for this clip throws *)
Definition ai_failed (model : Model) (videoMetadata : VideoMetadata)
    (clipInfo : ClipInfo) : bool :=
  match model with
  | None => true
  | Some generateContent =>
      negb (returns (generateContent (buildPrompt videoMetadata clipInfo)))
  end.

End AIService.

(** ** services/jobQueue.js *)

Module JobQueue.

Import Exc AIService.

(** The two stages that [videoProcessor.processToShorts] writes into the
    progress objects it hands to its callback. *)
Inductive ProcessorStage := splitting | resizing.

(** The [stage] field of a progress event. *)
Inductive Stage :=
  | downloading | processing | of_processor (s : ProcessorStage)
  | generating_ai | uploading | completed.

(** The pipeline step in which a call is made (the [// Step n] comments of
    [processVideo]); it is not data of the program. *)
Inductive Step := StepDownload | StepProcess | StepGenerate | StepDone | StepUpload.

#[global] Instance ProcessorStage_eq_dec : EqDecision ProcessorStage.
Proof. solve_decision. Defined.

#[global] Instance Stage_eq_dec : EqDecision Stage.
Proof. solve_decision. Defined.

#[global] Instance Step_eq_dec : EqDecision Step.
Proof. solve_decision. Defined.

(** What a run of a processor does to the outside, in order. *)
Inductive Effect :=
  | JobProgress (step : Step) (percent : Q)   (* job.progress(percent) *)
  | Emit (stage : Stage) (percent : Q)         (* io.emit('job-progress', { jobId, stage, percent, ... }) *)
  | EmitError (message : string)               (* io.emit('job-progress', { jobId, stage: 'error', error }) *)
  | CleanupFile (path : string).               (* videoDownloader.cleanup(path) *)

(** A processor run: the effects so far and how the body ended. *)
Definition Run (A : Type) : Type := (list Effect * Exc A)%type.

#[global] Instance run_ret : MRet Run := λ A a, ([], inr a).

#[global] Instance run_bind : MBind Run := λ A B k m,
  match m with
  | (l, inl e) => (l, inl e)
  | (l, inr a) => let '(l', r) := k a in (l ++ l', r)
  end.

Definition tell (e : Effect) : Run unit := ([e], inr tt).

Definition raise {A} (message : string) : Run A := ([], inl message).

Definition run_try {A} (body : Run A) (handler : string -> Run A) : Run A :=
  match body with
  | (l, inl e) => let '(l', r) := handler e in (l ++ l', r)
  | (l, inr a) => (l, inr a)
  end.

Fixpoint for_each {A} (l : list A) (f : A -> Run unit) : Run unit :=
  match l with
  | [] => mret tt
  | x :: rest => f x ;; for_each rest f
  end.

(** An adapter call seen from the caller: the progress objects it passes
    to [onProgress], in order, and then its result or its rejection. *)
Record AdapterRun (P A : Type) := {
  reports : list P;
  outcome : Exc A
}.

Arguments reports {P A} _.

Arguments outcome {P A} _.

Definition call {P A} (adapter : AdapterRun P A) (onProgress : P -> Run unit) : Run A :=
  for_each (reports adapter) onProgress ;; ([], outcome adapter).

(** [downloadVideo] resolves to [{ videoId, path, metadata, size }]; its
    progress objects carry [percent]. *)
Record DownloadResult := {
  dr_path : string;
  dr_metadata : VideoMetadata
}.

(** the progress object of [processToShorts]: [{ stage, ...progress }] *)
Record ProcessorProgress := {
  pp_stage : ProcessorStage;
  pp_percent : Q
}.

Record Results := {
  videoInfo : option VideoMetadata;
  clips : list ClipInfo;
  aiContent : list BatchEntry;
  errors : list string
}.

Definition job_progress (step : Step) (percent : Q) : Run unit :=
  tell (JobProgress step percent).

(** What [job.data.options] is when [processVideo] reads it: an object,
    or [null] or [undefined].  ([job.data] is the object that
    [addProcessingJob] was given.)  The route [POST /process] replaces a
    missing [options] by [{}] and passes [null] on as it is.  The fields of an
    object are what the two adapters are called with; their runs are
    arguments of [processVideo]. *)
Inductive OptionsValue := is_object | is_null | is_undefined.

(** the message of the [TypeError] that reading a property of [null] or of
    [undefined] throws, in the wording of V8 *)
Definition cannot_read (value property : string) : string :=
  ("Cannot read properties of " ++ value ++ " (reading '" ++ property ++ "')")%string.

(** [options.quality], the first read of a field of [options] *)
Definition read_quality (options : OptionsValue) : Exc unit :=
  match options with
  | is_object => inr tt
  | is_null => inl (cannot_read "null" "quality")
  | is_undefined => inl (cannot_read "undefined" "quality")
  end.

(** [emitProgress(io, jobId, progress)]: nothing without a socket server *)
Definition emitProgress (io : bool) (e : Effect) : Run unit :=
  if io then tell e else mret tt.

(** [processVideo(job)].  The options of the downloader are built before
    it is called, and [options.quality] is read for them inside the [try].
    The event of the processing callback is
    [{ stage: 'processing', percent, ...progress }]: the spread comes last,
    so the [stage] and [percent] of the adapter's progress object replace the
    two fields written before it. *)
Definition processVideo (io : bool) (options : OptionsValue)
    (download : AdapterRun Q DownloadResult)
    (process : AdapterRun ProcessorProgress (list ClipInfo))
    (model : Model) : Run Results :=
  run_try
    (job_progress StepDownload 10%Q ;;
     emitProgress io (Emit downloading 10%Q) ;;
     ([], read_quality options) ;;
     downloadResult ← call download (λ progress_percent,
       let percent := (10 + progress_percent * 0.2)%Q in
       job_progress StepDownload percent ;;
       emitProgress io (Emit downloading percent)) ;
     job_progress StepProcess 30%Q ;;
     emitProgress io (Emit processing 30%Q) ;;
     clips ← call process (λ progress,
       let percent := (30 + pp_percent progress * 0.4)%Q in
       job_progress StepProcess percent ;;
       emitProgress io (Emit (of_processor (pp_stage progress)) (pp_percent progress))) ;
     job_progress StepGenerate 70%Q ;;
     emitProgress io (Emit generating_ai 70%Q) ;;
     aiContent ← ([], generateBatch model (dr_metadata downloadResult) clips) ;
     tell (CleanupFile (dr_path downloadResult)) ;;
     job_progress StepDone 100%Q ;;
     emitProgress io (Emit completed 100%Q) ;;
     mret {| videoInfo := Some (dr_metadata downloadResult);
             clips := clips;
             aiContent := aiContent;
             errors := [] |})
    (λ error,
       emitProgress io (EmitError error) ;;
       raise error).

(** [uploadVideo(job)]: the uploader's progress objects carry [percent];
    it resolves to the remote video id. *)
Definition uploadVideo (io : bool) (upload : AdapterRun Q string) : Run string :=
  run_try
    (emitProgress io (Emit uploading 0%Q) ;;
     result ← call upload (λ progress_percent,
       job_progress StepUpload progress_percent ;;
       emitProgress io (Emit uploading progress_percent)) ;
     emitProgress io (Emit completed 100%Q) ;;
     mret result)
    (λ error,
       emitProgress io (EmitError error) ;;
       raise error).

(** the values passed to [job.progress] in a given step *)
Definition job_progress_values (step : Step) (log : list Effect) : list Q :=
  omap (λ e, match e with
             | JobProgress s x => if bool_decide (s = step) then Some x else None
             | _ => None
             end) log.

(** the percentages broadcast with a given [stage] *)
Definition emitted_values (stage : Stage) (log : list Effect) : list Q :=
  omap (λ e, match e with
             | Emit s x => if bool_decide (s = stage) then Some x else None
             | _ => None
             end) log.

(** *** The options handed to the durable queue *)

Inductive BackoffType := fixed | exponential.

Record Backoff := {
  type : BackoffType;
  delay : Z
}.

(** the third argument of [queue.add] *)
Record JobOptions := {
  attempts : nat;
  backoff : Backoff;
  opt_delay : Z
}.

(** [addProcessingJob(data)] *)
Definition addProcessingJob_options : JobOptions :=
  {| attempts := 3;
     backoff := {| type := exponential; delay := 5000 |};
     opt_delay := 0 |}.

(** [addUploadJob(data)]: [delay] is
    [data.scheduledTime ? new Date(data.scheduledTime).getTime() - Date.now() : 0] *)
Definition addUploadJob_options (scheduledTime : option Z) (now : Z) : JobOptions :=
  {| attempts := 3;
     backoff := {| type := exponential; delay := 5000 |};
     opt_delay := match scheduledTime with
                  | Some t => (t - now)%Z
                  | None => 0
                  end |}.

(** *** The durable queue *)

Module Queue.

Inductive State := waiting | active | completed | failed | delayed.

#[global] Instance State_eq_dec : EqDecision State.
Proof. solve_decision. Defined.

Section Engine.

Context {R : Type}.

(** Modelled from the spec: the Job record of the durable queue (the [bull]
    package, which is not under src/), with the fields of section 3:
    [state], [attempts] (executions so far), [result], [failureReason], and
    the time the job has to wait before it may become active. *)
Record Job := {
  opts : JobOptions;
  state : State;
  attemptsMade : nat;
  returnvalue : option R;
  failedReason : option string;
  wait : Z
}.

(** Modelled from the spec: the delay before the retry that follows the
    [n]-th failed execution ([n] counted from 1): the base delay, doubling
    for [exponential]; the base delay every time for [fixed]. *)
Definition backoff_delay (b : Backoff) (n : nat) : Z :=
  match type b with
  | fixed => delay b
  | exponential => (delay b * 2 ^ (Z.of_nat n - 1))%Z
  end.

(** Modelled from the spec: submission.  The job is created in [waiting],
    or in [delayed] when it must not begin before a later instant. *)
Definition add (o : JobOptions) : Job :=
  {| opts := o;
     state := if bool_decide (0 < opt_delay o)%Z then delayed else waiting;
     attemptsMade := 0;
     returnvalue := None;
     failedReason := None;
     wait := Z.max 0 (opt_delay o) |}.

(** Modelled from the spec: a worker slot takes the job; this is one more
    execution attempt. *)
Definition take (j : Job) : Job :=
  {| opts := opts j; state := active; attemptsMade := S (attemptsMade j);
     returnvalue := returnvalue j; failedReason := failedReason j; wait := 0 |}.

(** Modelled from the spec: the processor returned or threw.  A failure
    requeues the job with backoff while executions remain under the attempt
    cap; at the cap the job is [failed] and the error message is recorded
    as it was thrown. *)
Definition settle (result : Exc R) (j : Job) : Job :=
  match result with
  | inr r =>
      {| opts := opts j; state := completed; attemptsMade := attemptsMade j;
         returnvalue := Some r; failedReason := failedReason j; wait := 0 |}
  | inl message =>
      if bool_decide (attemptsMade j < attempts (opts j))%nat then
        {| opts := opts j; state := delayed; attemptsMade := attemptsMade j;
           returnvalue := returnvalue j; failedReason := failedReason j;
           wait := backoff_delay (backoff (opts j)) (attemptsMade j) |}
      else
        {| opts := opts j; state := failed; attemptsMade := attemptsMade j;
           returnvalue := returnvalue j; failedReason := Some message; wait := 0 |}
  end.

(** One execution as the queue's history records it: the delay the job
    waited before it, which attempt it was, and how the processor ended. *)
Record Execution := {
  ex_waited : Z;
  ex_attempt : nat;
  ex_result : Exc R
}.

(** Modelled from the spec: the life of one job.  [processor n] is the
    outcome of the processor on the [n]-th execution.  The job is executed
    while it is [waiting] or [delayed]; [fuel] bounds the executions that
    are followed. *)
Fixpoint drive (fuel : nat) (processor : nat -> Exc R) (j : Job)
    : Job * list Execution :=
  match fuel with
  | O => (j, [])
  | S fuel' =>
      match state j with
      | waiting | delayed =>
          let running := take j in
          let result := processor (attemptsMade running) in
          let '(final, rest) := drive fuel' processor (settle result running) in
          (final, {| ex_waited := wait j; ex_attempt := attemptsMade running;
                     ex_result := result |} :: rest)
      | _ => (j, [])
      end
  end.

End Engine.

Arguments Job : clear implicits.

Arguments Execution : clear implicits.

End Queue.

(** The two kinds of job and the options each is submitted with. *)
Inductive JobKind :=
  | process_video
  | upload_video (scheduledTime : option Z) (now : Z).

Definition options_of (k : JobKind) : JobOptions :=
  match k with
  | process_video => addProcessingJob_options
  | upload_video scheduledTime now => addUploadJob_options scheduledTime now
  end.

(** *** Notions used to state the properties *)

Definition in_range (lo hi x : Q) : Prop := (lo <= x)%Q ∧ (x <= hi)%Q.

(** The bound each effect has to respect: what is recorded on the job in
    the download step and what is broadcast with stage ['downloading'] lies
    in 10..30, what is recorded on the job in the processing step lies in
    30..70. *)
Definition within_stage (e : Effect) : Prop :=
  match e with
  | JobProgress StepDownload x => in_range 10 30 x
  | JobProgress StepProcess x => in_range 30 70 x
  | Emit downloading x => in_range 10 30 x
  | _ => True
  end.

Definition bounded {A} (m : Run A) : Prop := Forall within_stage m.1.

(** what [emitProgress] sends: the event, when there is a socket server *)
Definition broadcast (io : bool) (e : Effect) : list Effect :=
  if io then [e] else [].

(** what the progress callback of the download step does for the reports
    of the downloader, and the one of the processing step for the reports of
    the processor *)
Definition download_log (io : bool) (reports : list Q) : list Effect :=
  reports ≫= λ p,
    JobProgress StepDownload (10 + p * 0.2)
    :: broadcast io (Emit downloading (10 + p * 0.2)).

Definition process_log (io : bool) (reports : list ProcessorProgress) : list Effect :=
  reports ≫= λ progress,
    JobProgress StepProcess (30 + pp_percent progress * 0.4)
    :: broadcast io (Emit (of_processor (pp_stage progress)) (pp_percent progress)).

Definition upload_log (io : bool) (reports : list Q) : list Effect :=
  reports ≫= λ p, JobProgress StepUpload p :: broadcast io (Emit uploading p).

(** the effect is a message on the socket *)
Definition is_broadcast (e : Effect) : bool :=
  match e with
  | Emit _ _ | EmitError _ => true
  | _ => false
  end.

(** every value passed to [job.progress], in order *)
Definition job_progress_trace (log : list Effect) : list Q :=
  omap (λ e, match e with JobProgress _ x => Some x | _ => None end) log.

(** the paths handed to [videoDownloader.cleanup] *)
Definition cleaned_up (log : list Effect) : list string :=
  omap (λ e, match e with CleanupFile path => Some path | _ => None end) log.

(** the state of a job whose third execution has failed with [message] *)
Definition exhausted {R : Type} (kind : JobKind) (message : string) : Queue.Job R :=
  {| Queue.opts := options_of kind; Queue.state := Queue.failed;
     Queue.attemptsMade := 3; Queue.returnvalue := None;
     Queue.failedReason := Some message; Queue.wait := 0 |}.

End JobQueue.

(** ** services/videoProcessor.js *)

Module VideoProcessor.

Import Exc AIService.

#[local] Open Scope string_scope.

(** The value of [numClips]: a number or, when the clip duration is zero,
    what the division leaves. *)
Inductive Count := Finite (n : Q) | PlusInfinity | MinusInfinity | NotANumber.

(** [Math.floor(a / b)] *)
Definition floor_of_quotient (a b : Q) : Count :=
  if Qeq_bool b 0 then
    match (a ?= 0)%Q with
    | Gt => PlusInfinity
    | Lt => MinusInfinity
    | Eq => NotANumber
    end
  else Finite (inject_Z (Qfloor (a / b))).

(** the options that [splitIntoClips] and [processToShorts] read, apart
    from the callback; [maxClips] is [null] unless given *)
Record Options := {
  clipDuration : Q;
  startTime : Q;
  maxClips : option Q
}.

(** a clip as [splitIntoClips] returns it: [{ id, path, startTime, duration, index }] *)
Record Clip := {
  info : ClipInfo;
  path : string
}.

(** a clip as [processToShorts] returns it: [{ ...clip, path: outputPath, size }] *)
Record Short := {
  short_info : ClipInfo;
  short_path : string;
  short_size : nat
}.

(** the progress object of [splitIntoClips]: [{ current, total, percent }] *)
Record SplitProgress := {
  current : nat;
  total : Count;
  percent : Q
}.

(** [q] is a whole number *)
Definition whole (q : Q) : Prop := (q == inject_Z (Qfloor q))%Q.

(** The numbers of the model are exact rationals, those of the program are
    binary64.  On these inputs the two agree in [splitIntoClips], because
    the differences, sums and products it computes are then exact in
    binary64 as well and the rounded quotient has the floor of the exact
    one: a clip duration and a start time that are whole numbers of
    seconds, at least 1 and at least 0 (what [POST /process] admits), and a
    video shorter than 2^53 seconds. *)
Definition exact_for (o : Options) (duration : Q) : Prop :=
  whole (clipDuration o) ∧ (1 <= clipDuration o)%Q
  ∧ whole (startTime o) ∧ (0 <= startTime o)%Q
  ∧ (duration < 9007199254740992)%Q.

(** [maxClips || Math.floor(availableDuration / clipDuration)]: [null] and
    [0] are falsy *)
Definition numClips (o : Options) (availableDuration : Q) : Count :=
  match maxClips o with
  | Some m =>
      if Qeq_bool m 0 then floor_of_quotient availableDuration (clipDuration o)
      else Finite m
  | None => floor_of_quotient availableDuration (clipDuration o)
  end.

(** [numClips <= 0] *)
Definition not_positive (c : Count) : bool :=
  match c with
  | Finite n => Qle_bool n 0
  | MinusInfinity => true
  | PlusInfinity | NotANumber => false
  end.

(** How many passes [i = 0, 1, 2, ...] the loop condition [i < numClips]
    can let through.  An infinite count comes with a clip duration of zero,
    and then the first pass leaves the loop at its [break]. *)
Definition passes (c : Count) : nat :=
  match c with
  | Finite n => Z.to_nat (Qceiling n)
  | PlusInfinity => 1
  | MinusInfinity | NotANumber => 0
  end.

(** [((i + 1) / numClips) * 100]; the quotient by an infinite count is 0 *)
Definition percent_done (i : nat) (c : Count) : Q :=
  match c with
  | Finite n => (inject_Z (Z.of_nat (i + 1)) / n * 100)%Q
  | PlusInfinity | MinusInfinity | NotANumber => 0%Q
  end.

(** What the processor draws from outside the repository, for the one
    video it is called on: the two directories of the configuration,
    [path.join], the identifiers of [uuidv4] (the [n]-th drawn in a call is
    [uuid n]), and the runs of ffprobe, of ffmpeg and of the file system.
    - [getVideoDuration] is the outcome of [getVideoDuration(videoPath)];
    - [extractClip outputPath startTime duration] is the outcome of
      [extractClip(videoPath, outputPath, startTime, duration)];
    - [ffmpeg_save inputPath outputPath] is the run of ffmpeg started by
      [resizeToShorts]: the [percent] of each of its progress events, [None]
      when the event has none, and how it ended. *)
Class Tools := {
  tempDir : string;
  outputDir : string;
  path_join : string -> string -> string;
  uuid : nat -> string;
  getVideoDuration : Exc Q;
  extractClip : string -> Q -> Q -> Exc unit;
  ffmpeg_save : string -> string -> JobQueue.AdapterRun (option Q) unit;
  unlinkSync : string -> Exc unit;
  statSync_size : string -> Exc nat
}.

Section Processor.

Context {tools : Tools}.

(** the body of the [for] loop of [splitIntoClips], from pass [i] on, with
    [n] passes left *)
Fixpoint split_from (o : Options) (duration : Q) (count : Count) (n i : nat)
    : list SplitProgress * Exc (list Clip) :=
  match n with
  | O => ([], inr [])
  | S n' =>
      let clipStartTime := (startTime o + inject_Z (Z.of_nat i) * clipDuration o)%Q in
      let clipEndTime := Qmin (clipStartTime + clipDuration o) duration in
      let actualDuration := (clipEndTime - clipStartTime)%Q in
      if Qlt_le_dec actualDuration 1 then ([], inr [])
      else
        let clipId := uuid i in
        let clipPath := path_join tempDir ("clip_" ++ clipId ++ ".mp4") in
        match extractClip clipPath clipStartTime actualDuration with
        | inl message => ([], inl message)
        | inr _ =>
            let clip := {| info := {| clip_id := clipId; clip_index := i;
                                      clip_startTime := clipStartTime;
                                      clip_duration := actualDuration |};
                           path := clipPath |} in
            let progress := {| current := i + 1; total := count;
                               percent := percent_done i count |} in
            let '(reports, rest) := split_from o duration count n' (S i) in
            (progress :: reports,
             match rest with
             | inl message => inl message
             | inr clips => inr (clip :: clips)
             end)
        end
  end.

(** [splitIntoClips(videoPath, options)] seen from the caller: the
    progress objects passed to [onProgress], and the clips or the error *)
Definition splitIntoClips (o : Options) : JobQueue.AdapterRun SplitProgress (list Clip) :=
  let run :=
    match getVideoDuration with
    | inl message => ([], inl message)
    | inr duration =>
        let availableDuration := (duration - startTime o)%Q in
        let count := numClips o availableDuration in
        if not_positive count then ([], inl "Not enough video duration for clips")
        else split_from o duration count (passes count) 0
    end in
  {| JobQueue.reports := run.1;
     JobQueue.outcome := rethrow "Failed to split video: " run.2 |}.

(** [resizeToShorts(inputPath, outputPath, onProgress)]: an event of
    ffmpeg is passed on when its [percent] is truthy *)
Definition resizeToShorts (inputPath outputPath : string) : JobQueue.AdapterRun Q unit :=
  let run := ffmpeg_save inputPath outputPath in
  {| JobQueue.reports :=
       omap (λ p : option Q, p ≫= λ q, if Qeq_bool q 0 then None else Some q)
            (JobQueue.reports run);
     JobQueue.outcome := JobQueue.outcome run |}.

(** the second loop of [processToShorts] *)
Fixpoint resize_all (clips : list Clip)
    : list JobQueue.ProcessorProgress * Exc (list Short) :=
  match clips with
  | [] => ([], inr [])
  | clip :: rest =>
      let outputPath := path_join outputDir ("short_" ++ clip_id (info clip) ++ ".mp4") in
      let resized := resizeToShorts (path clip) outputPath in
      let reports :=
        (λ p, {| JobQueue.pp_stage := JobQueue.resizing; JobQueue.pp_percent := p |})
        <$> JobQueue.reports resized in
      match JobQueue.outcome resized with
      | inl message => (reports, inl message)
      | inr _ =>
          match unlinkSync (path clip) with
          | inl message => (reports, inl message)
          | inr _ =>
              match statSync_size outputPath with
              | inl message => (reports, inl message)
              | inr size =>
                  let '(more, shorts) := resize_all rest in
                  ((reports ++ more)%list,
                   match shorts with
                   | inl message => inl message
                   | inr shorts =>
                       inr ({| short_info := info clip; short_path := outputPath;
                               short_size := size |} :: shorts)
                   end)
              end
          end
      end
  end.

(** [processToShorts(videoPath, options)] seen from the caller.  Of the
    progress objects, [{ stage: 'splitting', ...progress }] and
    [{ stage: 'resizing', clipIndex, totalClips, ...progress }], the stage and
    the percentage are kept: they are what the job queue reads. *)
Definition processToShorts (o : Options)
    : JobQueue.AdapterRun JobQueue.ProcessorProgress (list Short) :=
  let split := splitIntoClips o in
  let splitting :=
    (λ progress, {| JobQueue.pp_stage := JobQueue.splitting;
                    JobQueue.pp_percent := percent progress |})
    <$> JobQueue.reports split in
  let run :=
    match JobQueue.outcome split with
    | inl message => (splitting, inl message)
    | inr clips =>
        let '(resizing, shorts) := resize_all clips in
        ((splitting ++ resizing)%list, shorts)
    end in
  {| JobQueue.reports := run.1;
     JobQueue.outcome := rethrow "Failed to process video to Shorts: " run.2 |}.

(** the call as [processVideo] sees it: the clips are handed on to the
    content generator, which reads their identifier, index, start and
    duration *)
Definition process_adapter (o : Options)
    : JobQueue.AdapterRun JobQueue.ProcessorProgress (list ClipInfo) :=
  let run := processToShorts o in
  {| JobQueue.reports := JobQueue.reports run;
     JobQueue.outcome :=
       match JobQueue.outcome run with
       | inl message => inl message
       | inr shorts => inr (short_info <$> shorts)
       end |}.

End Processor.

(** *** Runs with concrete tools

    The tools over a video of the given duration: every extraction and
    every resize succeeds, ffmpeg reports 50 percent, then an event without
    a percentage, then 100 percent, and the identifiers are the decimal
    numerals. *)
Definition working_tools (duration : Q) : Tools :=
  {| tempDir := "./temp";
     outputDir := "./output";
     path_join := λ directory file, directory ++ "/" ++ file;
     uuid := pretty;
     getVideoDuration := inr duration;
     extractClip := λ _ _ _, inr tt;
     ffmpeg_save := λ _ _, {| JobQueue.reports := [Some 50%Q; None; Some 100%Q];
                              JobQueue.outcome := inr tt |};
     unlinkSync := λ _, inr tt;
     statSync_size := λ _, inr 1000%nat |}.

(** clips of 15 seconds from the beginning of the video, as many as fit *)
Definition quarter_minutes : Options :=
  {| clipDuration := 15; startTime := 0; maxClips := None |}.

End VideoProcessor.

(** ** services/videoDownloader.js *)

Module VideoDownloader.

Import Exc AIService.

#[local] Open Scope string_scope.

(** the fields of the JSON document of yt-dlp that the pipeline uses *)
Record Info := {
  info_title : string;
  info_description : option string;
  info_tags : option (list string)
}.

(** [config.video.qualityPresets[quality]] and
    [config.video.audioQualityPresets[audioQuality]] of config/default.js;
    [None] for a name that is no key of the table *)
Definition qualityPresets (quality : string) : option string :=
  if String.eqb quality "best"
  then Some "bestvideo[ext=mp4]+bestaudio[ext=m4a]/best[ext=mp4]/best"
  else if String.eqb quality "1080p"
  then Some "bestvideo[height<=1080][ext=mp4]+bestaudio[ext=m4a]/best[height<=1080][ext=mp4]"
  else if String.eqb quality "720p"
  then Some "bestvideo[height<=720][ext=mp4]+bestaudio[ext=m4a]/best[height<=720][ext=mp4]"
  else if String.eqb quality "480p"
  then Some "bestvideo[height<=480][ext=mp4]+bestaudio[ext=m4a]/best[height<=480][ext=mp4]"
  else None.

Definition audioQualityPresets (audioQuality : string) : option string :=
  if String.eqb audioQuality "best" then Some "0"
  else if String.eqb audioQuality "good" then Some "5"
  else if String.eqb audioQuality "medium" then Some "7"
  else None.

(** What the downloader draws from outside the repository, for the URL it
    is called on: the directory of the configuration, [path.join], the
    identifier of [uuidv4()], and the runs of yt-dlp and of the file system.
    - [dump_json] is [execPromise(['--dump-json', ...])] followed by
      [JSON.parse];
    - [download format audioQuality outputPath] is the [execPromise] that
      downloads;
    - [unlink_partial] is what the [catch] does to a file left behind:
      [if (fs.existsSync(outputPath)) fs.unlinkSync(outputPath)]. *)
Class Tools := {
  tempDir : string;
  path_join : string -> string -> string;
  uuid : string;
  dump_json : Exc Info;
  download : string -> string -> string -> Exc unit;
  statSync_size : string -> Exc nat;
  unlink_partial : Exc unit
}.

Section Downloader.

Context {tools : Tools}.

(** [getVideoInfo(url)]; [tags: info.tags || []] *)
Definition getVideoInfo : Exc VideoMetadata :=
  rethrow "Failed to get video info: "
    (bind dump_json (λ info,
     ret {| vm_title := info_title info;
            vm_description := info_description info;
            vm_tags := Some (default [] (info_tags info)) |})).

(** [downloadVideo(url, { quality, audioQuality, onProgress })] seen from
    the caller.  The function reads [onProgress] from its options and does
    not call it. *)
Definition downloadVideo (quality audioQuality : string)
    : JobQueue.AdapterRun Q JobQueue.DownloadResult :=
  let videoId := uuid in
  let outputPath := path_join tempDir (videoId ++ ".mp4") in
  {| JobQueue.reports := [];
     JobQueue.outcome :=
       try_catch
         (bind getVideoInfo (λ info,
          let format :=
            default "bestvideo[ext=mp4]+bestaudio[ext=m4a]/best[ext=mp4]/best"
                    (qualityPresets quality) in
          bind (download format (default "0" (audioQualityPresets audioQuality)) outputPath) (λ _,
          bind (statSync_size outputPath) (λ _,
          ret {| JobQueue.dr_path := outputPath; JobQueue.dr_metadata := info |}))))
         (λ message,
          bind unlink_partial (λ _,
          throw ("Failed to download video: " ++ message))) |}.

End Downloader.

End VideoDownloader.

(** ** services/thumbnailGenerator.js *)

Module ThumbnailGenerator.

Import Exc.

(** What the generator draws from outside, for the video it is called on:
    [getVideoDuration] is the outcome of [getVideoDuration(videoPath)], and
    [extractThumbnail timestamp] the one of
    [extractThumbnail(videoPath, timestamp)], the path of the image. *)
Class Tools := {
  getVideoDuration : Exc Q;
  extractThumbnail : Q -> Exc string
}.

Section Generator.

Context {tools : Tools}.

(** the [for] loop of [generateMultiple], from [i] on, with [n] passes left *)
Fixpoint extract_from (interval : Q) (n i : nat) : Exc (list string) :=
  match n with
  | O => ret []
  | S n' =>
      let timestamp := (interval * inject_Z (Z.of_nat i))%Q in
      bind (extractThumbnail timestamp) (λ thumbnail,
      bind (extract_from interval n' (S i)) (λ thumbnails,
      ret (thumbnail :: thumbnails)))
  end.

(** [generateMultiple(videoPath, count = 3)] for an integer [count].  The
    loop [for (i = 1; i <= count; i++)] makes no pass for a [count] below 1,
    where alone [count + 1] can be zero. *)
Definition generateMultiple (count : option Z) : Exc (list string) :=
  let count := default 3%Z count in
  bind getVideoDuration (λ duration,
  let interval := (duration / inject_Z (count + 1))%Q in
  extract_from interval (Z.to_nat count) 1).

End Generator.

(** a video of 40 seconds from which every thumbnail can be taken; the
    image is named after the second of its timestamp *)
Definition forty_seconds : Tools :=
  {| getVideoDuration := inr 40%Q;
     extractThumbnail := λ timestamp,
       inr ("./output/thumb_" ++ pretty (Qfloor timestamp) ++ ".jpg")%string |}.

End ThumbnailGenerator.

(** ** services/scheduler.js *)

Module Scheduler.

Import Exc.

Inductive Status := scheduled | executing | completed | failed | cancelled.

#[global] Instance Status_eq_dec : EqDecision Status.
Proof. solve_decision. Defined.

(** The messages of the errors the scheduler throws, under the names the
    specification gives them.  [InvalidDate] is the [RangeError] of
    [Date.prototype.toISOString] on an invalid date. *)
Definition InvalidTime : string := "Scheduled time must be in the future".

Definition InsufficientTimes : string := "Not enough custom times provided".

Definition InvalidPattern : string := "Invalid pattern type".

Definition NotFound : string := "Schedule not found".

Definition InvalidDate : string := "Invalid time value".

(** The time value of a [Date] is at most 8.64e15 milliseconds away from
    the epoch; a [Date] set beyond that is invalid, its time value [NaN]. *)
Definition Date_limit : Z := 8640000000000000.

Definition in_Date_range (ms : Z) : Prop := (- Date_limit ≤ ms ≤ Date_limit)%Z.

#[global] Instance in_Date_range_dec ms : Decision (in_Date_range ms).
Proof. unfold in_Date_range. apply _. Defined.

(** A time as a caller writes it, classified by what the parser of
    [moment.tz] makes of the string. *)
Inductive TimeString :=
  | Instant (ms : Z)      (* ISO-8601 with an offset: an absolute instant *)
  | WallTime (ms : Z)     (* ISO-8601 without offset: a wall-clock time, to be read in a zone *)
  | Unparseable           (* a non-empty string that is no date, or [null] from [toISOString] *)
  | Blank.                (* the empty string *)

Definition truthy (t : TimeString) : bool :=
  match t with Blank => false | _ => true end.

(** the upload request a Schedule carries; the scheduler does not look inside *)
Record UploadData := {
  videoPath : string;
  ud_title : string;
  ud_description : string;
  ud_privacyStatus : string
}.

(** what [jobQueue.addUploadJob] resolves to: [{ jobId, status: 'queued' }] *)
Record JobInfo := {
  jobId : string;
  ji_status : string
}.

Record Schedule := {
  id : string;
  uploadData : UploadData;
  scheduledTime : Z;
  timezone : string;
  status : Status;
  createdAt : Z;
  result : option JobInfo;
  error : option string;
  completedAt : option Z;
  failedAt : option Z;
  cancelledAt : option Z
}.

(** the object [scheduleUpload] and [reschedule] return *)
Record ScheduleInfo := {
  scheduleId : string;
  si_scheduledTime : Z;
  si_status : Status
}.

Inductive PatternType := interval | daily | custom | other_type (name : string).

(** the [pattern] argument of [scheduleBulk]; [None] is a missing field *)
Record Pattern := {
  p_type : PatternType;
  p_startTime : TimeString;
  p_timezone : option string;
  p_interval : option Z;
  p_times : option (list TimeString)
}.

(** a pending one-shot invocation of node-schedule *)
Record Timer := {
  fireAt : Z;
  target : string
}.

(** The scheduler object together with the parts of its environment it
    acts on.
    - [schedules] and [jobs] are the two [Map]s of the class; a [jobs] entry
      holds the handle of a node-schedule Job, or [None] for [null];
    - [timers] are the invocations node-schedule has pending;
    - [awaiting] are the calls of [executeUpload] suspended at their
      [await], with the id each one holds;
    - [submitted] is the history of calls to [jobQueue.addUploadJob];
    - [disk] is [schedules.json], absent before the first save;
    - [now] is the clock, read by [new Date()]; it does not advance inside
      one synchronous call;
    - [uuids] counts the identifiers drawn from [uuidv4]. *)
Record World := {
  schedules : gmap string Schedule;
  jobs : gmap string (option nat);
  timers : gmap nat Timer;
  next_handle : nat;
  awaiting : gmap nat string;
  next_token : nat;
  submitted : list (string * UploadData);
  disk : option (gmap string Schedule);
  now : Z;
  uuids : nat
}.

Definition set_schedules (f : gmap string Schedule -> gmap string Schedule) (w : World) : World :=
  {| schedules := f (schedules w); jobs := jobs w; timers := timers w;
     next_handle := next_handle w; awaiting := awaiting w; next_token := next_token w;
     submitted := submitted w; disk := disk w; now := now w; uuids := uuids w |}.

Definition set_jobs (f : gmap string (option nat) -> gmap string (option nat)) (w : World) : World :=
  {| schedules := schedules w; jobs := f (jobs w); timers := timers w;
     next_handle := next_handle w; awaiting := awaiting w; next_token := next_token w;
     submitted := submitted w; disk := disk w; now := now w; uuids := uuids w |}.

Definition set_timers (f : gmap nat Timer -> gmap nat Timer) (w : World) : World :=
  {| schedules := schedules w; jobs := jobs w; timers := f (timers w);
     next_handle := next_handle w; awaiting := awaiting w; next_token := next_token w;
     submitted := submitted w; disk := disk w; now := now w; uuids := uuids w |}.

Definition set_next_handle (n : nat) (w : World) : World :=
  {| schedules := schedules w; jobs := jobs w; timers := timers w;
     next_handle := n; awaiting := awaiting w; next_token := next_token w;
     submitted := submitted w; disk := disk w; now := now w; uuids := uuids w |}.

Definition set_awaiting (f : gmap nat string -> gmap nat string) (w : World) : World :=
  {| schedules := schedules w; jobs := jobs w; timers := timers w;
     next_handle := next_handle w; awaiting := f (awaiting w); next_token := next_token w;
     submitted := submitted w; disk := disk w; now := now w; uuids := uuids w |}.

Definition set_next_token (n : nat) (w : World) : World :=
  {| schedules := schedules w; jobs := jobs w; timers := timers w;
     next_handle := next_handle w; awaiting := awaiting w; next_token := n;
     submitted := submitted w; disk := disk w; now := now w; uuids := uuids w |}.

Definition set_submitted (l : list (string * UploadData)) (w : World) : World :=
  {| schedules := schedules w; jobs := jobs w; timers := timers w;
     next_handle := next_handle w; awaiting := awaiting w; next_token := next_token w;
     submitted := l; disk := disk w; now := now w; uuids := uuids w |}.

Definition set_disk (d : option (gmap string Schedule)) (w : World) : World :=
  {| schedules := schedules w; jobs := jobs w; timers := timers w;
     next_handle := next_handle w; awaiting := awaiting w; next_token := next_token w;
     submitted := submitted w; disk := d; now := now w; uuids := uuids w |}.

Definition set_now (t : Z) (w : World) : World :=
  {| schedules := schedules w; jobs := jobs w; timers := timers w;
     next_handle := next_handle w; awaiting := awaiting w; next_token := next_token w;
     submitted := submitted w; disk := disk w; now := t; uuids := uuids w |}.

Definition set_uuids (n : nat) (w : World) : World :=
  {| schedules := schedules w; jobs := jobs w; timers := timers w;
     next_handle := next_handle w; awaiting := awaiting w; next_token := next_token w;
     submitted := submitted w; disk := disk w; now := now w; uuids := n |}.

(** assignments to the fields of a Schedule object *)
Definition with_status (s : Status) (d : Schedule) : Schedule :=
  {| id := id d; uploadData := uploadData d; scheduledTime := scheduledTime d;
     timezone := timezone d; status := s; createdAt := createdAt d;
     result := result d; error := error d; completedAt := completedAt d;
     failedAt := failedAt d; cancelledAt := cancelledAt d |}.

Definition with_time (t : Z) (tz : string) (d : Schedule) : Schedule :=
  {| id := id d; uploadData := uploadData d; scheduledTime := t;
     timezone := tz; status := status d; createdAt := createdAt d;
     result := result d; error := error d; completedAt := completedAt d;
     failedAt := failedAt d; cancelledAt := cancelledAt d |}.

Definition with_result (r : JobInfo) (d : Schedule) : Schedule :=
  {| id := id d; uploadData := uploadData d; scheduledTime := scheduledTime d;
     timezone := timezone d; status := status d; createdAt := createdAt d;
     result := Some r; error := error d; completedAt := completedAt d;
     failedAt := failedAt d; cancelledAt := cancelledAt d |}.

Definition with_error (e : string) (d : Schedule) : Schedule :=
  {| id := id d; uploadData := uploadData d; scheduledTime := scheduledTime d;
     timezone := timezone d; status := status d; createdAt := createdAt d;
     result := result d; error := Some e; completedAt := completedAt d;
     failedAt := failedAt d; cancelledAt := cancelledAt d |}.

Definition with_completedAt (t : Z) (d : Schedule) : Schedule :=
  {| id := id d; uploadData := uploadData d; scheduledTime := scheduledTime d;
     timezone := timezone d; status := status d; createdAt := createdAt d;
     result := result d; error := error d; completedAt := Some t;
     failedAt := failedAt d; cancelledAt := cancelledAt d |}.

Definition with_failedAt (t : Z) (d : Schedule) : Schedule :=
  {| id := id d; uploadData := uploadData d; scheduledTime := scheduledTime d;
     timezone := timezone d; status := status d; createdAt := createdAt d;
     result := result d; error := error d; completedAt := completedAt d;
     failedAt := Some t; cancelledAt := cancelledAt d |}.

Definition with_cancelledAt (t : Z) (d : Schedule) : Schedule :=
  {| id := id d; uploadData := uploadData d; scheduledTime := scheduledTime d;
     timezone := timezone d; status := status d; createdAt := createdAt d;
     result := result d; error := error d; completedAt := completedAt d;
     failedAt := failedAt d; cancelledAt := Some t |}.

(** *** Computations of the scheduler: state, and exceptions that keep
    the state reached when they were thrown *)

Definition M (A : Type) : Type := World -> Exc A * World.

#[global] Instance M_ret : MRet M := λ A a w, (inr a, w).

#[global] Instance M_bind : MBind M := λ A B k m w,
  match m w with
  | (inl e, w') => (inl e, w')
  | (inr a, w') => k a w'
  end.

Definition get : M World := λ w, (inr w, w).

Definition modify (f : World -> World) : M unit := λ w, (inr tt, f w).

Definition raise {A} (message : string) : M A := λ w, (inl message, w).

Definition try_catch {A} (body : M A) (handler : string -> M A) : M A := λ w,
  match body w with
  | (inl e, w') => handler e w'
  | (inr a, w') => (inr a, w')
  end.

Definition lift {A} (r : Exc A) : M A := λ w, (r, w).

Fixpoint for_each {A} (l : list A) (f : A -> M unit) : M unit :=
  match l with
  | [] => mret tt
  | x :: rest => f x ;; for_each rest f
  end.

(** *** The environment and the operations *)

(** What the scheduler draws from outside the repository.
    - [uuid n] is the [n]-th identifier that [uuidv4()] returns.
    - [to_instant] and [to_wall] are the zone database of moment-timezone:
      [to_instant zone t] is the instant at which the clocks of [zone] show
      the wall-clock time [t], and [to_wall zone t] is what they show at the
      instant [t].
    - [local_zone] is the zone of the server process, used by [moment()]. *)
Class Env := {
  uuid : nat -> string;
  to_instant : string -> Z -> Z;
  to_wall : string -> Z -> Z;
  local_zone : string
}.

Section Operations.

Context {env : Env}.

Definition uuidv4 : M string :=
  w ← get;
  modify (set_uuids (S (uuids w))) ;;
  mret (uuid (uuids w)).

(** [new Date()] *)
Definition clock : M Z := w ← get; mret (now w).

(** [moment.tz(t, zone)]: [None] is an invalid moment, and [.toDate()] of
    it an invalid [Date] *)
Definition moment_tz (t : TimeString) (zone : string) : option Z :=
  match t with
  | Instant ms => Some ms
  | WallTime ms => Some (to_instant zone ms)
  | Unparseable | Blank => None
  end.

(** [m.toISOString()] of a moment: [null] when it is invalid *)
Definition moment_toISOString (m : option Z) : TimeString :=
  match m with
  | Some ms => Instant ms
  | None => Unparseable
  end.

(** A moment of [zone] keeps the wall-clock time of its instant in a
    [Date], and [toISOString] makes a [Date] of the instant.  The moment at
    the instant [ms] can be moved by [milliseconds] when that [Date] stays
    in range as it is set forward, and again once it has been adjusted to
    the offset of the zone at the new instant, and the new instant is in
    range too. *)
Definition movable (zone : string) (ms milliseconds : Z) : Prop :=
  in_Date_range (to_wall zone ms + milliseconds)
  ∧ in_Date_range (to_wall zone (ms + milliseconds))
  ∧ in_Date_range (ms + milliseconds).

#[global] Instance movable_dec zone ms milliseconds : Decision (movable zone ms milliseconds).
Proof. unfold movable. apply _. Defined.

(** the same for a move by whole days, which is made on the wall-clock
    time; the instant follows from it *)
Definition movable_days (zone : string) (ms days : Z) : Prop :=
  in_Date_range (to_wall zone ms + days * 86400000)
  ∧ in_Date_range (to_instant zone (to_wall zone ms + days * 86400000)).

#[global] Instance movable_days_dec zone ms days : Decision (movable_days zone ms days).
Proof. unfold movable_days. apply _. Defined.

(** [m.clone().add(n, 'hours')] as the [toISOString] that follows finds
    it.  Hours are added to the instant; nothing happens for [0], nor to a
    moment that is invalid.  A moment that leaves the range of [Date] still
    answers [isValid()] from the flag it was created with, so [toISOString]
    calls [Date.prototype.toISOString] on an invalid [Date], which throws
    the [RangeError]. *)
Definition add_hours (zone : string) (m : option Z) (n : Z) : Exc (option Z) :=
  match m with
  | None => Exc.ret None
  | Some ms =>
      let milliseconds := (n * 3600000)%Z in
      if bool_decide (milliseconds = 0)%Z then Exc.ret (Some ms)
      else if bool_decide (movable zone ms milliseconds)
           then Exc.ret (Some (ms + milliseconds)%Z)
           else Exc.throw InvalidDate
  end.

(** [m.clone().add(n, 'days')] as the [toISOString] that follows finds it:
    days are added on the calendar of the moment's zone, keeping the time
    of day; nothing happens for [0]; out of the range of [Date] as for
    [add_hours] *)
Definition add_days (zone : string) (m : option Z) (n : Z) : Exc (option Z) :=
  match m with
  | None => Exc.ret None
  | Some ms =>
      if bool_decide (n = 0)%Z then Exc.ret (Some ms)
      else if bool_decide (movable_days zone ms n)
           then Exc.ret (Some (to_instant zone (to_wall zone ms + n * 86400000))%Z)
           else Exc.throw InvalidDate
  end.

(** [date <= new Date()]: a comparison with an invalid date is false *)
Definition not_after (date : option Z) (current : Z) : Prop :=
  match date with
  | Some d => (d ≤ current)%Z
  | None => False
  end.

#[global] Instance not_after_dec date current : Decision (not_after date current).
Proof. destruct date; simpl; apply _. Defined.

(** [this.saveSchedules()]: the whole map is written over the file.  The
    write is taken to succeed; the [catch] of the source only logs. *)
Definition saveSchedules : M unit :=
  modify (λ w, set_disk (Some (schedules w)) w).

(** [schedule.scheduleJob(date, handler)] of the node-schedule package
    (not under src/): a one-shot invocation is made pending and its Job is
    returned; for a date that is already past nothing is made pending and
    the result is [null]. *)
Definition scheduleJob (date : Z) (scheduleId : string) : M (option nat) :=
  w ← get;
  if bool_decide (now w ≤ date)%Z then
    let h := next_handle w in
    modify (set_timers <[h := {| fireAt := date; target := scheduleId |}]>) ;;
    modify (set_next_handle (S h)) ;;
    mret (Some h)
  else mret None.

(** [job.cancel()]: the pending invocation, if there still is one, is dropped *)
Definition job_cancel (h : nat) : M unit := modify (set_timers (delete h)).

(** an assignment to a field of the Schedule object registered under
    [scheduleId]; an object that has been removed from the map is no
    longer observable *)
Definition update (scheduleId : string) (f : Schedule -> Schedule) : M unit :=
  modify (set_schedules (alter f scheduleId)).

Definition scheduleUpload (uploadData : UploadData) (scheduledTime : TimeString)
    (timezone : option string) : M ScheduleInfo :=
  let timezone := default "UTC" timezone in
  scheduleId ← uuidv4;
  let scheduledDate := moment_tz scheduledTime timezone in
  current ← clock;
  if bool_decide (not_after scheduledDate current) then raise InvalidTime
  else
    match scheduledDate with
    | None => raise InvalidDate
    | Some date =>
        createdAt ← clock;
        let scheduleData :=
          {| id := scheduleId; uploadData := uploadData; scheduledTime := date;
             timezone := timezone; status := scheduled; createdAt := createdAt;
             result := None; error := None; completedAt := None;
             failedAt := None; cancelledAt := None |} in
        modify (set_schedules <[scheduleId := scheduleData]>) ;;
        saveSchedules ;;
        job ← scheduleJob date scheduleId;
        modify (set_jobs <[scheduleId := job]>) ;;
        mret {| scheduleId := scheduleId; si_scheduledTime := date; si_status := scheduled |}
    end.

(** [index * interval]: a missing interval is [null], and a product with
    [null] is [0] *)
Definition times_interval (index : nat) (interval : option Z) : Z :=
  (Z.of_nat index * default 0 interval)%Z.

(** the [switch] of [scheduleBulk]: the moment computed for one upload,
    as the [toISOString] after the [switch] finds it *)
Definition bulk_time (pattern : Pattern) (startDate : option Z) (timezone : string)
    (index : nat) : Exc (option Z) :=
  match p_type pattern with
  | interval => add_hours timezone startDate (times_interval index (p_interval pattern))
  | daily => add_days timezone startDate (Z.of_nat index)
  | custom =>
      match p_times pattern ≫= (λ times, times !! index) with
      | Some t => if truthy t then Exc.ret (moment_tz t timezone)
                  else Exc.throw InsufficientTimes
      | None => Exc.throw InsufficientTimes
      end
  | other_type _ => Exc.throw InvalidPattern
  end.

(** the [forEach] of [scheduleBulk], from position [index] on *)
Fixpoint bulk_from (pattern : Pattern) (startDate : option Z) (timezone : string)
    (index : nat) (uploads : list UploadData) : M (list ScheduleInfo) :=
  match uploads with
  | [] => mret []
  | upload :: rest =>
      scheduledTime ← lift (bulk_time pattern startDate timezone index);
      result ← scheduleUpload upload (moment_toISOString scheduledTime) (Some timezone);
      results ← bulk_from pattern startDate timezone (S index) rest;
      mret (result :: results)
  end.

Definition scheduleBulk (uploads : list UploadData) (pattern : Pattern)
    : M (list ScheduleInfo) :=
  let timezone := default "UTC" (p_timezone pattern) in
  let startDate := moment_tz (p_startTime pattern) timezone in
  bulk_from pattern startDate timezone 0 uploads.

Definition rescheduleJob (scheduleId : string) (scheduledDate : Z) : M unit :=
  job ← scheduleJob scheduledDate scheduleId;
  modify (set_jobs <[scheduleId := job]>).

(** the callback of the [forEach] in [loadSchedules], applied to one
    entry [(id, scheduleData)] of the map *)
Definition rearm (entry : string * Schedule) : M unit :=
  current ← clock;
  if bool_decide (status entry.2 = scheduled ∧ current < scheduledTime entry.2)%Z
  then rescheduleJob entry.1 (scheduledTime entry.2)
  else mret tt.

(** [fs.existsSync] is [false] when there is no file *)
Definition loadSchedules : M unit :=
  try_catch
    (w ← get;
     match disk w with
     | None => mret tt
     | Some data =>
         modify (set_schedules (λ _, data)) ;;
         for_each (map_to_list data) rearm
     end)
    (λ _, mret tt).

(** the scheduler the module exports, just constructed in a process that
    starts at [current] over the file [file]; [drawn] and [history] belong
    to the world outside the process *)
Definition boot (file : option (gmap string Schedule)) (current : Z)
    (drawn : nat) (history : list (string * UploadData)) : World :=
  (loadSchedules
     {| schedules := ∅; jobs := ∅; timers := ∅; next_handle := 0;
        awaiting := ∅; next_token := 0; submitted := history;
        disk := file; now := current; uuids := drawn |}).2.

(** [executeUpload(scheduleId)] up to its [await]: the call of
    [jobQueue.addUploadJob] is made and the function is suspended; the
    result is the token under which it waits, if it does *)
Definition executeUpload_begin (scheduleId : string) : M (option nat) :=
  w ← get;
  match schedules w !! scheduleId with
  | None => mret None
  | Some scheduleData =>
      update scheduleId (with_status executing) ;;
      saveSchedules ;;
      modify (λ w, set_submitted (submitted w ++ [(scheduleId, uploadData scheduleData)]) w) ;;
      w ← get;
      let k := next_token w in
      modify (set_awaiting <[k := scheduleId]>) ;;
      modify (set_next_token (S k)) ;;
      mret (Some k)
  end.

(** [executeUpload(scheduleId)] from its [await] on, once the promise of
    [addUploadJob] has settled with [outcome] *)
Definition executeUpload_resume (scheduleId : string) (outcome : Exc JobInfo) : M unit :=
  try_catch
    (result ← lift outcome;
     update scheduleId (with_status completed) ;;
     update scheduleId (with_result result) ;;
     current ← clock;
     update scheduleId (with_completedAt current) ;;
     saveSchedules ;;
     modify (set_jobs (delete scheduleId)))
    (λ message,
     update scheduleId (with_status failed) ;;
     update scheduleId (with_error message) ;;
     current ← clock;
     update scheduleId (with_failedAt current) ;;
     saveSchedules ;;
     modify (set_jobs (delete scheduleId))).

Definition cancelSchedule (scheduleId : string) : M bool :=
  w ← get;
  match jobs w !! scheduleId with
  | Some (Some job) => job_cancel job ;; modify (set_jobs (delete scheduleId))
  | _ => mret tt
  end ;;
  w ← get;
  match schedules w !! scheduleId with
  | Some _ =>
      update scheduleId (with_status cancelled) ;;
      current ← clock;
      update scheduleId (with_cancelledAt current) ;;
      saveSchedules
  | None => mret tt
  end ;;
  mret true.

Definition reschedule (scheduleId : string) (newTime : TimeString)
    (timezone : option string) : M ScheduleInfo :=
  let timezone := default "UTC" timezone in
  w ← get;
  match schedules w !! scheduleId with
  | None => raise NotFound
  | Some _ =>
      match jobs w !! scheduleId with
      | Some (Some job) => job_cancel job
      | _ => mret tt
      end ;;
      match moment_tz newTime timezone with
      | None => raise InvalidDate
      | Some date =>
          update scheduleId (with_time date timezone) ;;
          update scheduleId (with_status scheduled) ;;
          saveSchedules ;;
          rescheduleJob scheduleId date ;;
          mret {| scheduleId := scheduleId; si_scheduledTime := date; si_status := scheduled |}
      end
  end.

Definition getSchedule (scheduleId : string) : M Schedule :=
  w ← get;
  match schedules w !! scheduleId with
  | None => raise NotFound
  | Some schedule => mret schedule
  end.

(** [moment().subtract(daysOld, 'days').toDate()] *)
Definition days_ago (current : Z) (daysOld : Z) : Z :=
  if bool_decide (daysOld = 0)%Z then current
  else to_instant local_zone (to_wall local_zone current - daysOld * 86400000)%Z.

Definition stale (cutoffDate : Z) (entry : string * Schedule) : Prop :=
  status entry.2 ≠ scheduled ∧ (createdAt entry.2 < cutoffDate)%Z.

#[global] Instance stale_dec cutoffDate entry : Decision (stale cutoffDate entry).
Proof. unfold stale. apply _. Defined.

Definition cleanOldSchedules (daysOld : Z) : M nat :=
  w ← get;
  let cutoffDate := days_ago (now w) daysOld in
  let cleaned := size (filter (stale cutoffDate) (schedules w)) in
  modify (set_schedules (filter (λ entry, ¬ stale cutoffDate entry))) ;;
  (if bool_decide (0 < cleaned)%nat then saveSchedules else mret tt) ;;
  mret cleaned.

(** A JavaScript [Map] iterates in the order in which its keys were
    inserted.  The store of the model is a finite map, which does not
    record that order, so [Array.from(this.schedules.values())] is an
    argument [values] of the two queries that read it: the records of the
    store, listed in the order the [Map] has them. *)
Definition lists_store (values : list Schedule) (w : World) : Prop :=
  values ≡ₚ (map_to_list (schedules w)).*2.

(** [getAllSchedules()], [values] being [Array.from(this.schedules.values())] *)
Definition getAllSchedules (values : list Schedule) : M (list Schedule) :=
  mret values.

(** the test of the [filter] in [getUpcoming] *)
Definition upcoming (current : Z) (s : Schedule) : Prop :=
  status s = scheduled ∧ (current < scheduledTime s)%Z.

#[global] Instance upcoming_dec current s : Decision (upcoming current s).
Proof. unfold upcoming. apply _. Defined.

(** the order of the comparator
    [(a, b) => new Date(a.scheduledTime) - new Date(b.scheduledTime)] *)
Definition earlier (a b : Schedule) : Prop :=
  (scheduledTime a ≤ scheduledTime b)%Z.

#[global] Instance earlier_dec a b : Decision (earlier a b).
Proof. unfold earlier. apply _. Defined.

(** [Array.prototype.sort] with that comparator.  The sort of the runtime
    is stable, and every stable sort gives the same list: records with
    equal times keep the order they had. *)
Fixpoint insert_by_time (x : Schedule) (l : list Schedule) : list Schedule :=
  match l with
  | [] => [x]
  | y :: rest =>
      if decide (earlier x y) then x :: l else y :: insert_by_time x rest
  end.

Definition sort_by_time (l : list Schedule) : list Schedule :=
  foldr insert_by_time [] l.

(** [array.slice(0, limit)] for an integer [limit]: a negative [limit]
    counts from the end of the array *)
Definition slice_to {A} (limit : Z) (l : list A) : list A :=
  if bool_decide (limit < 0)%Z
  then take (Z.to_nat (Z.max (Z.of_nat (length l) + limit) 0)) l
  else take (Z.to_nat limit) l.

(** [getUpcoming(limit = 10)], [values] being
    [Array.from(this.schedules.values())]; [None] is a call without argument *)
Definition getUpcoming (values : list Schedule) (limit : option Z) : M (list Schedule) :=
  let limit := default 10%Z limit in
  current ← clock;
  mret (slice_to limit (sort_by_time (filter (upcoming current) values))).

(** *** The event loop

    What can happen to a running scheduler, one atomic step at a time: a
    call of its interface, a pending invocation coming due, the settling
    of a promise it is suspended on, the clock moving on, and the process
    being restarted.  An event that cannot happen in the current state (a
    timer that is not due, a token nobody waits on) leaves it as it is. *)

Inductive Event :=
  | CallScheduleUpload (uploadData : UploadData) (scheduledTime : TimeString) (timezone : option string)
  | CallScheduleBulk (uploads : list UploadData) (pattern : Pattern)
  | CallCancelSchedule (scheduleId : string)
  | CallReschedule (scheduleId : string) (newTime : TimeString) (timezone : option string)
  | CallCleanOldSchedules (daysOld : Z)
  | Fire (handle : nat)
  | Settle (token : nat) (outcome : Exc JobInfo)
  | Tick (current : Z)
  | Restart.

Definition fire (h : nat) : M (option nat) :=
  w ← get;
  match timers w !! h with
  | Some t =>
      if bool_decide (fireAt t ≤ now w)%Z then
        modify (set_timers (delete h)) ;;
        executeUpload_begin (target t)
      else mret None
  | None => mret None
  end.

Definition settle (k : nat) (outcome : Exc JobInfo) : M unit :=
  w ← get;
  match awaiting w !! k with
  | Some scheduleId =>
      modify (set_awaiting (delete k)) ;;
      executeUpload_resume scheduleId outcome
  | None => mret tt
  end.

Definition step (e : Event) (w : World) : World :=
  match e with
  | CallScheduleUpload uploadData scheduledTime timezone =>
      (scheduleUpload uploadData scheduledTime timezone w).2
  | CallScheduleBulk uploads pattern => (scheduleBulk uploads pattern w).2
  | CallCancelSchedule scheduleId => (cancelSchedule scheduleId w).2
  | CallReschedule scheduleId newTime timezone => (reschedule scheduleId newTime timezone w).2
  | CallCleanOldSchedules daysOld => (cleanOldSchedules daysOld w).2
  | Fire h => (fire h w).2
  | Settle k outcome => (settle k outcome w).2
  | Tick current => set_now (Z.max (now w) current) w
  | Restart => boot (disk w) (now w) (uuids w) (submitted w)
  end.

Definition run (events : list Event) (w : World) : World :=
  foldl (λ w e, step e w) w events.

(** the uploads handed to the job queue on behalf of one Schedule *)
Definition submissions_of (scheduleId : string) (w : World) : list UploadData :=
  omap (λ entry : string * UploadData,
          if bool_decide (entry.1 = scheduleId) then Some entry.2 else None)
       (submitted w).

(** the pending invocations that will execute one Schedule *)
Definition live_timers (scheduleId : string) (w : World) : gmap nat Timer :=
  filter (λ entry : nat * Timer, target entry.2 = scheduleId) (timers w).

(** *** Notions used to state and prove the properties *)

(** the record that [scheduleUpload] writes *)
Definition new_schedule (scheduleId : string) (uploadData : UploadData) (date : Z)
    (timezone : string) (current : Z) : Schedule :=
  {| id := scheduleId; uploadData := uploadData; scheduledTime := date;
     timezone := timezone; status := scheduled; createdAt := current;
     result := None; error := None; completedAt := None;
     failedAt := None; cancelledAt := None |}.

(** the state that a successful [scheduleUpload] leaves *)
Definition armed (uploadData : UploadData) (date : Z) (timezone : string) (w : World) : World :=
  let scheduleId := uuid (uuids w) in
  let store := <[scheduleId := new_schedule scheduleId uploadData date timezone (now w)]> (schedules w) in
  {| schedules := store;
     jobs := <[scheduleId := Some (next_handle w)]> (jobs w);
     timers := <[next_handle w := {| fireAt := date; target := scheduleId |}]> (timers w);
     next_handle := S (next_handle w);
     awaiting := awaiting w; next_token := next_token w; submitted := submitted w;
     disk := Some store; now := now w; uuids := S (uuids w) |}.

(** what the continuation writes into the Schedule object it holds *)
Definition conclude (outcome : Exc JobInfo) (current : Z) (d : Schedule) : Schedule :=
  match outcome with
  | inr r => with_completedAt current (with_result r (with_status completed d))
  | inl message => with_failedAt current (with_error message (with_status failed d))
  end.

(** the test of [loadSchedules] *)
Definition still_due (current : Z) (d : Schedule) : Prop :=
  status d = scheduled ∧ (current < scheduledTime d)%Z.

(** what holds of the timer table once the entries [processed] have been
    visited at time [current] *)
Definition recovered (current : Z) (processed : list (string * Schedule)) (w : World) : Prop :=
  now w = current
  ∧ (∀ scheduleId j, jobs w !! scheduleId = Some j ->
       ∃ d h, j = Some h ∧ (scheduleId, d) ∈ processed ∧ still_due current d
              ∧ timers w !! h = Some {| fireAt := scheduledTime d; target := scheduleId |})
  ∧ (∀ h t, timers w !! h = Some t ->
       (h < next_handle w)%nat ∧ jobs w !! target t = Some (Some h))
  ∧ (∀ scheduleId d, (scheduleId, d) ∈ processed -> still_due current d ->
       is_Some (jobs w !! scheduleId)).

(** the state after every upload of a batch has been scheduled, the one at
    position [index + i] for the time [time (index + i)] *)
Fixpoint armed_all (timezone : string) (time : nat -> Z) (index : nat)
    (uploads : list UploadData) (w : World) : World :=
  match uploads with
  | [] => w
  | upload :: rest =>
      armed_all timezone time (S index) rest (armed upload (time index) timezone w)
  end.

(** and what is returned for them, when [first] identifiers had been drawn before *)
Fixpoint infos (time : nat -> Z) (index first : nat) (uploads : list UploadData)
    : list ScheduleInfo :=
  match uploads with
  | [] => []
  | _ :: rest =>
      {| scheduleId := uuid first; si_scheduledTime := time index; si_status := scheduled |}
      :: infos time (S index) (S first) rest
  end.

(** the time the [interval] pattern gives the upload at position [i] *)
Definition interval_time (start : Z) (interval : option Z) (i : nat) : Z :=
  (start + times_interval i interval * 3600000)%Z.

(** the time the [custom] pattern gives the upload at position [i] *)
Definition custom_time (pattern : Pattern) (timezone : string) (i : nat) : Z :=
  default 0%Z (default [] (p_times pattern) !! i ≫= λ t, moment_tz t timezone).

(** Nothing can make the Schedule [scheduleId] run: no pending invocation
    targets it, neither the store nor the file holds it in status
    [scheduled], and no identifier drawn from now on equals it. *)
Definition quiet (scheduleId : string) (w : World) : Prop :=
  (∀ h t, timers w !! h = Some t -> target t ≠ scheduleId)
  ∧ (∀ d, schedules w !! scheduleId = Some d -> status d ≠ scheduled)
  ∧ (∀ file d, disk w = Some file -> file !! scheduleId = Some d -> status d ≠ scheduled)
  ∧ (∀ n, (uuids w ≤ n)%nat -> uuid n ≠ scheduleId).

(** [m] keeps [scheduleId] quiet and submits nothing on its behalf *)
Definition keeps_quiet {A} (scheduleId : string) (m : M A) : Prop :=
  ∀ w, quiet scheduleId w ->
       quiet scheduleId (m w).2
       ∧ submissions_of scheduleId (m w).2 = submissions_of scheduleId w.

(** an assignment that does not set the status to [scheduled] *)
Definition harmless (f : Schedule -> Schedule) : Prop :=
  ∀ d, status (f d) = status d ∨ status (f d) ≠ scheduled.

(** the effect of [job.cancel()] on the Job registered for [scheduleId], if any *)
Definition cancel_registered (scheduleId : string) (w : World) : World :=
  match jobs w !! scheduleId with
  | Some (Some job) => set_timers (delete job) w
  | _ => w
  end.

(** the event is a call of [reschedule] for [scheduleId] *)
Definition reschedules (scheduleId : string) (e : Event) : Prop :=
  match e with
  | CallReschedule other _ _ => other = scheduleId
  | _ => False
  end.

(** The file holds exactly the store; before the first save there is no
    file and the store is empty. *)
Definition mirrored (w : World) : Prop :=
  disk w = Some (schedules w) ∨ (disk w = None ∧ schedules w = ∅).

(** the time the [daily] pattern gives the upload at position [i] *)
Definition daily_time (timezone : string) (start : Z) (i : nat) : Z :=
  if bool_decide (Z.of_nat i = 0)%Z then start
  else to_instant timezone (to_wall timezone start + Z.of_nat i * 86400000)%Z.

(** Every identifier under which the store or the file holds a record has
    been drawn from [uuidv4] before. *)
Definition ids_drawn (w : World) : Prop :=
  ∀ scheduleId,
    is_Some (schedules w !! scheduleId)
    ∨ (∃ file, disk w = Some file ∧ is_Some (file !! scheduleId)) ->
    ∃ n, (n < uuids w)%nat ∧ scheduleId = uuid n.

(** the records of [values] that are scheduled for the time [t], in the
    order they have there *)
Definition at_time (t : Z) (values : list Schedule) : list Schedule :=
  filter (λ s, scheduledTime s = t) values.

End Operations.

(** *** Runs in a concrete environment

    Identifiers are the decimal numerals, every zone is at offset zero, and
    the process starts at time 0 without a file. *)

Definition serial (n : nat) : string := pretty n.

Definition utc (zone : string) (t : Z) : Z := t.

Definition numbered_utc : Env :=
  {| uuid := serial; to_instant := utc; to_wall := utc; local_zone := "UTC" |}.

Definition fresh_start : World := boot None 0 0 [].

Definition clip1 : UploadData :=
  {| videoPath := "output/short_1.mp4"; ud_title := "Part 1";
     ud_description := "first clip"; ud_privacyStatus := "private" |}.

Definition clip2 : UploadData :=
  {| videoPath := "output/short_2.mp4"; ud_title := "Part 2";
     ud_description := "second clip"; ud_privacyStatus := "private" |}.

Definition clip3 : UploadData :=
  {| videoPath := "output/short_3.mp4"; ud_title := "Part 3";
     ud_description := "third clip"; ud_privacyStatus := "private" |}.

Definition queued : Exc JobInfo := inr {| jobId := "41"; ji_status := "queued" |}.

(** one upload scheduled for time 1000 in the fresh process *)
Definition one_scheduled : World :=
  (scheduleUpload (env := numbered_utc) clip1 (Instant 1000) None fresh_start).2.

End Scheduler.

(** ** routes/scheduler.js *)

Module SchedulerRoutes.

Import Exc Scheduler.

(** the bodies the handlers send with [res.json] *)
Inductive Json :=
  | OfScheduleInfo (info : ScheduleInfo)
  | OfScheduleInfos (infos : list ScheduleInfo)
  | OfSchedule (s : Schedule)
  | OfSchedules (l : list Schedule)
  | OfSuccess (success : bool)      (* { success } *)
  | OfError (message : string)      (* { error: error.message } *)
  | OfValidationErrors.             (* { errors: errors.array() } *)

(** the status code is 200 unless [res.status] is called *)
Record Response := {
  statusCode : nat;
  body : Json
}.

Definition Handler : Type := World -> Response * World.

(** [try { res.json(result) } catch (error) { res.status(code).json({ error: error.message }) }] *)
Definition respond {A} (call : M A) (render : A -> Json) (code : nat) : Handler := λ w,
  match call w with
  | (inr result, w') => ({| statusCode := 200; body := render result |}, w')
  | (inl message, w') => ({| statusCode := code; body := OfError message |}, w')
  end.

(** [if (!errors.isEmpty()) return res.status(400).json(...)]: [valid] is
    the verdict of the express-validator chain of the route (that package
    is not under src/) *)
Definition validated (valid : bool) (handler : Handler) : Handler := λ w,
  if valid then handler w
  else ({| statusCode := 400; body := OfValidationErrors |}, w).

(** [parseInt(req.query.limit) || 10]; [None] is [NaN] *)
Definition query_limit (parsed : option Z) : Z :=
  match parsed with
  | Some n => if bool_decide (n = 0)%Z then 10%Z else n
  | None => 10%Z
  end.

Section Handlers.

Context {env : Env}.

(** [POST /schedule] *)
Definition post_schedule (valid : bool) (uploadData : UploadData)
    (scheduledTime : TimeString) (timezone : option string) : Handler :=
  validated valid (respond (scheduleUpload uploadData scheduledTime timezone) OfScheduleInfo 500).

(** [POST /schedule-bulk] *)
Definition post_schedule_bulk (valid : bool) (uploads : list UploadData)
    (pattern : Pattern) : Handler :=
  validated valid (respond (scheduleBulk uploads pattern) OfScheduleInfos 500).

(** [GET /], [values] being the listing that [getAllSchedules] reads *)
Definition get_all (values : list Schedule) : Handler :=
  respond (getAllSchedules values) OfSchedules 500.

(** [GET /upcoming] *)
Definition get_upcoming (values : list Schedule) (parsed : option Z) : Handler :=
  respond (getUpcoming values (Some (query_limit parsed))) OfSchedules 500.

(** [GET /:scheduleId] *)
Definition get_schedule (scheduleId : string) : Handler :=
  respond (getSchedule scheduleId) OfSchedule 404.

(** [DELETE /:scheduleId] *)
Definition delete_schedule (scheduleId : string) : Handler :=
  respond (cancelSchedule scheduleId) OfSuccess 404.

(** [PUT /:scheduleId] *)
Definition put_schedule (valid : bool) (scheduleId : string)
    (newTime : TimeString) (timezone : option string) : Handler :=
  validated valid (respond (reschedule scheduleId newTime timezone) OfScheduleInfo 404).

End Handlers.

End SchedulerRoutes.

(** * Properties *)

(** ** The content generator *)

Module AIServiceFacts.

Import Exc AIService.

#[local] Open Scope string_scope.

Lemma fallback_usable videoMetadata clipInfo :
  usable (generateFallbackContent videoMetadata clipInfo) = true.
Proof. reflexivity. Qed.

Lemma generate_when_failed model videoMetadata clipInfo :
  ai_failed model videoMetadata clipInfo = true ->
  generateTitleAndDescription model videoMetadata clipInfo
  = inr (generateFallbackContent videoMetadata clipInfo).
Proof.
  unfold ai_failed, generateTitleAndDescription.
  destruct model as [generateContent|]; [|reflexivity].
  destruct (generateContent _) as [e|text]; simpl; [reflexivity|discriminate].
Qed.

Lemma generate_when_answered generateContent videoMetadata clipInfo text :
  generateContent (buildPrompt videoMetadata clipInfo) = inr text ->
  generateTitleAndDescription (Some generateContent) videoMetadata clipInfo
  = inr (parseResponse text).
Proof. intros H. unfold generateTitleAndDescription. by rewrite H. Qed.

Lemma generateTitleAndDescription_total model videoMetadata clipInfo :
  ∃ content, generateTitleAndDescription model videoMetadata clipInfo = inr content.
Proof.
  unfold generateTitleAndDescription. destruct model as [generateContent|]; [|by eexists].
  destruct (generateContent _); simpl; by eexists.
Qed.

(** What [parseResponse] makes of a reply in the requested format, of one
    with Windows line ends, of one whose title is blank, and of one whose
    markers are in lower case. *)
Example parse_formatted :
  parseResponse "TITLE: Best moment of the match
DESCRIPTION: Watch until the end. #Shorts"
  = {| title := Some "Best moment of the match";
       description := Some "Watch until the end. #Shorts" |}.
Proof. reflexivity. Qed.

Example parse_carriage_return :
  title (parseResponse ("TITLE: Best moment" ++ String (ascii_of_nat 13) nl ++ "DESCRIPTION: d"))
  = None.
Proof. reflexivity. Qed.

Example parse_blank_title :
  parseResponse "TITLE:   " = {| title := None; description := None |}.
Proof. reflexivity. Qed.

Example parse_lower_case :
  parseResponse "title: a
description: b"
  = {| title := Some "a";
       description := Some ("b" ++ nl ++ nl ++ "#Shorts #YouTubeShorts #Viral") |}.
Proof. reflexivity. Qed.

(** A reply without the [TITLE:] marker gives no title. *)
Lemma no_marker_no_title text :
  match_title text = None -> title (parseResponse text) = None.
Proof. intros H. unfold parseResponse. by rewrite H. Qed.

(** C8, as stated, fails: the model is available and answers, but not in
    the requested format; the operation returns the parsed reply, whose
    title and description are both [null], and not the fallback. *)
Lemma unformatted_reply_not_usable :
  let videoMetadata := {| vm_title := "My video"; vm_description := None; vm_tags := None |} in
  let clipInfo := {| clip_id := "c1"; clip_index := 0; clip_startTime := 0; clip_duration := 15 |} in
  let model : Model := Some (λ _, inr "Here is a great clip!") in
  generateTitleAndDescription model videoMetadata clipInfo
  = inr {| title := None; description := None |}
  ∧ ¬ (∃ content, generateTitleAndDescription model videoMetadata clipInfo = inr content
                  ∧ usable content = true).
Proof.
  simpl. split; [reflexivity|].
  intros (content & Hc & Hu). vm_compute in Hc. injection Hc as <-. discriminate.
Qed.

(** C8, amended: for every input and every behaviour of the model the
    operation returns and does not throw; whenever the model is unavailable
    or its call throws, what it returns is the deterministic fallback, which
    has both a title and a description; whenever the call answers, it is the
    parsed reply that is returned. *)
Theorem generateTitleAndDescription_never_throws
    (model : Model) (videoMetadata : VideoMetadata) (clipInfo : ClipInfo) :
  ∃ content,
    generateTitleAndDescription model videoMetadata clipInfo = inr content
    ∧ (ai_failed model videoMetadata clipInfo = true ->
         content = generateFallbackContent videoMetadata clipInfo
         ∧ usable content = true)
    ∧ (∀ generateContent text,
         model = Some generateContent ->
         generateContent (buildPrompt videoMetadata clipInfo) = inr text ->
         content = parseResponse text).
Proof.
  destruct (ai_failed model videoMetadata clipInfo) eqn:Hf.
  - exists (generateFallbackContent videoMetadata clipInfo).
    split; [by apply generate_when_failed|]. split; [done|].
    intros g text -> Hg. unfold ai_failed in Hf. by rewrite Hg in Hf.
  - destruct model as [generateContent|]; [|discriminate].
    unfold ai_failed in Hf.
    destruct (generateContent _) as [e|text] eqn:Hg; [discriminate|].
    exists (parseResponse text).
    split; [by apply generate_when_answered|]. split; [done|].
    intros g text' [= <-] Hg'. congruence.
Qed.

(** The batch of the pipeline inherits it: it returns one entry per clip. *)
Lemma generateBatch_returns model videoMetadata clips :
  ∃ entries, generateBatch model videoMetadata clips = inr entries
             ∧ length entries = length clips.
Proof.
  induction clips as [|clip rest (entries & IH & Hlen)]; simpl; [by exists []|].
  destruct (generateTitleAndDescription_total model videoMetadata clip) as (c & ->).
  simpl. rewrite IH. simpl. eexists. split; [reflexivity|]. simpl. by rewrite Hlen.
Qed.

End AIServiceFacts.

(** ** The pipeline and the retry policy *)

Module JobQueueFacts.

Import Exc AIService JobQueue.

(** *** Properties of the pipeline *)

Lemma bounded_ret {A} (a : A) : bounded (mret a).
Proof. constructor. Qed.

Lemma bounded_pure {A} (r : Exc A) : bounded ([], r).
Proof. constructor. Qed.

Lemma bounded_bind {A B} (m : Run A) (k : A -> Run B) :
  bounded m -> (∀ a, bounded (k a)) -> bounded (m ≫= k).
Proof.
  unfold bounded. destruct m as [l [e|a]]; simpl; intros Hm Hk; [done|].
  specialize (Hk a). destruct (k a) as [l' r]; simpl in *.
  by apply Forall_app.
Qed.

Lemma bounded_try {A} (m : Run A) (h : string -> Run A) :
  bounded m -> (∀ e, bounded (h e)) -> bounded (run_try m h).
Proof.
  unfold bounded. destruct m as [l [e|a]]; simpl; intros Hm Hh; [|done].
  specialize (Hh e). destruct (h e) as [l' r]; simpl in *.
  by apply Forall_app.
Qed.

Lemma bounded_tell e : within_stage e -> bounded (tell e).
Proof. intros. by repeat constructor. Qed.

Lemma bounded_job_progress step x :
  within_stage (JobProgress step x) -> bounded (job_progress step x).
Proof. apply bounded_tell. Qed.

Lemma bounded_emit io e : within_stage e -> bounded (emitProgress io e).
Proof. intros. destruct io; simpl; [by apply bounded_tell | apply bounded_ret]. Qed.

Lemma bounded_for_each {A} (l : list A) (f : A -> Run unit) :
  Forall (λ x, bounded (f x)) l -> bounded (for_each l f).
Proof.
  induction 1; simpl; [apply bounded_ret|].
  apply bounded_bind; auto.
Qed.

Lemma bounded_call {P A} (adapter : AdapterRun P A) (f : P -> Run unit) :
  Forall (λ x, bounded (f x)) (reports adapter) -> bounded (call adapter f).
Proof.
  intros. unfold call. apply bounded_bind; [by apply bounded_for_each|].
  intros _. apply bounded_pure.
Qed.

Lemma download_scale p : in_range 0 100 p -> in_range 10 30 (10 + p * 0.2).
Proof. unfold in_range. intros [??]. split; lra. Qed.

Lemma process_scale p : in_range 0 100 p -> in_range 30 70 (30 + p * 0.4).
Proof. unfold in_range. intros [??]. split; lra. Qed.

Ltac bounded_step :=
  first [ apply bounded_bind; [| intros ?]
        | apply bounded_job_progress; simpl
        | apply bounded_emit; simpl
        | apply bounded_tell; simpl
        | apply bounded_ret
        | apply bounded_pure ].

Lemma processVideo_bounded io options download process model :
  Forall (in_range 0 100) (reports download) ->
  Forall (λ r, in_range 0 100 (pp_percent r)) (reports process) ->
  bounded (processVideo io options download process model).
Proof.
  intros Hd Hp. unfold processVideo. apply bounded_try.
  - apply bounded_bind; [bounded_step; unfold in_range; split; lra | intros _].
    apply bounded_bind; [bounded_step; unfold in_range; split; lra | intros _].
    apply bounded_bind; [apply bounded_pure | intros _].
    apply bounded_bind.
    { apply bounded_call. eapply Forall_impl; [exact Hd|]. intros p Hr.
      apply bounded_bind; [|intros _]; bounded_step; by apply download_scale. }
    intros downloadResult.
    apply bounded_bind; [bounded_step; unfold in_range; split; lra | intros _].
    apply bounded_bind; [bounded_step; done | intros _].
    apply bounded_bind.
    { apply bounded_call. eapply Forall_impl; [exact Hp|]. intros r Hr.
      apply bounded_bind; [|intros _]; bounded_step; [by apply process_scale | done]. }
    intros clips.
    repeat (bounded_step; try done).
  - intros e. repeat (bounded_step; try done).
Qed.

Lemma job_progress_values_elem step log x :
  x ∈ job_progress_values step log -> JobProgress step x ∈ log.
Proof.
  unfold job_progress_values. rewrite list_elem_of_omap.
  intros ([s y| | |] & Hin & Heq); try discriminate.
  case_bool_decide; [|discriminate]. by simplify_eq.
Qed.

Lemma emitted_values_elem stage log x :
  x ∈ emitted_values stage log -> Emit stage x ∈ log.
Proof.
  unfold emitted_values. rewrite list_elem_of_omap.
  intros ([| s y | |] & Hin & Heq); try discriminate.
  case_bool_decide; [|discriminate]. by simplify_eq.
Qed.

(** C1, as stated, fails: nothing clamps.  A downloader that reports 150
    percent makes the job record and broadcast 40 in the download stage. *)
Lemma download_progress_not_clamped :
  let download : AdapterRun Q DownloadResult :=
    {| reports := [150%Q];
       outcome := inl "Failed to download video: timeout" |} in
  let process : AdapterRun ProcessorProgress (list ClipInfo) :=
    {| reports := []; outcome := inr [] |} in
  let log := (processVideo true is_object download process None).1 in
  job_progress_values StepDownload log = [10%Q; (10 + 150 * 0.2)%Q]
  ∧ emitted_values downloading log = [10%Q; (10 + 150 * 0.2)%Q]
  ∧ ¬ (∀ x, x ∈ job_progress_values StepDownload log -> in_range 10 30 x).
Proof.
  simpl. split; [reflexivity|]. split; [reflexivity|].
  intros H. destruct (H (10 + 150 * 0.2)%Q) as [_ Hle].
  - vm_compute. right. left.
  - vm_compute in Hle. by apply Hle.
Qed.

(** The percentage broadcast from the processing callback is the one of
    the adapter's own progress object, not the mapped one: a processor at
    100 percent of its work is broadcast as 100 while the job records 70. *)
Example processing_broadcasts_adapter_percent :
  let download : AdapterRun Q DownloadResult :=
    {| reports := [];
       outcome := inr {| dr_path := "temp/v.mp4";
                         dr_metadata := {| vm_title := "My video"; vm_description := None;
                                           vm_tags := None |} |} |} in
  let process : AdapterRun ProcessorProgress (list ClipInfo) :=
    {| reports := [ {| pp_stage := splitting; pp_percent := 100 |} ]; outcome := inr [] |} in
  let log := (processVideo true is_object download process None).1 in
  job_progress_values StepProcess log = [30%Q; (30 + 100 * 0.4)%Q]
  ∧ emitted_values (of_processor splitting) log = [100%Q].
Proof. split; reflexivity. Qed.

(** C1, amended: for adapter percentages between 0 and 100, every value
    that a run of [processVideo] records on the job during the download
    step, and every value it broadcasts with stage ['downloading'], lies in
    10..30, and every value it records on the job during the split and
    resize step lies in 30..70.  The mapping scales; it does not clamp. *)
Theorem progress_within_stage_range io options download process model :
  Forall (in_range 0 100) (reports download) ->
  Forall (λ r, in_range 0 100 (pp_percent r)) (reports process) ->
  let log := (processVideo io options download process model).1 in
  (∀ x, x ∈ job_progress_values StepDownload log -> in_range 10 30 x)
  ∧ (∀ x, x ∈ emitted_values downloading log -> in_range 10 30 x)
  ∧ (∀ x, x ∈ job_progress_values StepProcess log -> in_range 30 70 x).
Proof.
  intros Hd Hp log.
  pose proof (processVideo_bounded io options download process model Hd Hp) as Hb.
  unfold bounded in Hb. fold log in Hb. rewrite Forall_forall in Hb.
  split; [|split]; intros x Hx.
  - apply job_progress_values_elem in Hx. exact (Hb _ Hx).
  - apply emitted_values_elem in Hx. exact (Hb _ Hx).
  - apply job_progress_values_elem in Hx. exact (Hb _ Hx).
Qed.

Lemma progress_within_stage_range_witness :
  let download : AdapterRun Q DownloadResult :=
    {| reports := [0%Q; 50%Q; 100%Q];
       outcome := inr {| dr_path := "temp/v.mp4";
                         dr_metadata := {| vm_title := "My video"; vm_description := None;
                                           vm_tags := None |} |} |} in
  let process : AdapterRun ProcessorProgress (list ClipInfo) :=
    {| reports := [ {| pp_stage := splitting; pp_percent := 100 |};
                    {| pp_stage := resizing; pp_percent := 25 |} ];
       outcome := inr [] |} in
  let log := (processVideo true is_object download process None).1 in
  (∀ x, x ∈ job_progress_values StepDownload log -> in_range 10 30 x)
  ∧ (∀ x, x ∈ emitted_values downloading log -> in_range 10 30 x)
  ∧ (∀ x, x ∈ job_progress_values StepProcess log -> in_range 30 70 x).
Proof.
  intros download process.
  apply (progress_within_stage_range true is_object download process None).
  - repeat constructor; vm_compute; discriminate.
  - repeat constructor; vm_compute; discriminate.
Defined.

(** *** Properties of the retry policy *)

Section Retry.

Context {R : Type}.

Lemma options_attempts kind : attempts (options_of kind) = 3%nat.
Proof. by destruct kind. Qed.

Lemma options_backoff kind :
  backoff (options_of kind) = {| type := exponential; delay := 5000 |}.
Proof. by destruct kind. Qed.

(** A job in a terminal state is not executed, whatever the fuel. *)
Lemma drive_terminal fuel (processor : nat -> Exc R) (j : Queue.Job R) :
  Queue.state j = Queue.failed ∨ Queue.state j = Queue.completed ->
  Queue.drive fuel processor j = (j, []).
Proof. destruct fuel; [done|]. simpl. by intros [-> | ->]. Qed.

Lemma add_runnable (o : JobOptions) :
  Queue.state (Queue.add (R:=R) o) = Queue.waiting
  ∨ Queue.state (Queue.add (R:=R) o) = Queue.delayed.
Proof. unfold Queue.add; simpl. case_bool_decide; auto. Qed.

(** One failed execution of a runnable job, and what follows it. *)
Lemma drive_failure fuel (processor : nat -> Exc R) (j : Queue.Job R) message :
  Queue.state j = Queue.waiting ∨ Queue.state j = Queue.delayed ->
  processor (S (Queue.attemptsMade j)) = inl message ->
  Queue.drive (S fuel) processor j
  = let next := Queue.drive fuel processor (Queue.settle (inl message) (Queue.take j)) in
    (next.1, {| Queue.ex_waited := Queue.wait j;
                Queue.ex_attempt := S (Queue.attemptsMade j);
                Queue.ex_result := inl message |} :: next.2).
Proof.
  intros Hs Hp. cbn [Queue.drive].
  assert (Hrun : ∀ (X : Type) (a b : X),
            match Queue.state j with
            | Queue.waiting | Queue.delayed => a
            | _ => b
            end = a) by (intros; by destruct Hs as [-> | ->]).
  rewrite Hrun. cbn [Queue.take Queue.attemptsMade]. rewrite Hp.
  by destruct (Queue.drive fuel processor _).
Qed.

(** C5: a job of either kind whose processor throws on every execution is
    executed three times and never a fourth, however long the queue runs:
    first after its initial delay, then after 5 seconds, then after 10
    seconds; it ends [failed] after three attempts, and its failure reason
    is the message thrown by the third execution, unchanged. *)
Theorem failing_job_three_attempts (kind : JobKind) (processor : nat -> Exc R)
    (messages : nat -> string) (fuel : nat) :
  (∀ n, processor n = inl (messages n)) ->
  (3 ≤ fuel)%nat ->
  Queue.drive fuel processor (Queue.add (options_of kind))
  = (exhausted kind (messages 3%nat),
     [ {| Queue.ex_waited := Z.max 0 (opt_delay (options_of kind));
          Queue.ex_attempt := 1; Queue.ex_result := inl (messages 1%nat) |};
       {| Queue.ex_waited := 5000;
          Queue.ex_attempt := 2; Queue.ex_result := inl (messages 2%nat) |};
       {| Queue.ex_waited := 10000;
          Queue.ex_attempt := 3; Queue.ex_result := inl (messages 3%nat) |} ]).
Proof.
  intros Hfail Hfuel.
  destruct fuel as [|[|[|fuel]]]; try lia. clear Hfuel.
  rewrite (drive_failure _ _ _ (messages 1%nat)); [|apply add_runnable|apply Hfail].
  assert (Hsecond : Queue.settle (inl (messages 1%nat)) (Queue.take (Queue.add (R:=R) (options_of kind)))
          = {| Queue.opts := options_of kind; Queue.state := Queue.delayed;
               Queue.attemptsMade := 1; Queue.returnvalue := None;
               Queue.failedReason := None; Queue.wait := 5000 |}).
  { unfold Queue.settle. simpl. by rewrite options_attempts, options_backoff. }
  rewrite Hsecond.
  rewrite (drive_failure _ _ _ (messages 2%nat)); [|by right|apply Hfail].
  assert (Hthird : Queue.settle (inl (messages 2%nat)) (Queue.take
            {| Queue.opts := options_of kind; Queue.state := Queue.delayed;
               Queue.attemptsMade := 1; Queue.returnvalue := @None R;
               Queue.failedReason := None; Queue.wait := 5000 |})
          = {| Queue.opts := options_of kind; Queue.state := Queue.delayed;
               Queue.attemptsMade := 2; Queue.returnvalue := None;
               Queue.failedReason := None; Queue.wait := 10000 |}).
  { unfold Queue.settle. simpl. by rewrite options_attempts, options_backoff. }
  rewrite Hthird.
  rewrite (drive_failure _ _ _ (messages 3%nat)); [|by right|apply Hfail].
  assert (Hlast : Queue.settle (inl (messages 3%nat)) (Queue.take
            {| Queue.opts := options_of kind; Queue.state := Queue.delayed;
               Queue.attemptsMade := 2; Queue.returnvalue := @None R;
               Queue.failedReason := None; Queue.wait := 10000 |})
          = exhausted kind (messages 3%nat)).
  { unfold Queue.settle. simpl. by rewrite options_attempts. }
  rewrite Hlast, drive_terminal by (by left).
  reflexivity.
Qed.

End Retry.

Lemma failing_job_three_attempts_witness :
  let download n : AdapterRun Q DownloadResult :=
    {| reports := []; outcome := inl ("Failed to download video: try " +:+ pretty n) |} in
  let process : AdapterRun ProcessorProgress (list ClipInfo) :=
    {| reports := []; outcome := inr [] |} in
  let processor n := (processVideo false is_object (download n) process None).2 in
  (Queue.drive 7 processor (Queue.add (options_of process_video))).1
  = exhausted process_video "Failed to download video: try 3".
Proof.
  intros download process processor.
  rewrite (failing_job_three_attempts process_video processor
             (λ n, "Failed to download video: try " +:+ pretty n) 7).
  - reflexivity.
  - intros n. reflexivity.
  - lia.
Defined.

End JobQueueFacts.

(** ** The scheduler *)

Module SchedulerFacts.

Import Exc Scheduler.

Ltac unfold_m :=
  unfold uuidv4, clock, saveSchedules, update, job_cancel in *;
  unfold mbind, mret, M_bind, M_ret, get, modify, raise, lift, try_catch in *.

Ltac unfold_setters :=
  unfold set_schedules, set_jobs, set_timers, set_next_handle, set_awaiting,
    set_next_token, set_submitted, set_disk, set_now, set_uuids in *;
  simpl in *.

Section Facts.

Context {env : Env}.

(** *** Scheduling one upload *)

Lemma scheduleUpload_past uploadData scheduledTime timezone date w :
  moment_tz scheduledTime (default "UTC" timezone) = Some date ->
  (date ≤ now w)%Z ->
  scheduleUpload uploadData scheduledTime timezone w
  = (inl InvalidTime, set_uuids (S (uuids w)) w).
Proof.
  intros Hdate Hle. unfold scheduleUpload. unfold_m. cbn.
  rewrite Hdate. cbn. by rewrite bool_decide_true.
Qed.

Lemma scheduleUpload_invalid uploadData scheduledTime timezone w :
  moment_tz scheduledTime (default "UTC" timezone) = None ->
  scheduleUpload uploadData scheduledTime timezone w
  = (inl InvalidDate, set_uuids (S (uuids w)) w).
Proof.
  intros Hdate. unfold scheduleUpload. unfold_m. cbn.
  rewrite Hdate. cbn. reflexivity.
Qed.

Lemma scheduleUpload_future uploadData scheduledTime timezone date w :
  moment_tz scheduledTime (default "UTC" timezone) = Some date ->
  (now w < date)%Z ->
  scheduleUpload uploadData scheduledTime timezone w
  = (inr {| scheduleId := uuid (uuids w); si_scheduledTime := date; si_status := scheduled |},
     armed uploadData date (default "UTC" timezone) w).
Proof.
  intros Hdate Hlt. unfold scheduleUpload, scheduleJob. unfold_m. cbn.
  rewrite Hdate. cbn. rewrite bool_decide_false by lia. cbn.
  rewrite bool_decide_true by lia. reflexivity.
Qed.

(** C3: a call of [scheduleUpload] whose time, read in the given zone, is
    not strictly after the current time throws [InvalidTime]; no Schedule
    record is created and no timer is armed: the two maps, the pending
    invocations and the file are as before. *)
Theorem scheduleUpload_rejects_past uploadData scheduledTime timezone date w :
  moment_tz scheduledTime (default "UTC" timezone) = Some date ->
  (date ≤ now w)%Z ->
  let r := scheduleUpload uploadData scheduledTime timezone w in
  r.1 = inl InvalidTime
  ∧ schedules r.2 = schedules w
  ∧ jobs r.2 = jobs w
  ∧ timers r.2 = timers w
  ∧ disk r.2 = disk w
  ∧ submitted r.2 = submitted w.
Proof.
  intros Hdate Hle r. subst r.
  rewrite (scheduleUpload_past _ _ _ _ _ Hdate Hle). by repeat split.
Qed.

(** *** The firing handler *)

Lemma fire_due h t scheduleData w :
  timers w !! h = Some t ->
  (fireAt t ≤ now w)%Z ->
  schedules w !! target t = Some scheduleData ->
  fire h w
  = (inr (Some (next_token w)),
     let store := alter (with_status executing) (target t) (schedules w) in
     {| schedules := store; jobs := jobs w; timers := delete h (timers w);
        next_handle := next_handle w;
        awaiting := <[next_token w := target t]> (awaiting w);
        next_token := S (next_token w);
        submitted := submitted w ++ [(target t, uploadData scheduleData)];
        disk := Some store; now := now w; uuids := uuids w |}).
Proof.
  intros Ht Hdue Hs. unfold fire, executeUpload_begin. unfold_m. cbn.
  rewrite Ht. rewrite bool_decide_true by done. cbn. rewrite Hs. reflexivity.
Qed.

Lemma settle_waiting k scheduleId outcome w :
  awaiting w !! k = Some scheduleId ->
  settle k outcome w
  = (inr tt,
     let store := alter (conclude outcome (now w)) scheduleId (schedules w) in
     {| schedules := store; jobs := delete scheduleId (jobs w); timers := timers w;
        next_handle := next_handle w; awaiting := delete k (awaiting w);
        next_token := next_token w; submitted := submitted w;
        disk := Some store; now := now w; uuids := uuids w |}).
Proof.
  intros Hk. unfold settle, executeUpload_resume. unfold_m. cbn. rewrite Hk.
  destruct outcome as [message|r]; cbn; unfold set_schedules; cbn;
    rewrite !alter_alter_eq; reflexivity.
Qed.

Lemma fire_returns h w : ∃ r, (fire h w).1 = inr r.
Proof.
  unfold fire, executeUpload_begin. unfold_m. cbn.
  destruct (timers w !! h) as [t|]; [|by eexists].
  case_bool_decide; [|by eexists]. cbn.
  destruct (schedules w !! target t); by eexists.
Qed.

Lemma settle_returns k outcome w : (settle k outcome w).1 = inr tt.
Proof.
  destruct (awaiting w !! k) as [scheduleId|] eqn:Hk.
  - by rewrite (settle_waiting _ _ _ _ Hk).
  - unfold settle. unfold_m. cbn. by rewrite Hk.
Qed.

(** C6: when the timer of an armed Schedule fires, the handler sets the
    Schedule to [executing] and saves, hands its upload to the job queue,
    and, once the submission has settled, sets it to [completed] with the
    returned job information as its result, or to [failed] with the error
    message, and saves again: the record then has status [completed], the
    job information in [result] and the time in [completedAt], or status
    [failed], the message in [error] and the time in [failedAt].  Neither
    part of the handler throws, in any state, and no other Schedule is
    touched. *)
Theorem executeUpload_transitions h t scheduleData (outcome : Exc JobInfo) w :
  timers w !! h = Some t ->
  (fireAt t ≤ now w)%Z ->
  schedules w !! target t = Some scheduleData ->
  status scheduleData = scheduled ->
  ∃ k w1 w2,
    fire h w = (inr (Some k), w1)
    ∧ schedules w1 !! target t = Some (with_status executing scheduleData)
    ∧ disk w1 = Some (schedules w1)
    ∧ submitted w1 = submitted w ++ [(target t, uploadData scheduleData)]
    ∧ timers w1 !! h = None
    ∧ settle k outcome w1 = (inr tt, w2)
    ∧ schedules w2 !! target t
      = Some match outcome with
             | inr r => with_completedAt (now w) (with_result r (with_status completed scheduleData))
             | inl message => with_failedAt (now w) (with_error message (with_status failed scheduleData))
             end
    ∧ (∃ d1 d2,
         schedules w1 !! target t = Some d1 ∧ schedules w2 !! target t = Some d2
         ∧ status d1 = executing
         ∧ uploadData d1 = uploadData scheduleData
         ∧ uploadData d2 = uploadData scheduleData
         ∧ scheduledTime d2 = scheduledTime scheduleData
         ∧ match outcome with
           | inr r =>
               status d2 = completed ∧ result d2 = Some r
               ∧ completedAt d2 = Some (now w)
               ∧ error d2 = error scheduleData ∧ failedAt d2 = failedAt scheduleData
           | inl message =>
               status d2 = failed ∧ error d2 = Some message
               ∧ failedAt d2 = Some (now w)
               ∧ result d2 = result scheduleData ∧ completedAt d2 = completedAt scheduleData
           end)
    ∧ disk w2 = Some (schedules w2)
    ∧ jobs w2 !! target t = None
    ∧ submitted w2 = submitted w1
    ∧ (∀ other, other ≠ target t -> schedules w2 !! other = schedules w !! other)
    ∧ (∀ h' k' outcome' w', (∃ r, (fire h' w').1 = inr r) ∧ (settle k' outcome' w').1 = inr tt).
Proof.
  intros Ht Hdue Hs _.
  eexists _, _, _. split; [by apply (fire_due _ _ _ _ Ht Hdue Hs)|]. cbn.
  split; [by rewrite lookup_alter_eq, Hs|].
  split; [done|]. split; [done|].
  split; [apply lookup_delete_eq|].
  split; [apply settle_waiting; cbn; apply lookup_insert_eq|]. cbn.
  split. { rewrite !lookup_alter_eq, Hs. by destruct outcome. }
  split.
  { eexists _, _. rewrite !lookup_alter_eq, Hs. cbn.
    split; [done|]. split; [done|]. by destruct outcome. }
  split; [done|].
  split; [apply lookup_delete_eq|].
  split; [done|].
  split. { intros other Hne. by rewrite !lookup_alter_ne. }
  intros h' k' outcome' w'. split; [apply fire_returns | apply settle_returns].
Qed.

(** *** Start-up recovery *)

Lemma rearm_due entry w :
  still_due (now w) entry.2 ->
  rearm entry w
  = (inr tt,
     set_jobs <[entry.1 := Some (next_handle w)]>
       (set_next_handle (S (next_handle w))
          (set_timers <[next_handle w := {| fireAt := scheduledTime entry.2;
                                            target := entry.1 |}]> w))).
Proof.
  intros [Hs Ht]. unfold rearm, rescheduleJob, scheduleJob. unfold_m. cbn.
  rewrite bool_decide_true by done. cbn.
  rewrite bool_decide_true by lia. reflexivity.
Qed.

Lemma rearm_not_due entry w :
  ¬ still_due (now w) entry.2 -> rearm entry w = (inr tt, w).
Proof.
  intros Hn. unfold rearm. unfold_m. cbn.
  by rewrite bool_decide_false.
Qed.

Lemma recovered_step current processed entry w :
  entry.1 ∉ processed.*1 ->
  recovered current processed w ->
  recovered current (processed ++ [entry]) (rearm entry w).2.
Proof.
  intros Hfresh (Hnow & Hjobs & Htimers & Hall).
  destruct (decide (still_due (now w) entry.2)) as [Hdue | Hnot].
  - rewrite (rearm_due _ _ Hdue). cbn. destruct entry as [scheduleId d]; cbn in *.
    rewrite Hnow in Hdue. unfold recovered. unfold_setters.
    split; [done|]. split; [|split].
    + intros id' j. rewrite lookup_insert. case_decide as Heq.
      * intros [= <-]. subst id'. exists d, (next_handle w).
        split; [done|]. split; [apply elem_of_app; right; by apply list_elem_of_singleton|].
        split; [done|]. apply lookup_insert_eq.
      * intros Hj. destruct (Hjobs _ _ Hj) as (d' & h & -> & Hin & Hd' & Hh).
        exists d', h. split; [done|]. split; [apply elem_of_app; by left|].
        split; [done|]. rewrite lookup_insert_ne; [done|].
        destruct (Htimers _ _ Hh) as [Hlt _]. lia.
    + intros h t. rewrite lookup_insert. case_decide as Heq.
      * intros [= <-]. subst h. cbn. split; [lia|]. apply lookup_insert_eq.
      * intros Hh. destruct (Htimers _ _ Hh) as [Hlt Hj]. split; [lia|].
        rewrite lookup_insert_ne; [done|].
        intros ->. destruct (Hjobs _ _ Hj) as (d' & ? & _ & Hin & _).
        apply Hfresh. apply list_elem_of_fmap. by exists (target t, d').
    + intros id' d' Hin Hd'. rewrite lookup_insert. case_decide; [by eexists|].
      apply elem_of_app in Hin as [Hin | Hin]; [by eapply Hall|].
      apply list_elem_of_singleton in Hin. congruence.
  - rewrite (rearm_not_due _ _ Hnot). cbn.
    split; [done|]. split; [|split].
    + intros id' j Hj. destruct (Hjobs _ _ Hj) as (d' & h & -> & Hin & Hd' & Hh).
      exists d', h. split; [done|]. split; [apply elem_of_app; by left|]. done.
    + done.
    + intros id' d' Hin Hd'.
      apply elem_of_app in Hin as [Hin | Hin]; [by eapply Hall|].
      apply list_elem_of_singleton in Hin. subst entry. cbn in Hnot.
      rewrite Hnow in Hnot. done.
Qed.

Lemma rearm_frame entry w :
  (rearm entry w).1 = inr tt
  ∧ schedules (rearm entry w).2 = schedules w
  ∧ submitted (rearm entry w).2 = submitted w
  ∧ disk (rearm entry w).2 = disk w
  ∧ uuids (rearm entry w).2 = uuids w.
Proof.
  destruct (decide (still_due (now w) entry.2)) as [Hdue | Hnot].
  - by rewrite (rearm_due _ _ Hdue).
  - by rewrite (rearm_not_due _ _ Hnot).
Qed.

Lemma recovered_all current l processed w :
  NoDup (processed ++ l).*1 ->
  recovered current processed w ->
  let r := for_each l rearm w in
  r.1 = inr tt
  ∧ recovered current (processed ++ l) r.2
  ∧ schedules r.2 = schedules w
  ∧ submitted r.2 = submitted w
  ∧ disk r.2 = disk w
  ∧ uuids r.2 = uuids w.
Proof.
  revert processed w. induction l as [|entry l IH]; intros processed w Hnd Hrec.
  - cbn. by rewrite app_nil_r.
  - cbn [for_each]. unfold mbind, M_bind.
    destruct (rearm_frame entry w) as (Hr & Hs & Hsub & Hd & Hu).
    pose proof (recovered_step current processed entry w) as Hstep.
    destruct (rearm entry w) as [[e|[]] w1]; [discriminate|]. cbn in *.
    replace (processed ++ entry :: l) with ((processed ++ [entry]) ++ l) in *
      by (by rewrite <- app_assoc).
    destruct (IH (processed ++ [entry]) w1) as (H1 & H2 & H3 & H4 & H5 & H6).
    + done.
    + apply Hstep; [|done].
      rewrite !fmap_app in Hnd. apply NoDup_app in Hnd as [Hnd _].
      apply NoDup_app in Hnd as (_ & Hdisj & _).
      intros Hin. eapply Hdisj; [exact Hin|]. cbn. apply list_elem_of_here.
    + cbn in *. split; [done|]. split; [done|].
      split; [congruence|]. split; [congruence|]. split; congruence.
Qed.

Lemma boot_unfold file current drawn history :
  let w1 := {| schedules := file; jobs := ∅; timers := ∅; next_handle := 0;
               awaiting := ∅; next_token := 0; submitted := history;
               disk := Some file; now := current; uuids := drawn |} in
  boot (Some file) current drawn history = (for_each (map_to_list file) rearm w1).2.
Proof.
  cbn. unfold boot, loadSchedules. unfold_m. cbn.
  by destruct (for_each _ _ _) as [[?|?] ?].
Qed.

(** C9: at process start, every record of the file in status [scheduled]
    whose time is still ahead gets one timer, armed for the time the record
    carries; a record in status [scheduled] whose time has passed gets
    none, is not executed and is left as it is.  Nothing is submitted and no
    record is changed by the start itself. *)
Theorem boot_rearms_future_only file current drawn history scheduleId scheduleData :
  file !! scheduleId = Some scheduleData ->
  status scheduleData = scheduled ->
  let w := boot (Some file) current drawn history in
  schedules w = file
  ∧ submitted w = history
  ∧ ((current < scheduledTime scheduleData)%Z ->
       ∃ h, jobs w !! scheduleId = Some (Some h)
            ∧ timers w !! h = Some {| fireAt := scheduledTime scheduleData;
                                      target := scheduleId |}
            ∧ ∀ h' t', timers w !! h' = Some t' -> target t' = scheduleId -> h' = h)
  ∧ ((scheduledTime scheduleData ≤ current)%Z ->
       schedules w !! scheduleId = Some scheduleData
       ∧ jobs w !! scheduleId = None
       ∧ live_timers scheduleId w = ∅).
Proof.
  intros Hfile Hstatus w. subst w. rewrite boot_unfold. cbn zeta.
  set (w1 := {| schedules := file; jobs := ∅ |}).
  destruct (recovered_all current (map_to_list file) [] w1)
    as (_ & (Hnow & Hjobs & Htimers & Hall) & Hs & Hsub & _ & _).
  { cbn. apply NoDup_fst_map_to_list. }
  { unfold recovered, w1. cbn. split; [done|]. split; [|split].
    - intros ?? H. by rewrite lookup_empty in H.
    - intros ?? H. by rewrite lookup_empty in H.
    - intros ?? H. by apply elem_of_nil in H. }
  cbn [app] in *.
  assert (Hunique : ∀ d, (scheduleId, d) ∈ map_to_list file -> d = scheduleData).
  { intros d Hin. apply elem_of_map_to_list in Hin. congruence. }
  split; [done|]. split; [done|]. split.
  - intros Hfuture.
    destruct (Hall scheduleId scheduleData) as [j Hj].
    { by apply elem_of_map_to_list. }
    { done. }
    destruct (Hjobs _ _ Hj) as (d & h & -> & Hin & _ & Hh).
    rewrite (Hunique _ Hin) in Hh.
    exists h. split; [done|]. split; [done|].
    intros h' t' Hh' Htarget. destruct (Htimers _ _ Hh') as [_ Hj'].
    rewrite Htarget in Hj'. congruence.
  - intros Hpast. split; [by rewrite Hs|]. split.
    + destruct (jobs _ !! scheduleId) as [j|] eqn:Hj; [|done].
      destruct (Hjobs _ _ Hj) as (d & h & _ & Hin & [_ Hd] & _).
      rewrite (Hunique _ Hin) in Hd. lia.
    + unfold live_timers. apply map_empty. intros h.
      apply map_lookup_filter_None. right. intros t Hh Htarget. cbn in Htarget.
      destruct (Htimers _ _ Hh) as [_ Hj]. rewrite Htarget in Hj.
      destruct (Hjobs _ _ Hj) as (d & ? & _ & Hin & [_ Hd] & _).
      rewrite (Hunique _ Hin) in Hd. lia.
Qed.

(** *** Bulk scheduling *)

Lemma infos_imap time index first uploads :
  infos time index first uploads
  = imap (λ i _, {| scheduleId := uuid (first + i); si_scheduledTime := time (index + i)%nat;
                    si_status := scheduled |}) uploads.
Proof.
  revert index first. induction uploads as [|u rest IH]; intros index first; [done|].
  cbn. rewrite !Nat.add_0_r. f_equal. rewrite IH. apply imap_ext.
  intros i x _. cbn. by rewrite !Nat.add_succ_r.
Qed.

Lemma armed_all_now timezone time index uploads w :
  now (armed_all timezone time index uploads w) = now w.
Proof.
  revert index w. induction uploads as [|u rest IH]; intros index w; [done|].
  cbn. by rewrite IH.
Qed.

Lemma armed_all_uuids timezone time index uploads w :
  uuids (armed_all timezone time index uploads w) = (uuids w + length uploads)%nat.
Proof.
  revert index w. induction uploads as [|u rest IH]; intros index w; cbn; [lia|].
  rewrite IH. cbn. lia.
Qed.

Lemma armed_all_next_handle timezone time index uploads w :
  next_handle (armed_all timezone time index uploads w)
  = (next_handle w + length uploads)%nat.
Proof.
  revert index w. induction uploads as [|u rest IH]; intros index w; cbn; [lia|].
  rewrite IH. cbn. lia.
Qed.

Lemma armed_uuids upload date timezone w j :
  (uuids (armed upload date timezone w) + j = uuids w + S j)%nat.
Proof. cbn. lia. Qed.

Lemma armed_next_handle upload date timezone w j :
  (next_handle (armed upload date timezone w) + j = next_handle w + S j)%nat.
Proof. cbn. lia. Qed.

(** a batch leaves alone what belongs to other identifiers, and the
    invocations that were pending before *)
Lemma armed_all_other timezone time index uploads w scheduleId :
  (∀ j, (j < length uploads)%nat -> uuid (uuids w + j) ≠ scheduleId) ->
  schedules (armed_all timezone time index uploads w) !! scheduleId = schedules w !! scheduleId
  ∧ jobs (armed_all timezone time index uploads w) !! scheduleId = jobs w !! scheduleId.
Proof.
  revert index w. induction uploads as [|u rest IH]; intros index w Hne; [done|].
  cbn [armed_all]. destruct (IH (S index) (armed u (time index) timezone w)) as [Hs Hj].
  - intros j Hj. rewrite armed_uuids. apply Hne. cbn. lia.
  - rewrite Hs, Hj. cbn. specialize (Hne 0%nat). rewrite Nat.add_0_r in Hne.
    rewrite !lookup_insert_ne; [done| |]; apply Hne; cbn; lia.
Qed.

Lemma armed_all_old_timers timezone time index uploads w h :
  (h < next_handle w)%nat ->
  timers (armed_all timezone time index uploads w) !! h = timers w !! h.
Proof.
  revert index w. induction uploads as [|u rest IH]; intros index w Hlt; [done|].
  cbn [armed_all]. rewrite IH by (cbn; lia). cbn.
  apply lookup_insert_ne. lia.
Qed.

(** the record, the table entry and the timer of the upload at position [i] *)
Lemma armed_all_lookup timezone time index uploads w i upload :
  uploads !! i = Some upload ->
  (∀ j, (i < j < length uploads)%nat -> uuid (uuids w + j) ≠ uuid (uuids w + i)) ->
  let scheduleId := uuid (uuids w + i) in
  let w' := armed_all timezone time index uploads w in
  schedules w' !! scheduleId
  = Some (new_schedule scheduleId upload (time (index + i)%nat) timezone (now w))
  ∧ jobs w' !! scheduleId = Some (Some (next_handle w + i)%nat)
  ∧ timers w' !! (next_handle w + i)%nat
    = Some {| fireAt := time (index + i)%nat; target := scheduleId |}.
Proof.
  revert index w i. induction uploads as [|u rest IH]; intros index w i Hi Hne; [done|].
  destruct i as [|i]; cbn [armed_all].
  - cbn in Hi. injection Hi as ->. rewrite !Nat.add_0_r. cbn zeta.
    destruct (armed_all_other timezone time (S index) rest
                (armed upload (time index) timezone w) (uuid (uuids w))) as [Hs Hj].
    { intros j Hj. rewrite armed_uuids.
      specialize (Hne (S j)). rewrite Nat.add_0_r in Hne. apply Hne. cbn. lia. }
    rewrite Hs, Hj, armed_all_old_timers by (cbn; lia). cbn.
    by rewrite !lookup_insert_eq.
  - cbn in Hi.
    destruct (IH (S index) (armed u (time index) timezone w) i Hi) as (Hs & Hj & Ht).
    { intros j Hj. rewrite !armed_uuids. apply Hne. cbn. lia. }
    rewrite armed_uuids in Hs, Hj, Ht. rewrite armed_next_handle in Hj, Ht.
    replace (S index + i)%nat with (index + S i)%nat in * by lia.
    done.
Qed.

Lemma armed_all_size timezone time index uploads w :
  (∀ i j, (i < j < length uploads)%nat -> uuid (uuids w + i) ≠ uuid (uuids w + j)) ->
  (∀ i, (i < length uploads)%nat -> schedules w !! uuid (uuids w + i) = None) ->
  size (schedules (armed_all timezone time index uploads w))
  = (size (schedules w) + length uploads)%nat.
Proof.
  revert index w. induction uploads as [|u rest IH]; intros index w Hdistinct Hfresh; cbn; [lia|].
  rewrite IH.
  - cbn. rewrite map_size_insert_None; [lia|].
    specialize (Hfresh 0%nat). rewrite Nat.add_0_r in Hfresh. apply Hfresh. cbn. lia.
  - intros i j Hij. rewrite !armed_uuids. apply Hdistinct. cbn. lia.
  - intros i Hi. rewrite armed_uuids. cbn [schedules armed].
    rewrite lookup_insert_ne.
    + apply Hfresh. cbn. lia.
    + specialize (Hdistinct 0%nat (S i)). rewrite Nat.add_0_r in Hdistinct.
      apply Hdistinct. cbn. lia.
Qed.

Lemma bulk_from_cons pattern startDate timezone index upload rest w :
  bulk_from pattern startDate timezone index (upload :: rest) w
  = match bulk_time pattern startDate timezone index with
    | inl e => (inl e, w)
    | inr scheduledTime =>
        match scheduleUpload upload (moment_toISOString scheduledTime) (Some timezone) w with
        | (inl e, w1) => (inl e, w1)
        | (inr result, w1) =>
            match bulk_from pattern startDate timezone (S index) rest w1 with
            | (inl e, w2) => (inl e, w2)
            | (inr results, w2) => (inr (result :: results), w2)
            end
        end
    end.
Proof.
  cbn [bulk_from]. unfold mbind, M_bind, mret, M_ret, lift.
  destruct (bulk_time _ _ _ _) as [e|t]; [done|].
  destruct (scheduleUpload _ _ _ _) as [[e|result] w1]; [done|].
  by destruct (bulk_from _ _ _ _ _ _) as [[e|results] w2].
Qed.

Lemma add_hours_movable zone ms n :
  (n * 3600000 = 0)%Z ∨ movable zone ms (n * 3600000) ->
  add_hours zone (Some ms) n = inr (Some (ms + n * 3600000)%Z).
Proof.
  intros Hmove. unfold add_hours. cbn zeta. case_bool_decide as Hzero.
  - by rewrite Hzero, Z.add_0_r.
  - rewrite bool_decide_true; [done|]. by destruct Hmove.
Qed.

Lemma add_hours_out_of_range zone ms n :
  (n * 3600000 ≠ 0)%Z -> ¬ movable zone ms (n * 3600000) ->
  add_hours zone (Some ms) n = inl InvalidDate.
Proof.
  intros Hzero Hout. unfold add_hours. cbn zeta.
  rewrite bool_decide_false by done. by rewrite bool_decide_false.
Qed.

Lemma bulk_interval_run pattern start timezone uploads index w :
  p_type pattern = interval ->
  (∀ i, (index ≤ i < index + length uploads)%nat ->
        (now w < interval_time start (p_interval pattern) i)%Z
        ∧ ((times_interval i (p_interval pattern) * 3600000 = 0)%Z
           ∨ movable timezone start (times_interval i (p_interval pattern) * 3600000))) ->
  bulk_from pattern (Some start) timezone index uploads w
  = (inr (infos (interval_time start (p_interval pattern)) index (uuids w) uploads),
     armed_all timezone (interval_time start (p_interval pattern)) index uploads w).
Proof.
  intros Htype. revert index w.
  induction uploads as [|u rest IH]; intros index w Hfuture; [done|].
  rewrite bulk_from_cons. unfold bulk_time. rewrite Htype.
  destruct (Hfuture index) as [Hahead Hmove]; [cbn; lia|].
  rewrite (add_hours_movable _ _ _ Hmove). cbn [moment_toISOString].
  rewrite (scheduleUpload_future _ _ _ (interval_time start (p_interval pattern) index)).
  - rewrite IH; [done|]. intros i Hi. cbn [now armed]. apply Hfuture. cbn. lia.
  - done.
  - done.
Qed.

(** a time beyond the range of [Date]: the second upload of a batch makes
    the call throw the [RangeError], and the first one stays scheduled *)
Lemma bulk_interval_beyond_Date_range first second rest pattern start k w :
  p_type pattern = interval ->
  p_interval pattern = Some k ->
  moment_tz (p_startTime pattern) (default "UTC" (p_timezone pattern)) = Some start ->
  (now w < start)%Z ->
  (k ≠ 0)%Z ->
  ¬ movable (default "UTC" (p_timezone pattern)) start (k * 3600000) ->
  scheduleBulk (first :: second :: rest) pattern w
  = (inl InvalidDate, armed first start (default "UTC" (p_timezone pattern)) w).
Proof.
  intros Htype Hk Hstart Hfuture Hzero Hout. unfold scheduleBulk.
  rewrite Hstart, bulk_from_cons. unfold bulk_time at 1. rewrite Htype.
  rewrite add_hours_movable by (left; unfold times_interval; lia).
  cbn [moment_toISOString].
  replace (start + times_interval 0 (p_interval pattern) * 3600000)%Z with start
    by (unfold times_interval; lia).
  rewrite (scheduleUpload_future _ _ _ start); [|done|done].
  rewrite bulk_from_cons. unfold bulk_time. rewrite Htype.
  assert (Hn : times_interval 1 (p_interval pattern) = k).
  { unfold times_interval. rewrite Hk. cbn. lia. }
  rewrite Hn, add_hours_out_of_range; [done|lia|done].
Qed.

Lemma armed_all_keeps timezone time index uploads w scheduleId date :
  (∀ i, time i = date) ->
  (∃ d, schedules w !! scheduleId = Some d ∧ scheduledTime d = date ∧ status d = scheduled) ->
  ∃ d, schedules (armed_all timezone time index uploads w) !! scheduleId = Some d
       ∧ scheduledTime d = date ∧ status d = scheduled.
Proof.
  intros Htime. revert index w.
  induction uploads as [|u rest IH]; intros index w Hd; [done|].
  cbn [armed_all]. apply IH. cbn.
  destruct (decide (uuid (uuids w) = scheduleId)) as [<- | Hne].
  - rewrite lookup_insert_eq. eexists. split; [done|]. by cbn.
  - by rewrite lookup_insert_ne.
Qed.

Lemma armed_all_same_time timezone time index uploads w i date :
  (∀ i, time i = date) ->
  (i < length uploads)%nat ->
  ∃ d, schedules (armed_all timezone time index uploads w) !! uuid (uuids w + i) = Some d
       ∧ scheduledTime d = date ∧ status d = scheduled.
Proof.
  intros Htime. revert index w i.
  induction uploads as [|u rest IH]; intros index w i Hi; [cbn in Hi; lia|].
  cbn [armed_all]. destruct i as [|i].
  - apply armed_all_keeps; [done|]. rewrite Nat.add_0_r. cbn.
    rewrite lookup_insert_eq. eexists. split; [done|]. by cbn.
  - rewrite <- armed_uuids with (upload := u) (date := time index) (timezone := timezone).
    apply IH. cbn in Hi. lia.
Qed.

(** C10: with the [interval] pattern and no [interval] in the pattern the
    product [index * interval] is [0] for every upload, so a batch whose
    start time is still ahead is scheduled without error and every upload
    of it is scheduled for exactly the start time. *)
Theorem scheduleBulk_interval_absent uploads pattern start w :
  p_type pattern = interval ->
  p_interval pattern = None ->
  moment_tz (p_startTime pattern) (default "UTC" (p_timezone pattern)) = Some start ->
  (now w < start)%Z ->
  let r := scheduleBulk uploads pattern w in
  r.1 = inr (imap (λ i _, {| scheduleId := uuid (uuids w + i);
                             si_scheduledTime := start;
                             si_status := scheduled |}) uploads)
  ∧ (∀ i, (i < length uploads)%nat ->
       ∃ d, schedules r.2 !! uuid (uuids w + i) = Some d
            ∧ scheduledTime d = start ∧ status d = scheduled).
Proof.
  intros Htype Hnone Hstart Hfuture r.
  assert (Htime : ∀ i, interval_time start (p_interval pattern) i = start).
  { intros i. unfold interval_time, times_interval. rewrite Hnone. cbn. lia. }
  subst r. unfold scheduleBulk. rewrite Hstart, bulk_interval_run; [|done|].
  - cbn [fst snd]. split.
    + rewrite infos_imap. f_equal. apply imap_ext. intros i x _. by rewrite Htime.
    + intros i Hi. by apply armed_all_same_time.
  - intros i _. rewrite Htime. split; [done|]. left.
    unfold times_interval. rewrite Hnone. cbn. lia.
Qed.

(** *** The [custom] pattern *)

Lemma bulk_from_app pattern startDate timezone index l1 l2 w :
  bulk_from pattern startDate timezone index (l1 ++ l2) w
  = match bulk_from pattern startDate timezone index l1 w with
    | (inl e, w1) => (inl e, w1)
    | (inr results1, w1) =>
        match bulk_from pattern startDate timezone (index + length l1) l2 w1 with
        | (inl e, w2) => (inl e, w2)
        | (inr results2, w2) => (inr (results1 ++ results2), w2)
        end
    end.
Proof.
  revert index w. induction l1 as [|u l1 IH]; intros index w.
  - cbn [app length]. rewrite Nat.add_0_r.
    change (bulk_from pattern startDate timezone index [] w) with (@inr string _ (@nil ScheduleInfo), w).
    cbn iota beta. by destruct (bulk_from _ _ _ _ l2 w) as [[?|?] ?].
  - cbn [app]. rewrite !bulk_from_cons.
    destruct (bulk_time _ _ _ _) as [e|t]; [done|].
    destruct (scheduleUpload _ _ _ _) as [[e|result] w1]; [done|].
    rewrite IH. cbn [length]. rewrite Nat.add_succ_r.
    destruct (bulk_from _ _ _ (S index) l1 w1) as [[e|results1] w2]; [done|].
    by destruct (bulk_from _ _ _ _ l2 w2) as [[e|results2] w3].
Qed.

(** past the last supplied time the [forEach] throws at once *)
Lemma bulk_custom_exhausted pattern startDate timezone index upload rest w :
  p_type pattern = custom ->
  (length (default [] (p_times pattern)) ≤ index)%nat ->
  bulk_from pattern startDate timezone index (upload :: rest) w
  = (inl InsufficientTimes, w).
Proof.
  intros Htype Hlen. rewrite bulk_from_cons. unfold bulk_time. rewrite Htype.
  destruct (p_times pattern) as [times|]; cbn in *; [|done].
  by rewrite lookup_ge_None_2.
Qed.

Lemma bulk_custom_run pattern startDate timezone uploads index w :
  p_type pattern = custom ->
  (∀ i, (index ≤ i < index + length uploads)%nat ->
        ∃ t date, default [] (p_times pattern) !! i = Some t ∧ truthy t = true
                  ∧ moment_tz t timezone = Some date ∧ (now w < date)%Z) ->
  bulk_from pattern startDate timezone index uploads w
  = (inr (infos (custom_time pattern timezone) index (uuids w) uploads),
     armed_all timezone (custom_time pattern timezone) index uploads w).
Proof.
  intros Htype. revert index w.
  induction uploads as [|u rest IH]; intros index w Hok; [done|].
  rewrite bulk_from_cons. unfold bulk_time. rewrite Htype.
  destruct (Hok index) as (t & date & Ht & Htruthy & Hdate & Hfuture); [cbn; lia|].
  assert (Hcustom : custom_time pattern timezone index = date).
  { unfold custom_time. rewrite Ht. cbn. by rewrite Hdate. }
  destruct (p_times pattern) as [times|]; cbn in Ht; [|by rewrite lookup_nil in Ht].
  cbn [mbind option_bind]. rewrite Ht, Htruthy, Hdate. cbn [Exc.ret moment_toISOString].
  rewrite (scheduleUpload_future _ _ _ date); [|done|done].
  cbn [infos armed_all]. rewrite Hcustom, IH; [done|].
  intros i Hi. cbn [now armed]. apply Hok. cbn. lia.
Qed.

Lemma infos_length time index first uploads :
  length (infos time index first uploads) = length uploads.
Proof.
  revert index first. induction uploads as [|u rest IH]; intros index first; [done|].
  cbn. by rewrite IH.
Qed.

(** C2, amended: with the [custom] pattern and fewer times than uploads
    the call always throws.  It leaves the state that scheduling the uploads
    which do have a time leaves: their records, once written, stay.  The
    error is the one of that shorter batch if it fails, and
    [InsufficientTimes] if it goes through, which it does when every
    supplied time is a valid time still ahead; the store then holds a
    record in status [scheduled] and a timer for each of these uploads
    (whose identifier [uuidv4] does not return again during the call).
    With no time at all the state is as before the call, and when the first
    time is rejected (blank, unreadable or not ahead) the store, the timers
    and the file are. *)
Theorem scheduleBulk_custom_short uploads pattern w :
  p_type pattern = custom ->
  (length (default [] (p_times pattern)) < length uploads)%nat ->
  let times := default [] (p_times pattern) in
  let timezone := default "UTC" (p_timezone pattern) in
  let r := scheduleBulk uploads pattern w in
  let r1 := scheduleBulk (take (length times) uploads) pattern w in
  (∃ e, r.1 = inl e)
  ∧ r.2 = r1.2
  ∧ (∀ e, r1.1 = inl e -> r.1 = inl e)
  ∧ (∀ results, r1.1 = inr results -> r.1 = inl InsufficientTimes)
  ∧ ((∀ t, t ∈ times -> truthy t = true
                        ∧ ∃ date, moment_tz t timezone = Some date ∧ (now w < date)%Z) ->
       r.1 = inl InsufficientTimes
       ∧ (∃ results, r1.1 = inr results ∧ length results = length times)
       ∧ ∀ i upload t date,
           uploads !! i = Some upload -> times !! i = Some t ->
           moment_tz t timezone = Some date ->
           (∀ j, (i < j < length times)%nat -> uuid (uuids w + j) ≠ uuid (uuids w + i)) ->
           schedules r.2 !! uuid (uuids w + i)
           = Some (new_schedule (uuid (uuids w + i)) upload date timezone (now w))
           ∧ ∃ h, jobs r.2 !! uuid (uuids w + i) = Some (Some h)
                  ∧ timers r.2 !! h = Some {| fireAt := date; target := uuid (uuids w + i) |})
  ∧ (times = [] -> r = (inl InsufficientTimes, w))
  ∧ (∀ t, times !! 0%nat = Some t ->
       truthy t = false ∨ (∀ date, moment_tz t timezone = Some date -> (date ≤ now w)%Z) ->
       (r.1 = inl InsufficientTimes ∨ r.1 = inl InvalidTime ∨ r.1 = inl InvalidDate)
       ∧ schedules r.2 = schedules w ∧ jobs r.2 = jobs w
       ∧ timers r.2 = timers w ∧ disk r.2 = disk w).
Proof.
  intros Htype Hshort times timezone r r1.
  destruct (drop (length times) uploads) as [|u rest] eqn:Hdrop.
  { apply (f_equal length) in Hdrop. rewrite length_drop in Hdrop. cbn in Hdrop.
    subst times. lia. }
  assert (Hlen : length (take (length times) uploads) = length times).
  { rewrite length_take. subst times. lia. }
  assert (Hr : r = match r1 with
                   | (inl e, w1) => (inl e, w1)
                   | (inr _, w1) => (inl InsufficientTimes, w1)
                   end).
  { subst r r1. unfold scheduleBulk.
    rewrite <- (take_drop (length times) uploads) at 1.
    rewrite bulk_from_app, Hdrop.
    destruct (bulk_from _ _ _ 0 (take _ _) w) as [[e|results] w1]; [done|].
    rewrite bulk_custom_exhausted; [done|done|]. cbn. by rewrite Hlen. }
  assert (Hvalid : (∀ t, t ∈ times -> truthy t = true
                     ∧ ∃ date, moment_tz t timezone = Some date ∧ (now w < date)%Z) ->
                   r1 = (inr (infos (custom_time pattern timezone) 0 (uuids w)
                                (take (length times) uploads)),
                         armed_all timezone (custom_time pattern timezone) 0
                           (take (length times) uploads) w)).
  { intros Hall. subst r1. unfold scheduleBulk. apply bulk_custom_run; [done|].
    intros i Hi. rewrite Hlen in Hi.
    destruct (lookup_lt_is_Some_2 times i) as [t Ht]; [lia|].
    destruct (Hall t) as (Htruthy & date & Hdate & Hfuture).
    { by eapply list_elem_of_lookup_2. }
    by exists t, date. }
  assert (Hfirst : ∀ t, times !! 0%nat = Some t ->
            truthy t = false ∨ (∀ date, moment_tz t timezone = Some date -> (date ≤ now w)%Z) ->
            (r1.1 = inl InsufficientTimes ∨ r1.1 = inl InvalidTime ∨ r1.1 = inl InvalidDate)
            ∧ schedules r1.2 = schedules w ∧ jobs r1.2 = jobs w
            ∧ timers r1.2 = timers w ∧ disk r1.2 = disk w).
  { intros t Ht Hrejected. subst r1. unfold scheduleBulk.
    destruct (take (length times) uploads) as [|first others] eqn:Htake.
    { apply lookup_lt_Some in Ht. subst times. cbn [length] in Hlen. lia. }
    rewrite bulk_from_cons. unfold bulk_time. rewrite Htype.
    fold timezone. subst times.
    destruct (p_times pattern) as [supplied|]; cbn in Ht; [|done].
    cbn [mbind option_bind]. rewrite Ht.
    destruct (truthy t) eqn:Htruthy; [|cbn; by repeat split; [left|..]].
    destruct Hrejected as [Hblank | Hpast]; [done|].
    destruct (moment_tz t timezone) as [date|] eqn:Hdate; cbn [Exc.ret moment_toISOString].
    - rewrite (scheduleUpload_past _ _ _ date); [|done|by apply Hpast].
      cbn. by repeat split; [right; left|..].
    - rewrite (scheduleUpload_invalid _ _ _); [|done].
      cbn. by repeat split; [right; right|..]. }
  rewrite Hr. destruct r1 as [[e|results] w1] eqn:Hr1; cbn [fst snd] in *.
  - split; [by eexists|]. split; [done|]. split; [done|]. split; [done|].
    split; [|split].
    + intros Hall. by specialize (Hvalid Hall).
    + intros Hnil. subst r1. rewrite Hnil in Hr1. cbn in Hr1. discriminate.
    + intros t Ht Hrejected. destruct (Hfirst t Ht Hrejected) as ([He|[He|He]] & Hsame).
      * injection He as ->. split; [by left|done].
      * injection He as ->. split; [by right; left|done].
      * injection He as ->. split; [by right; right|done].
  - split; [by eexists|]. split; [done|]. split; [done|]. split; [done|].
    split; [|split].
    + intros Hall. specialize (Hvalid Hall). injection Hvalid as -> ->.
      split; [done|]. split; [eexists; split; [done|]; by rewrite infos_length|].
      intros i upload t date Hi Ht Hdate Hdistinct.
      assert (Hi' : take (length times) uploads !! i = Some upload).
      { rewrite lookup_take_lt; [done|]. by apply lookup_lt_Some in Ht. }
      destruct (armed_all_lookup timezone (custom_time pattern timezone) 0 _ w i upload Hi')
        as (Hs & Hj & Htimer).
      { intros j Hj. rewrite Hlen in Hj. by apply Hdistinct. }
      assert (Hcustom : custom_time pattern timezone i = date).
      { unfold custom_time. fold times. rewrite Ht. cbn. by rewrite Hdate. }
      cbn in Hs, Hj, Htimer. rewrite Hcustom in Hs, Htimer.
      split; [done|]. by eexists.
    + intros Hnil. subst r1. rewrite Hnil in Hr1. cbn in Hr1.
      by injection Hr1 as _ <-.
    + intros t Ht Hrejected. by destruct (Hfirst t Ht Hrejected) as ([He|[He|He]] & _).
Qed.

(** *** Cancellation *)

Lemma scheduleUpload_quiet scheduleId uploadData scheduledTime timezone :
  keeps_quiet scheduleId (scheduleUpload uploadData scheduledTime timezone).
Proof.
  intros w (Ht & Hs & Hd & Hu).
  destruct (moment_tz scheduledTime (default "UTC" timezone)) as [date|] eqn:Hdate.
  - destruct (decide (date ≤ now w)%Z) as [Hle | Hgt].
    + rewrite (scheduleUpload_past _ _ _ _ _ Hdate Hle). unfold quiet. cbn.
      split; [|done]. split; [done|]. split; [done|]. split; [done|].
      intros n Hn. apply Hu. lia.
    + rewrite (scheduleUpload_future _ _ _ _ _ Hdate) by lia. unfold quiet. cbn.
      assert (Hne : uuid (uuids w) ≠ scheduleId) by (apply Hu; lia).
      split; [|done]. split; [|split; [|split]].
      * intros h t. rewrite lookup_insert. case_decide; [by intros [= <-]|]. apply Ht.
      * intros d. rewrite lookup_insert_ne by done. apply Hs.
      * intros file d [= <-]. rewrite lookup_insert_ne by done. apply Hs.
      * intros n Hn. apply Hu. lia.
  - rewrite (scheduleUpload_invalid _ _ _ _ Hdate). unfold quiet. cbn.
    split; [|done]. split; [done|]. split; [done|]. split; [done|].
    intros n Hn. apply Hu. lia.
Qed.

Lemma bulk_from_quiet scheduleId pattern startDate timezone index uploads :
  keeps_quiet scheduleId (bulk_from pattern startDate timezone index uploads).
Proof.
  revert index. induction uploads as [|u rest IH]; intros index w Hq; [done|].
  rewrite bulk_from_cons.
  destruct (bulk_time _ _ _ _) as [e|t]; [done|].
  destruct (scheduleUpload_quiet scheduleId u (moment_toISOString t) (Some timezone) w Hq)
    as [Hq1 Hsub1].
  destruct (scheduleUpload _ _ _ _) as [[e|result] w1]; [done|]. cbn in Hq1, Hsub1.
  destruct (IH (S index) w1 Hq1) as [Hq2 Hsub2].
  destruct (bulk_from _ _ _ _ _ _) as [[e|results] w2]; cbn in *; split; congruence.
Qed.

Lemma scheduleBulk_quiet scheduleId uploads pattern :
  keeps_quiet scheduleId (scheduleBulk uploads pattern).
Proof. apply bulk_from_quiet. Qed.

Lemma alter_harmless f other (store : gmap string Schedule) scheduleId :
  harmless f ->
  (∀ d, store !! scheduleId = Some d -> status d ≠ scheduled) ->
  ∀ d, alter f other store !! scheduleId = Some d -> status d ≠ scheduled.
Proof.
  intros Hf Hs d. rewrite lookup_alter. case_decide; [subst other|apply Hs].
  destruct (store !! scheduleId) as [d0|] eqn:Hd0; [|done]. cbn. intros [= <-].
  specialize (Hs d0 eq_refl). destruct (Hf d0); congruence.
Qed.

Lemma harmless_status s : s ≠ scheduled -> harmless (with_status s).
Proof. intros Hs d. by right. Qed.

Lemma harmless_cancelledAt t : harmless (with_cancelledAt t).
Proof. intros d. by left. Qed.

Lemma harmless_conclude outcome t : harmless (conclude outcome t).
Proof. intros d. right. by destruct outcome. Qed.

#[local] Hint Resolve harmless_status harmless_cancelledAt harmless_conclude : core.

Lemma delete_timer_quiet (store : gmap nat Timer) h scheduleId :
  (∀ h' t, store !! h' = Some t -> target t ≠ scheduleId) ->
  ∀ h' t, delete h store !! h' = Some t -> target t ≠ scheduleId.
Proof. intros Ht h' t. rewrite lookup_delete. case_decide; [done|apply Ht]. Qed.

Lemma cancelSchedule_quiet scheduleId other :
  keeps_quiet scheduleId (cancelSchedule other).
Proof.
  intros w (Ht & Hs & Hd & Hu).
  assert (Hstore : ∀ d, alter (with_cancelledAt (now w)) other
                          (alter (with_status cancelled) other (schedules w))
                        !! scheduleId = Some d -> status d ≠ scheduled).
  { apply alter_harmless; [done|]. apply alter_harmless; [|done].
    by apply harmless_status. }
  unfold cancelSchedule. unfold_m. cbn.
  destruct (jobs w !! other) as [[h|]|]; cbn;
    destruct (schedules w !! other) as [d0|] eqn:Hother; cbn; unfold quiet; unfold_setters;
    (split; [|done]); (split; [|split; [|split]]); try done.
  all: try (by apply delete_timer_quiet).
  all: intros file d [= <-]; apply Hstore.
Qed.

Lemma reschedule_found other newTime timezone d0 w :
  schedules w !! other = Some d0 ->
  reschedule other newTime timezone w
  = let w1 := cancel_registered other w in
    match moment_tz newTime (default "UTC" timezone) with
    | None => (inl InvalidDate, w1)
    | Some date =>
        let store := alter (with_status scheduled) other
                       (alter (with_time date (default "UTC" timezone)) other (schedules w)) in
        (inr {| scheduleId := other; si_scheduledTime := date; si_status := scheduled |},
         if bool_decide (now w ≤ date)%Z then
           {| schedules := store;
              jobs := <[other := Some (next_handle w)]> (jobs w);
              timers := <[next_handle w := {| fireAt := date; target := other |}]> (timers w1);
              next_handle := S (next_handle w);
              awaiting := awaiting w; next_token := next_token w; submitted := submitted w;
              disk := Some store; now := now w; uuids := uuids w |}
         else
           {| schedules := store;
              jobs := <[other := None]> (jobs w);
              timers := timers w1;
              next_handle := next_handle w;
              awaiting := awaiting w; next_token := next_token w; submitted := submitted w;
              disk := Some store; now := now w; uuids := uuids w |})
    end.
Proof.
  intros Hfound. unfold reschedule, rescheduleJob, scheduleJob, cancel_registered.
  unfold_m. cbn. rewrite Hfound.
  destruct (jobs w !! other) as [[h|]|]; cbn;
    destruct (moment_tz newTime (default "UTC" timezone)) as [date|]; cbn; try done;
    destruct (bool_decide (now w ≤ date)%Z); reflexivity.
Qed.

Lemma reschedule_missing other newTime timezone w :
  schedules w !! other = None ->
  reschedule other newTime timezone w = (inl NotFound, w).
Proof. intros Hnone. unfold reschedule. unfold_m. cbn. by rewrite Hnone. Qed.

Lemma cancel_registered_quiet scheduleId other w :
  (∀ h t, timers w !! h = Some t -> target t ≠ scheduleId) ->
  ∀ h t, timers (cancel_registered other w) !! h = Some t -> target t ≠ scheduleId.
Proof.
  intros Ht. unfold cancel_registered.
  destruct (jobs w !! other) as [[job|]|]; [|done|done].
  cbn. by apply delete_timer_quiet.
Qed.

Lemma reschedule_quiet scheduleId other newTime timezone :
  other ≠ scheduleId ->
  keeps_quiet scheduleId (reschedule other newTime timezone).
Proof.
  intros Hne w (Ht & Hs & Hd & Hu).
  destruct (schedules w !! other) as [d0|] eqn:Hfound;
    [|by rewrite (reschedule_missing _ _ _ _ Hfound)].
  rewrite (reschedule_found _ _ _ _ _ Hfound). cbn zeta.
  pose proof (cancel_registered_quiet scheduleId other w Ht) as Ht1.
  assert (Hsame : schedules (cancel_registered other w) = schedules w
                  ∧ disk (cancel_registered other w) = disk w
                  ∧ uuids (cancel_registered other w) = uuids w
                  ∧ submitted (cancel_registered other w) = submitted w).
  { unfold cancel_registered. by destruct (jobs w !! other) as [[job|]|]. }
  destruct Hsame as (Hs1 & Hd1 & Hu1 & Hsub1).
  destruct (moment_tz newTime (default "UTC" timezone)) as [date|].
  - assert (Hstore : ∀ d, alter (with_status scheduled) other
                            (alter (with_time date (default "UTC" timezone)) other (schedules w))
                          !! scheduleId = Some d -> status d ≠ scheduled).
    { intros d. rewrite !lookup_alter_ne by done. apply Hs. }
    destruct (bool_decide (now w ≤ date)%Z); unfold quiet, submissions_of; cbn [snd timers schedules disk uuids submitted].
    + split; [|done]. split; [|split; [|split]]; [|done| |done].
      * intros h t. rewrite lookup_insert. case_decide; [by intros [= <-]|]. apply Ht1.
      * intros file d [= <-]. apply Hstore.
    + split; [|done]. split; [|split; [|split]]; [done|done| |done].
      intros file d [= <-]. apply Hstore.
  - unfold quiet, submissions_of. cbn [snd]. rewrite Hs1, Hd1, Hu1, Hsub1. by repeat split.
Qed.

Lemma cleanOldSchedules_quiet scheduleId daysOld :
  keeps_quiet scheduleId (cleanOldSchedules daysOld).
Proof.
  intros w (Ht & Hs & Hd & Hu).
  assert (Hstore : ∀ d, filter (λ entry, ¬ stale (days_ago (now w) daysOld) entry) (schedules w)
                        !! scheduleId = Some d -> status d ≠ scheduled).
  { intros d Hl. apply map_lookup_filter_Some in Hl as [Hl _]. by apply Hs. }
  unfold cleanOldSchedules. unfold_m. cbn.
  case_bool_decide; cbn; unfold quiet; unfold_setters;
    (split; [|done]); (split; [|split; [|split]]); try done.
  intros file d [= <-]. apply Hstore.
Qed.

Lemma submissions_of_app scheduleId other uploadData w :
  other ≠ scheduleId ->
  submissions_of scheduleId (set_submitted (submitted w ++ [(other, uploadData)]) w)
  = submissions_of scheduleId w.
Proof.
  intros Hne. unfold submissions_of. cbn. rewrite omap_app. cbn.
  rewrite bool_decide_false by done. by rewrite app_nil_r.
Qed.

Lemma fire_quiet scheduleId h :
  keeps_quiet scheduleId (fire h).
Proof.
  intros w (Ht & Hs & Hd & Hu).
  destruct (timers w !! h) as [t|] eqn:Hh.
  - destruct (decide (fireAt t ≤ now w)%Z) as [Hdue|Hnot].
    + pose proof (Ht _ _ Hh) as Hne.
      destruct (schedules w !! target t) as [d0|] eqn:Hd0.
      * rewrite (fire_due _ _ _ _ Hh Hdue Hd0). unfold quiet, submissions_of. cbn.
        split.
        -- split; [by apply delete_timer_quiet|].
           split; [intros d; rewrite lookup_alter_ne by done; apply Hs|].
           split; [|done].
           intros file d [= <-]. rewrite lookup_alter_ne by done. apply Hs.
        -- rewrite omap_app. cbn. rewrite bool_decide_false by done. by rewrite app_nil_r.
      * unfold fire, executeUpload_begin. unfold_m. cbn. rewrite Hh.
        rewrite bool_decide_true by done. cbn. rewrite Hd0. unfold quiet. cbn.
        split; [|done]. split; [by apply delete_timer_quiet|done].
    + unfold fire. unfold_m. cbn. rewrite Hh. by rewrite bool_decide_false.
  - unfold fire. unfold_m. cbn. by rewrite Hh.
Qed.

Lemma settle_quiet scheduleId k outcome :
  keeps_quiet scheduleId (settle k outcome).
Proof.
  intros w (Ht & Hs & Hd & Hu).
  destruct (awaiting w !! k) as [other|] eqn:Hk.
  - rewrite (settle_waiting _ _ _ _ Hk). unfold quiet. cbn.
    assert (Hstore : ∀ d, alter (conclude outcome (now w)) other (schedules w)
                          !! scheduleId = Some d -> status d ≠ scheduled).
    { by apply alter_harmless. }
    split; [|done]. split; [done|]. split; [done|]. split; [|done].
    intros file d [= <-]. apply Hstore.
  - unfold settle. unfold_m. cbn. by rewrite Hk.
Qed.

Lemma boot_quiet scheduleId w :
  quiet scheduleId w ->
  quiet scheduleId (boot (disk w) (now w) (uuids w) (submitted w))
  ∧ submissions_of scheduleId (boot (disk w) (now w) (uuids w) (submitted w))
    = submissions_of scheduleId w.
Proof.
  intros (Ht & Hs & Hd & Hu).
  destruct (disk w) as [file|] eqn:Hfile.
  - rewrite boot_unfold. cbn zeta.
    set (w1 := {| schedules := file; jobs := ∅ |}).
    destruct (recovered_all (now w) (map_to_list file) [] w1)
      as (_ & (Hnow & Hjobs & Htimers & Hall) & Hstore & Hsub & Hdisk & Huuids).
    { cbn. apply NoDup_fst_map_to_list. }
    { unfold recovered, w1. cbn. split; [done|]. split; [|split].
      - intros ?? H. by rewrite lookup_empty in H.
      - intros ?? H. by rewrite lookup_empty in H.
      - intros ?? H. by apply elem_of_nil in H. }
    cbn [app] in *. unfold quiet, submissions_of. rewrite Hstore, Hsub, Hdisk, Huuids.
    split; [|done]. split; [|split; [|split]].
    + intros h t Hh Htarget. destruct (Htimers _ _ Hh) as [_ Hj].
      destruct (Hjobs _ _ Hj) as (d & ? & _ & Hin & [Hst _] & _).
      apply elem_of_map_to_list in Hin. rewrite Htarget in Hin.
      by apply (Hd file d).
    + intros d. cbn. by apply Hd.
    + intros file' d [= <-]. by apply Hd.
    + done.
  - unfold boot, loadSchedules. unfold_m. cbn.
    unfold quiet. cbn. split; [|done]. split; [|split; [|split]]; done.
Qed.

Lemma step_quiet scheduleId e w :
  ¬ reschedules scheduleId e ->
  quiet scheduleId w ->
  quiet scheduleId (step e w)
  ∧ submissions_of scheduleId (step e w) = submissions_of scheduleId w.
Proof.
  intros He Hq. destruct e; cbn [step].
  - by apply scheduleUpload_quiet.
  - by apply scheduleBulk_quiet.
  - by apply cancelSchedule_quiet.
  - apply reschedule_quiet; [|done]. intros ->. by apply He.
  - by apply cleanOldSchedules_quiet.
  - by apply fire_quiet.
  - by apply settle_quiet.
  - by destruct Hq as (? & ? & ? & ?).
  - by apply boot_quiet.
Qed.

Lemma run_quiet scheduleId events w :
  Forall (λ e, ¬ reschedules scheduleId e) events ->
  quiet scheduleId w ->
  quiet scheduleId (run events w)
  ∧ submissions_of scheduleId (run events w) = submissions_of scheduleId w.
Proof.
  intros Hev. revert w. induction Hev as [|e events He _ IH]; intros w Hq; [done|].
  change (run (e :: events) w) with (run events (step e w)).
  destruct (step_quiet scheduleId e w He Hq) as [Hq1 Hsub1].
  destruct (IH _ Hq1) as [Hq2 Hsub2]. split; [done|]. congruence.
Qed.

Lemma quiet_no_timers scheduleId w :
  quiet scheduleId w -> live_timers scheduleId w = ∅.
Proof.
  intros (Ht & _). unfold live_timers. apply map_empty. intros h.
  apply map_lookup_filter_None. right. intros t Hh Htarget. by apply (Ht h t).
Qed.

Lemma cancelSchedule_found scheduleId d w :
  schedules w !! scheduleId = Some d ->
  cancelSchedule scheduleId w
  = (inr true,
     let store := alter (with_cancelledAt (now w)) scheduleId
                    (alter (with_status cancelled) scheduleId (schedules w)) in
     match jobs w !! scheduleId with
     | Some (Some job) =>
         {| schedules := store; jobs := delete scheduleId (jobs w);
            timers := delete job (timers w); next_handle := next_handle w;
            awaiting := awaiting w; next_token := next_token w; submitted := submitted w;
            disk := Some store; now := now w; uuids := uuids w |}
     | _ =>
         {| schedules := store; jobs := jobs w;
            timers := timers w; next_handle := next_handle w;
            awaiting := awaiting w; next_token := next_token w; submitted := submitted w;
            disk := Some store; now := now w; uuids := uuids w |}
     end).
Proof.
  intros Hfound. unfold cancelSchedule. unfold_m. cbn.
  destruct (jobs w !! scheduleId) as [[job|]|]; cbn; by rewrite Hfound.
Qed.

(** C4, amended: cancelling a Schedule that is in status [scheduled] and
    whose pending invocations are all the one registered in the timer table
    sets its status to [cancelled], records the time of the call in
    [cancelledAt], saves, and leaves no pending invocation for it.  From then on, whatever happens (calls for
    other Schedules, timers, settling promises, time passing, restarts), no
    upload is submitted from it and no timer is armed for it, for as long as
    [reschedule] is not called on it. *)
Theorem cancelSchedule_final scheduleId d w events :
  schedules w !! scheduleId = Some d ->
  status d = scheduled ->
  (∀ h t, timers w !! h = Some t -> target t = scheduleId ->
          jobs w !! scheduleId = Some (Some h)) ->
  (∀ n, (uuids w ≤ n)%nat -> uuid n ≠ scheduleId) ->
  Forall (λ e, ¬ reschedules scheduleId e) events ->
  let r := cancelSchedule scheduleId w in
  r.1 = inr true
  ∧ schedules r.2 !! scheduleId = Some (with_cancelledAt (now w) (with_status cancelled d))
  ∧ (∃ d', schedules r.2 !! scheduleId = Some d'
           ∧ status d' = cancelled
           ∧ cancelledAt d' = Some (now w)
           ∧ uploadData d' = uploadData d
           ∧ scheduledTime d' = scheduledTime d)
  ∧ disk r.2 = Some (schedules r.2)
  ∧ (∀ h, jobs r.2 !! scheduleId ≠ Some (Some h))
  ∧ live_timers scheduleId r.2 = ∅
  ∧ submissions_of scheduleId r.2 = submissions_of scheduleId w
  ∧ submissions_of scheduleId (run events r.2) = submissions_of scheduleId w
  ∧ live_timers scheduleId (run events r.2) = ∅.
Proof.
  intros Hfound Hstatus Htracked Hfresh Hev r.
  assert (Hr : r.1 = inr true
               ∧ schedules r.2 !! scheduleId
                 = Some (with_cancelledAt (now w) (with_status cancelled d))
               ∧ disk r.2 = Some (schedules r.2)
               ∧ (∀ h, jobs r.2 !! scheduleId ≠ Some (Some h))
               ∧ (∀ h t, timers r.2 !! h = Some t -> target t ≠ scheduleId)
               ∧ submitted r.2 = submitted w
               ∧ uuids r.2 = uuids w).
  { subst r. rewrite (cancelSchedule_found _ _ _ Hfound). cbn zeta.
    destruct (jobs w !! scheduleId) as [[job|]|] eqn:Hjob; cbn.
    - split; [done|]. split; [by rewrite !lookup_alter_eq, Hfound|].
      split; [done|]. split; [intros h; by rewrite lookup_delete_eq|].
      split; [|done]. intros h t. rewrite lookup_delete. case_decide; [done|].
      intros Hh Htarget. specialize (Htracked _ _ Hh Htarget). congruence.
    - split; [done|]. split; [by rewrite !lookup_alter_eq, Hfound|].
      split; [done|]. split; [by rewrite Hjob|].
      split; [|done]. intros h t Hh Htarget.
      specialize (Htracked _ _ Hh Htarget). congruence.
    - split; [done|]. split; [by rewrite !lookup_alter_eq, Hfound|].
      split; [done|]. split; [by rewrite Hjob|].
      split; [|done]. intros h t Hh Htarget.
      specialize (Htracked _ _ Hh Htarget). congruence. }
  destruct Hr as (Hret & Hstore & Hdisk & Hjobs & Htimers & Hsub & Huuids).
  assert (Hq : quiet scheduleId r.2).
  { split; [done|]. split; [|split].
    - rewrite Hstore. by intros d' [= <-].
    - rewrite Hdisk. intros file d' [= <-]. rewrite Hstore. by intros [= <-].
    - by rewrite Huuids. }
  assert (Hsame : submissions_of scheduleId r.2 = submissions_of scheduleId w).
  { unfold submissions_of. by rewrite Hsub. }
  destruct (run_quiet scheduleId events r.2 Hev Hq) as [Hq' Hsub'].
  split; [done|]. split; [done|].
  split; [eexists; split; [exact Hstore|done]|].
  split; [done|]. split; [done|].
  split; [by apply quiet_no_timers|]. split; [done|].
  split; [congruence|]. by apply quiet_no_timers.
Qed.

(** *** The identifiers in the store *)

Lemma cancelSchedule_missing scheduleId w :
  schedules w !! scheduleId = None ->
  cancelSchedule scheduleId w
  = (inr true,
     match jobs w !! scheduleId with
     | Some (Some job) => set_jobs (delete scheduleId) (set_timers (delete job) w)
     | _ => w
     end).
Proof.
  intros Hnone. unfold cancelSchedule. unfold_m. cbn.
  destruct (jobs w !! scheduleId) as [[job|]|]; cbn; by rewrite Hnone.
Qed.

Lemma boot_store file current drawn history :
  schedules (boot file current drawn history) = default ∅ file
  ∧ disk (boot file current drawn history) = file
  ∧ uuids (boot file current drawn history) = drawn.
Proof.
  destruct file as [file|].
  - rewrite boot_unfold. cbn zeta.
    set (w1 := {| schedules := file; jobs := ∅ |}).
    destruct (recovered_all current (map_to_list file) [] w1)
      as (_ & _ & Hs & _ & Hd & Hu).
    { cbn. apply NoDup_fst_map_to_list. }
    { unfold recovered, w1. cbn. split; [done|]. split; [|split].
      - intros ?? H. by rewrite lookup_empty in H.
      - intros ?? H. by rewrite lookup_empty in H.
      - intros ?? H. by apply elem_of_nil in H. }
    by rewrite Hs, Hd, Hu.
  - done.
Qed.

Lemma ids_drawn_step w w' :
  ids_drawn w ->
  (uuids w ≤ uuids w')%nat ->
  (∀ scheduleId, is_Some (schedules w' !! scheduleId) ->
     is_Some (schedules w !! scheduleId)
     ∨ ∃ n, (n < uuids w')%nat ∧ scheduleId = uuid n) ->
  disk w' = disk w ∨ disk w' = Some (schedules w') ->
  ids_drawn w'.
Proof.
  intros Hw Hle Hstore Hdisk.
  assert (Hnew : ∀ scheduleId, is_Some (schedules w' !! scheduleId) ->
                   ∃ n, (n < uuids w')%nat ∧ scheduleId = uuid n).
  { intros scheduleId Hin. destruct (Hstore _ Hin) as [Hbefore|Hdrawn]; [|done].
    destruct (Hw scheduleId) as (n & Hn & ->); [by left|]. exists n. split; [lia|done]. }
  intros scheduleId [Hin | (file & Hfile & Hin)]; [by apply Hnew|].
  destruct Hdisk as [Hd | Hd]; rewrite Hd in Hfile.
  - destruct (Hw scheduleId) as (n & Hn & ->); [right; by exists file|].
    exists n. split; [lia|done].
  - injection Hfile as <-. by apply Hnew.
Qed.

Lemma scheduleUpload_ids_drawn uploadData scheduledTime timezone w :
  ids_drawn w -> ids_drawn (scheduleUpload uploadData scheduledTime timezone w).2.
Proof.
  intros Hw.
  destruct (moment_tz scheduledTime (default "UTC" timezone)) as [date|] eqn:Hdate.
  - destruct (decide (date ≤ now w)%Z) as [Hpast|Hfuture].
    + rewrite (scheduleUpload_past _ _ _ _ _ Hdate Hpast).
      apply (ids_drawn_step w); cbn; [done|lia|by left|by left].
    + rewrite (scheduleUpload_future _ _ _ _ _ Hdate) by lia.
      apply (ids_drawn_step w); cbn; [done|lia| |by right].
      intros scheduleId. rewrite lookup_insert_is_Some'. intros [<-|Hin]; [|by left].
      right. exists (uuids w). split; [lia|done].
  - rewrite (scheduleUpload_invalid _ _ _ _ Hdate).
    apply (ids_drawn_step w); cbn; [done|lia|by left|by left].
Qed.

Lemma bulk_from_ids_drawn pattern startDate timezone index uploads w :
  ids_drawn w -> ids_drawn (bulk_from pattern startDate timezone index uploads w).2.
Proof.
  revert index w. induction uploads as [|u rest IH]; intros index w Hw; [done|].
  rewrite bulk_from_cons. destruct (bulk_time _ _ _ _) as [e|t]; [done|].
  pose proof (scheduleUpload_ids_drawn u (moment_toISOString t) (Some timezone) w Hw) as H1.
  destruct (scheduleUpload _ _ _ _) as [[e|result] w1]; [done|]. cbn in H1.
  specialize (IH (S index) w1 H1).
  by destruct (bulk_from _ _ _ _ _ _) as [[e|results] w2].
Qed.

Lemma cancelSchedule_ids_drawn scheduleId w :
  ids_drawn w -> ids_drawn (cancelSchedule scheduleId w).2.
Proof.
  intros Hw. destruct (schedules w !! scheduleId) as [d|] eqn:Hd.
  - rewrite (cancelSchedule_found _ _ _ Hd). cbn zeta.
    destruct (jobs w !! scheduleId) as [[job|]|];
      (apply (ids_drawn_step w); cbn; [done|lia| |by right]);
      intros other Hin; left; by rewrite !lookup_alter_is_Some in Hin.
  - rewrite (cancelSchedule_missing _ _ Hd).
    destruct (jobs w !! scheduleId) as [[job|]|];
      (apply (ids_drawn_step w); cbn; [done|lia|by left|by left]).
Qed.

Lemma reschedule_ids_drawn scheduleId newTime timezone w :
  ids_drawn w -> ids_drawn (reschedule scheduleId newTime timezone w).2.
Proof.
  intros Hw. destruct (schedules w !! scheduleId) as [d|] eqn:Hd.
  - rewrite (reschedule_found _ _ _ _ _ Hd). cbn zeta.
    destruct (moment_tz newTime (default "UTC" timezone)) as [date|].
    + cbn [snd]. case_bool_decide;
        (apply (ids_drawn_step w); cbn; [done|lia| |by right]);
        intros other Hin; left; by rewrite !lookup_alter_is_Some in Hin.
    + cbn [snd]. unfold cancel_registered.
      destruct (jobs w !! scheduleId) as [[job|]|];
        (apply (ids_drawn_step w); cbn; [done|lia|by left|by left]).
  - by rewrite (reschedule_missing _ _ _ _ Hd).
Qed.

Lemma cleanOldSchedules_ids_drawn daysOld w :
  ids_drawn w -> ids_drawn (cleanOldSchedules daysOld w).2.
Proof.
  intros Hw. unfold cleanOldSchedules. unfold_m. cbn.
  assert (Hkept : ∀ cutoffDate scheduleId,
            is_Some (filter (λ entry, ¬ stale cutoffDate entry) (schedules w) !! scheduleId) ->
            is_Some (schedules w !! scheduleId)).
  { intros cutoffDate scheduleId [d Hin]. apply map_lookup_filter_Some in Hin as [Hin _].
    by exists d. }
  case_bool_decide; cbn.
  - apply (ids_drawn_step w); cbn; [done|lia| |by right].
    intros scheduleId Hin. left. by eapply Hkept.
  - apply (ids_drawn_step w); cbn; [done|lia| |by left].
    intros scheduleId Hin. left. by eapply Hkept.
Qed.

Lemma fire_ids_drawn h w : ids_drawn w -> ids_drawn (fire h w).2.
Proof.
  intros Hw. destruct (timers w !! h) as [t|] eqn:Hh.
  - destruct (decide (fireAt t ≤ now w)%Z) as [Hdue|Hnot].
    + destruct (schedules w !! target t) as [d|] eqn:Hd.
      * rewrite (fire_due _ _ _ _ Hh Hdue Hd).
        apply (ids_drawn_step w); cbn; [done|lia| |by right].
        intros other Hin. left. by rewrite lookup_alter_is_Some in Hin.
      * unfold fire, executeUpload_begin. unfold_m. cbn. rewrite Hh.
        rewrite bool_decide_true by done. cbn. rewrite Hd.
        apply (ids_drawn_step w); cbn; [done|lia|by left|by left].
    + unfold fire. unfold_m. cbn. rewrite Hh. by rewrite bool_decide_false.
  - unfold fire. unfold_m. cbn. by rewrite Hh.
Qed.

Lemma settle_ids_drawn k outcome w : ids_drawn w -> ids_drawn (settle k outcome w).2.
Proof.
  intros Hw. destruct (awaiting w !! k) as [scheduleId|] eqn:Hk.
  - rewrite (settle_waiting _ _ _ _ Hk).
    apply (ids_drawn_step w); cbn; [done|lia| |by right].
    intros other Hin. left. by rewrite lookup_alter_is_Some in Hin.
  - unfold settle. unfold_m. cbn. by rewrite Hk.
Qed.

Lemma boot_ids_drawn file current drawn history :
  (∀ scheduleId, is_Some (default ∅ file !! scheduleId) ->
     ∃ n, (n < drawn)%nat ∧ scheduleId = uuid n) ->
  ids_drawn (boot file current drawn history).
Proof.
  intros Hfile. destruct (boot_store file current drawn history) as (Hs & Hd & Hu).
  intros scheduleId. rewrite Hs, Hd, Hu. intros [Hin | (data & -> & Hin)]; by apply Hfile.
Qed.

Lemma step_ids_drawn e w : ids_drawn w -> ids_drawn (step e w).
Proof.
  intros Hw. destruct e; cbn [step].
  - by apply scheduleUpload_ids_drawn.
  - by apply bulk_from_ids_drawn.
  - by apply cancelSchedule_ids_drawn.
  - by apply reschedule_ids_drawn.
  - by apply cleanOldSchedules_ids_drawn.
  - by apply fire_ids_drawn.
  - by apply settle_ids_drawn.
  - apply (ids_drawn_step w); cbn; [done|lia|by left|by left].
  - apply boot_ids_drawn. intros scheduleId Hin. apply Hw. right.
    destruct (disk w) as [file|]; [by exists file|].
    cbn in Hin. rewrite lookup_empty in Hin. by destruct Hin.
Qed.

Lemma run_ids_drawn events w : ids_drawn w -> ids_drawn (run events w).
Proof.
  revert w. induction events as [|e events IH]; intros w Hw; [done|].
  change (run (e :: events) w) with (run events (step e w)).
  by apply IH, step_ids_drawn.
Qed.

Lemma ids_drawn_fresh w n :
  (∀ n m, uuid n = uuid m -> n = m) ->
  ids_drawn w -> (uuids w ≤ n)%nat -> schedules w !! uuid n = None.
Proof.
  intros Hinj Hw Hn. destruct (schedules w !! uuid n) as [d|] eqn:Hd; [|done].
  destruct (Hw (uuid n)) as (m & Hm & Heq); [left; by exists d|].
  apply Hinj in Heq. lia.
Qed.

(** C7: the [interval] pattern gives the upload at position [i] the start
    time plus [i * k] hours, [k] being the interval.  In any state that the
    scheduler can be in after its start, with a start time that is still
    ahead and times that all lie in the range of [Date], [scheduleBulk]
    returns one Schedule per upload, in the order of the uploads; the one at
    position [i] is scheduled for that time, has status [scheduled], a
    record of its own in the store and a timer armed for that time.  The
    identifiers are those of [uuidv4], which is taken not to return an
    identifier twice: they are distinct and none of them was in the store,
    so the store grows by exactly one record per upload.  For three uploads
    and an interval of 2 the times are T, T + 2h and T + 4h. *)
Theorem scheduleBulk_interval file current drawn history events uploads pattern start k :
  let w := run events (boot file current drawn history) in
  let timezone := default "UTC" (p_timezone pattern) in
  let time (i : nat) := (start + Z.of_nat i * k * 3600000)%Z in
  (∀ n m, uuid n = uuid m -> n = m) ->
  (∀ scheduleId, is_Some (default ∅ file !! scheduleId) ->
     ∃ n, (n < drawn)%nat ∧ scheduleId = uuid n) ->
  p_type pattern = interval ->
  p_interval pattern = Some k ->
  moment_tz (p_startTime pattern) timezone = Some start ->
  (now w < start)%Z ->
  (0 ≤ k)%Z ->
  (∀ i, (i < length uploads)%nat -> movable timezone start (Z.of_nat i * k * 3600000)) ->
  let r := scheduleBulk uploads pattern w in
  (∀ i, (i < length uploads)%nat ->
        bulk_time pattern (Some start) timezone i = inr (Some (time i)))
  ∧ r.1 = inr (imap (λ i _, {| scheduleId := uuid (uuids w + i);
                             si_scheduledTime := time i;
                             si_status := scheduled |}) uploads)
  ∧ (∀ i upload, uploads !! i = Some upload ->
       schedules w !! uuid (uuids w + i) = None
       ∧ schedules r.2 !! uuid (uuids w + i)
         = Some (new_schedule (uuid (uuids w + i)) upload (time i) timezone (now w))
       ∧ ∃ h, jobs r.2 !! uuid (uuids w + i) = Some (Some h)
              ∧ timers r.2 !! h = Some {| fireAt := time i; target := uuid (uuids w + i) |})
  ∧ (∀ results i j a b, r.1 = inr results ->
       results !! i = Some a -> results !! j = Some b ->
       scheduleId a = scheduleId b -> i = j)
  ∧ (∀ scheduleId d, schedules w !! scheduleId = Some d ->
       schedules r.2 !! scheduleId = Some d)
  ∧ size (schedules r.2) = (size (schedules w) + length uploads)%nat
  ∧ (∀ results, r.1 = inr results -> length uploads = 3%nat -> k = 2%Z ->
       si_scheduledTime <$> results
       = [start; (start + 2 * 3600000)%Z; (start + 4 * 3600000)%Z]).
Proof.
  intros w timezone time Hinj Hfile Htype Hk Hstart Hfuture Hpos Hrange r.
  assert (Hw : ids_drawn w) by by apply run_ids_drawn, boot_ids_drawn.
  assert (Hfresh : ∀ i, schedules w !! uuid (uuids w + i) = None).
  { intros i. apply ids_drawn_fresh; [done|done|lia]. }
  assert (Hdistinct : ∀ i j, uuid (uuids w + i) = uuid (uuids w + j) -> i = j).
  { intros i j Heq. apply Hinj in Heq. lia. }
  assert (Htime : ∀ i, interval_time start (p_interval pattern) i = time i).
  { intros i. unfold interval_time, times_interval, time. by rewrite Hk. }
  assert (Hrun : r = (inr (infos time 0 (uuids w) uploads),
                      armed_all timezone time 0 uploads w)).
  { subst r. unfold scheduleBulk. fold timezone. rewrite Hstart, bulk_interval_run; [|done|].
    - f_equal.
      + f_equal. rewrite !infos_imap. apply imap_ext. intros i x _. by rewrite Htime.
      + clear Hfresh Hw Hfuture. generalize 0%nat. generalize w.
        induction uploads as [|u rest IH]; intros w' n; [done|].
        cbn [armed_all]. rewrite Htime. apply IH. intros i Hi. apply Hrange. cbn. lia.
    - intros i Hi. rewrite Htime. split; [unfold time; nia|]. right.
      unfold times_interval. rewrite Hk. cbn [default]. apply Hrange. lia. }
  rewrite Hrun. cbn [fst snd].
  split.
  { intros i Hi. unfold bulk_time. rewrite Htype.
    rewrite add_hours_movable.
    - unfold times_interval, time. by rewrite Hk.
    - right. unfold times_interval. rewrite Hk. cbn [default]. by apply Hrange. }
  split; [by rewrite infos_imap|]. split; [|split; [|split; [|split]]].
  - intros i upload Hi. split; [apply Hfresh|].
    destruct (armed_all_lookup timezone time 0 uploads w i upload Hi) as (Hs & Hj & Ht).
    { intros j Hj Heq. apply Hdistinct in Heq. lia. }
    cbn in Hs, Hj, Ht. split; [done|]. by eexists.
  - intros results i j a b [= <-]. rewrite infos_imap, !list_lookup_imap_Some.
    intros (x & _ & ->) (y & _ & ->). cbn. apply Hdistinct.
  - intros scheduleId d Hd.
    destruct (armed_all_other timezone time 0 uploads w scheduleId) as [Hs _]; [|by rewrite Hs].
    intros j _ Heq. subst scheduleId. by rewrite Hfresh in Hd.
  - apply armed_all_size; [|by intros i _; apply Hfresh].
    intros i j Hij Heq. apply Hdistinct in Heq. lia.
  - intros results [= <-] Hlen ->.
    destruct uploads as [|u1 [|u2 [|u3 [|]]]]; try discriminate.
    cbn. unfold time. repeat f_equal; lia.
Qed.

End Facts.

(** *** Runs in a concrete environment *)

#[local] Existing Instance numbered_utc.

Lemma serial_inj n m : serial n = serial m -> n = m.
Proof. unfold serial. apply (inj pretty). Qed.

Lemma one_scheduled_armed :
  one_scheduled = armed clip1 1000 "UTC" fresh_start.
Proof.
  unfold one_scheduled. by rewrite (scheduleUpload_future _ _ _ 1000).
Qed.

Lemma scheduleUpload_rejects_past_witness :
  let w := set_now 2000 fresh_start in
  let r := scheduleUpload clip1 (Instant 1500) None w in
  r.1 = inl InvalidTime ∧ schedules r.2 = schedules w ∧ timers r.2 = timers w.
Proof.
  intros w r.
  destruct (scheduleUpload_rejects_past clip1 (Instant 1500) None 1500 w)
    as (H1 & H2 & _ & H3 & _).
  - reflexivity.
  - vm_compute. discriminate.
  - by repeat split.
Defined.

(** C2, as stated, fails: two uploads and one custom time.  The call throws
    [InsufficientTimes], but the first upload has been scheduled by then:
    its record is in the store and in the file and its timer is pending. *)
Lemma bulk_custom_commits_partially :
  let pattern := {| p_type := custom; p_startTime := Instant 5000; p_timezone := None;
                    p_interval := None; p_times := Some [Instant 5000] |} in
  let r := scheduleBulk [clip1; clip2] pattern fresh_start in
  r.1 = inl InsufficientTimes
  ∧ schedules fresh_start = ∅
  ∧ schedules r.2 ≠ schedules fresh_start
  ∧ schedules r.2 !! "0" = Some (new_schedule "0" clip1 5000 "UTC" 0)
  ∧ disk r.2 = Some (schedules r.2)
  ∧ timers r.2 !! 0%nat = Some {| fireAt := 5000; target := "0" |}.
Proof.
  cbn zeta. split; [by vm_compute|]. split; [by vm_compute|].
  split.
  { intros H. apply (f_equal size) in H. vm_compute in H. discriminate. }
  split; [by vm_compute|]. split; by vm_compute.
Qed.

Lemma scheduleBulk_custom_short_witness :
  let pattern := {| p_type := custom; p_startTime := Instant 5000; p_timezone := None;
                    p_interval := None; p_times := Some [Instant 5000] |} in
  let r := scheduleBulk [clip1; clip2] pattern fresh_start in
  let r1 := scheduleBulk [clip1] pattern fresh_start in
  r.1 = inl InsufficientTimes ∧ r.2 = r1.2
  ∧ schedules r.2 !! "0" = Some (new_schedule "0" clip1 5000 "UTC" 0).
Proof.
  intros pattern r r1.
  destruct (scheduleBulk_custom_short [clip1; clip2] pattern fresh_start)
    as (_ & Hstate & _ & _ & Hvalid & _).
  - reflexivity.
  - cbn. lia.
  - destruct Hvalid as (Herror & _ & Hkept).
    { intros t Ht. apply list_elem_of_singleton in Ht as ->.
      split; [reflexivity|]. exists 5000%Z. split; [reflexivity|]. vm_compute. reflexivity. }
    split; [exact Herror|]. split; [exact Hstate|].
    destruct (Hkept 0%nat clip1 (Instant 5000) 5000%Z) as [Hrecord _];
      [reflexivity | reflexivity | reflexivity | cbn; intros j Hj; lia | exact Hrecord].
Defined.

Lemma scheduleBulk_interval_witness :
  let pattern := {| p_type := interval; p_startTime := Instant 5000; p_timezone := None;
                    p_interval := Some 2%Z; p_times := None |} in
  let r := scheduleBulk [clip1; clip2; clip3] pattern fresh_start in
  r.1 = inr [ {| scheduleId := "0"; si_scheduledTime := 5000; si_status := scheduled |};
              {| scheduleId := "1"; si_scheduledTime := 7205000; si_status := scheduled |};
              {| scheduleId := "2"; si_scheduledTime := 14405000; si_status := scheduled |} ]
  ∧ size (schedules r.2) = 3%nat.
Proof.
  intros pattern r.
  destruct (scheduleBulk_interval None 0 0 [] [] [clip1; clip2; clip3] pattern 5000 2)
    as (_ & Hresults & _ & _ & _ & Hsize & _).
  - apply serial_inj.
  - intros scheduleId Hin. cbn in Hin. rewrite lookup_empty in Hin. by destruct Hin.
  - reflexivity.
  - reflexivity.
  - reflexivity.
  - vm_compute. reflexivity.
  - lia.
  - intros i Hi. destruct i as [|[|[|i]]]; [by vm_compute..|cbn in Hi; lia].
  - split; [exact Hresults | exact Hsize].
Defined.

Lemma scheduleBulk_interval_absent_witness :
  let pattern := {| p_type := interval; p_startTime := Instant 5000; p_timezone := None;
                    p_interval := None; p_times := None |} in
  let r := scheduleBulk [clip1; clip2] pattern fresh_start in
  r.1 = inr [ {| scheduleId := "0"; si_scheduledTime := 5000; si_status := scheduled |};
              {| scheduleId := "1"; si_scheduledTime := 5000; si_status := scheduled |} ].
Proof.
  intros pattern r.
  destruct (scheduleBulk_interval_absent [clip1; clip2] pattern 5000 fresh_start)
    as (Hresults & _).
  - reflexivity.
  - reflexivity.
  - reflexivity.
  - vm_compute. reflexivity.
  - exact Hresults.
Defined.

Lemma executeUpload_transitions_witness :
  let w := set_now 1000 one_scheduled in
  ∃ k w1 w2,
    fire 0 w = (inr (Some k), w1)
    ∧ status <$> schedules w1 !! "0" = Some executing
    ∧ submitted w1 = [("0", clip1)]
    ∧ settle k queued w1 = (inr tt, w2)
    ∧ status <$> schedules w2 !! "0" = Some completed
    ∧ result <$> schedules w2 !! "0" = Some (Some {| jobId := "41"; ji_status := "queued" |})
    ∧ disk w2 = Some (schedules w2).
Proof.
  intros w.
  destruct (executeUpload_transitions 0 {| fireAt := 1000; target := "0" |}
              (new_schedule "0" clip1 1000 "UTC" 0) queued w)
    as (k & w1 & w2 & Hfire & Hs1 & _ & Hsub & _ & Hsettle & Hs2 & Hfields & Hdisk & _).
  - by vm_compute.
  - vm_compute. discriminate.
  - by vm_compute.
  - reflexivity.
  - exists k, w1, w2. cbn [target] in *.
    split; [done|]. split; [by rewrite Hs1|]. split; [done|].
    split; [done|]. split; [by rewrite Hs2|]. split; [|done].
    destruct Hfields as (d1 & d2 & _ & Hd2 & _ & _ & _ & _ & Hrecorded).
    cbn in Hrecorded. destruct Hrecorded as (_ & Hresult & _).
    rewrite Hd2. cbn. by rewrite Hresult.
Defined.

Lemma boot_rearms_future_only_witness :
  let due := new_schedule "a" clip1 5000 "UTC" 100 in
  let missed := new_schedule "b" clip2 500 "UTC" 100 in
  let file : gmap string Schedule := <["a" := due]> (<["b" := missed]> ∅) in
  let w := boot (Some file) 1000 2 [] in
  (∃ h, jobs w !! "a" = Some (Some h)
        ∧ timers w !! h = Some {| fireAt := 5000; target := "a" |})
  ∧ schedules w !! "b" = Some missed
  ∧ jobs w !! "b" = None
  ∧ live_timers "b" w = ∅.
Proof.
  intros due missed file w.
  destruct (boot_rearms_future_only file 1000 2 [] "a" due) as (_ & _ & Hfuture & _).
  - by vm_compute.
  - reflexivity.
  - destruct (boot_rearms_future_only file 1000 2 [] "b" missed) as (_ & _ & _ & Hpast).
    + by vm_compute.
    + reflexivity.
    + split.
      * destruct Hfuture as (h & Hj & Ht & _); [vm_compute; reflexivity|]. by exists h.
      * apply Hpast. vm_compute. discriminate.
Defined.

(** C4, as stated, fails, in two ways.
    First way: the Schedule is rescheduled while its first execution is
    awaiting the job queue; when that execution completes it forgets the
    new timer without disarming it.  Rescheduled once more the Schedule is
    in status [scheduled] with two pending invocations; [cancelSchedule]
    disarms the registered one, and the other one fires and submits.
    Second way: a cancelled Schedule that is rescheduled fires again. *)
Lemma cancelled_schedule_fires_again :
  let w := run
             [ CallScheduleUpload clip1 (Instant 1000) None;
               Tick 1000; Fire 0;
               CallReschedule "0" (Instant 2000) None;
               Settle 0 queued;
               CallReschedule "0" (Instant 3000) None ] fresh_start in
  let stopped := (cancelSchedule "0" w).2 in
  let later := run [Tick 2000; Fire 1] stopped in
  let again := run
                 [ CallCancelSchedule "0";
                   CallReschedule "0" (Instant 2000) None;
                   Tick 2000; Fire 1 ] one_scheduled in
  (status <$> schedules w !! "0" = Some scheduled
   ∧ status <$> schedules stopped !! "0" = Some cancelled
   ∧ submissions_of "0" stopped = [clip1]
   ∧ submissions_of "0" later = [clip1; clip1])
  ∧ (status <$> schedules one_scheduled !! "0" = Some scheduled
     ∧ submissions_of "0" one_scheduled = []
     ∧ submissions_of "0" again = [clip1]).
Proof. cbn zeta. repeat split; by vm_compute. Qed.

Lemma cancelSchedule_final_witness :
  let events := [ Tick 2000; Fire 0; CallScheduleUpload clip2 (Instant 9000) None;
                  Restart; Tick 10000; Fire 0 ] in
  let r := cancelSchedule "0" (set_now 400 one_scheduled) in
  status <$> schedules r.2 !! "0" = Some cancelled
  ∧ cancelledAt <$> schedules r.2 !! "0" = Some (Some 400%Z)
  ∧ submissions_of "0" (run events r.2) = []
  ∧ live_timers "0" (run events r.2) = ∅.
Proof.
  intros events r.
  destruct (cancelSchedule_final "0"
              (new_schedule "0" clip1 1000 "UTC" 0) (set_now 400 one_scheduled) events)
    as (_ & Hstore & Hfields & _ & _ & _ & _ & Hsub & Htimers).
  - by vm_compute.
  - reflexivity.
  - rewrite one_scheduled_armed. cbn.
    change (next_handle fresh_start) with 0%nat.
    change (timers fresh_start) with (∅ : gmap nat Timer).
    change (uuid (uuids fresh_start)) with "0".
    intros h t. rewrite lookup_insert. case_decide; [subst h|by rewrite lookup_empty].
    intros _ _. apply lookup_insert_eq.
  - rewrite one_scheduled_armed. cbn.
    change (uuids fresh_start) with 0%nat. intros n Hn Heq.
    apply (serial_inj n 0) in Heq. lia.
  - repeat constructor; cbn; tauto.
  - split; [subst r; by rewrite Hstore|].
    split.
    { destruct Hfields as (d' & Hd' & _ & Hat & _). subst r.
      rewrite Hd'. cbn [fmap option_fmap option_map]. rewrite Hat. reflexivity. }
    split; [|exact Htimers].
    subst r. rewrite Hsub. by vm_compute.
Defined.

End SchedulerFacts.

(** ** The store of the scheduler: the file, the queries, cleaning and
    rescheduling *)

Module SchedulerStoreFacts.

Import Exc Scheduler SchedulerFacts.

Section Store.

Context {env : Env}.

(** *** The file follows the store *)

Lemma scheduleUpload_mirrored uploadData scheduledTime timezone w :
  mirrored w -> mirrored (scheduleUpload uploadData scheduledTime timezone w).2.
Proof.
  intros Hm.
  destruct (moment_tz scheduledTime (default "UTC" timezone)) as [date|] eqn:Hdate.
  - destruct (decide (date ≤ now w)%Z) as [Hpast|Hfuture].
    + by rewrite (scheduleUpload_past _ _ _ _ _ Hdate Hpast).
    + rewrite (scheduleUpload_future _ _ _ _ _ Hdate) by lia. by left.
  - by rewrite (scheduleUpload_invalid _ _ _ _ Hdate).
Qed.

Lemma bulk_from_mirrored pattern startDate timezone index uploads w :
  mirrored w -> mirrored (bulk_from pattern startDate timezone index uploads w).2.
Proof.
  revert index w. induction uploads as [|u rest IH]; intros index w Hm; [done|].
  rewrite bulk_from_cons. destruct (bulk_time _ _ _ _) as [e|t]; [done|].
  pose proof (scheduleUpload_mirrored u (moment_toISOString t) (Some timezone) w Hm) as H1.
  destruct (scheduleUpload _ _ _ _) as [[e|result] w1]; [done|]. cbn in H1.
  specialize (IH (S index) w1 H1).
  by destruct (bulk_from _ _ _ _ _ _) as [[e|results] w2].
Qed.

Lemma cancelSchedule_mirrored scheduleId w :
  mirrored w -> mirrored (cancelSchedule scheduleId w).2.
Proof.
  intros Hm. destruct (schedules w !! scheduleId) as [d|] eqn:Hd.
  - rewrite (cancelSchedule_found _ _ _ Hd). cbn zeta.
    destruct (jobs w !! scheduleId) as [[job|]|]; by left.
  - rewrite (cancelSchedule_missing _ _ Hd).
    by destruct (jobs w !! scheduleId) as [[job|]|].
Qed.

Lemma cancel_registered_store scheduleId w :
  schedules (cancel_registered scheduleId w) = schedules w
  ∧ disk (cancel_registered scheduleId w) = disk w
  ∧ jobs (cancel_registered scheduleId w) = jobs w.
Proof. unfold cancel_registered. by destruct (jobs w !! scheduleId) as [[job|]|]. Qed.

Lemma reschedule_mirrored scheduleId newTime timezone w :
  mirrored w -> mirrored (reschedule scheduleId newTime timezone w).2.
Proof.
  intros Hm. destruct (schedules w !! scheduleId) as [d|] eqn:Hd.
  - rewrite (reschedule_found _ _ _ _ _ Hd). cbn zeta.
    destruct (moment_tz newTime (default "UTC" timezone)) as [date|].
    + cbn [snd]. case_bool_decide; by left.
    + destruct (cancel_registered_store scheduleId w) as (Hs & Hf & _).
      unfold mirrored. cbn [snd]. by rewrite Hs, Hf.
  - by rewrite (reschedule_missing _ _ _ _ Hd).
Qed.

Lemma nothing_stale cutoffDate (store : gmap string Schedule) :
  size (filter (stale cutoffDate) store) = 0%nat ->
  filter (λ entry, ¬ stale cutoffDate entry) store = store.
Proof.
  intros Hsize. apply map_size_empty_inv in Hsize.
  apply map_filter_id. intros scheduleId d Hd Hstale.
  assert (filter (stale cutoffDate) store !! scheduleId = Some d) as Hin
    by by apply map_lookup_filter_Some.
  by rewrite Hsize, lookup_empty in Hin.
Qed.

Lemma cleanOldSchedules_mirrored daysOld w :
  mirrored w -> mirrored (cleanOldSchedules daysOld w).2.
Proof.
  intros Hm. unfold cleanOldSchedules. unfold_m. cbn.
  case_bool_decide as Hcleaned; cbn; [by left|].
  unfold mirrored. cbn. rewrite nothing_stale by lia. exact Hm.
Qed.

Lemma fire_mirrored h w : mirrored w -> mirrored (fire h w).2.
Proof.
  intros Hm. destruct (timers w !! h) as [t|] eqn:Hh.
  - destruct (decide (fireAt t ≤ now w)%Z) as [Hdue|Hnot].
    + destruct (schedules w !! target t) as [d|] eqn:Hd.
      * rewrite (fire_due _ _ _ _ Hh Hdue Hd). by left.
      * unfold fire, executeUpload_begin. unfold_m. cbn. rewrite Hh.
        rewrite bool_decide_true by done. cbn. by rewrite Hd.
    + unfold fire. unfold_m. cbn. rewrite Hh. by rewrite bool_decide_false.
  - unfold fire. unfold_m. cbn. by rewrite Hh.
Qed.

Lemma settle_mirrored k outcome w : mirrored w -> mirrored (settle k outcome w).2.
Proof.
  intros Hm. destruct (awaiting w !! k) as [scheduleId|] eqn:Hk.
  - rewrite (settle_waiting _ _ _ _ Hk). by left.
  - unfold settle. unfold_m. cbn. by rewrite Hk.
Qed.

Lemma boot_mirrored file current drawn history :
  mirrored (boot file current drawn history).
Proof.
  destruct (boot_store file current drawn history) as (Hs & Hd & _).
  unfold mirrored. rewrite Hs, Hd. destruct file; [by left|by right].
Qed.

Lemma step_mirrored e w : mirrored w -> mirrored (step e w).
Proof.
  intros Hm. destruct e; cbn [step].
  - by apply scheduleUpload_mirrored.
  - by apply bulk_from_mirrored.
  - by apply cancelSchedule_mirrored.
  - by apply reschedule_mirrored.
  - by apply cleanOldSchedules_mirrored.
  - by apply fire_mirrored.
  - by apply settle_mirrored.
  - exact Hm.
  - apply boot_mirrored.
Qed.

Lemma run_mirrored events w : mirrored w -> mirrored (run events w).
Proof.
  revert w. induction events as [|e events IH]; intros w Hm; [done|].
  change (run (e :: events) w) with (run events (step e w)).
  by apply IH, step_mirrored.
Qed.

(** X1: whatever happens to a scheduler after its process has started
    (calls of its interface, timers coming due, submissions settling, time
    passing, earlier restarts), the file holds exactly the records of the
    store, the writes to the file being taken to succeed; so a restart at
    that moment brings back every record as it was. *)
Theorem restart_recovers_store file current drawn history events :
  let w := run events (boot file current drawn history) in
  mirrored w
  ∧ schedules (step Restart w) = schedules w
  ∧ disk (step Restart w) = disk w.
Proof.
  intros w.
  assert (Hm : mirrored w) by apply run_mirrored, boot_mirrored.
  split; [done|]. cbn [step].
  destruct (boot_store (disk w) (now w) (uuids w) (submitted w)) as (Hs & Hd & _).
  rewrite Hs, Hd. split; [|done].
  by destruct Hm as [-> | [-> ->]].
Qed.

(** *** The upcoming uploads *)

Lemma insert_by_time_perm x l : insert_by_time x l ≡ₚ x :: l.
Proof.
  induction l as [|y l IH]; cbn; [done|]. case_decide; [done|].
  rewrite IH. apply Permutation_swap.
Qed.

Lemma sort_by_time_perm l : sort_by_time l ≡ₚ l.
Proof.
  induction l as [|x l IH]; cbn; [done|].
  by rewrite insert_by_time_perm, IH.
Qed.

Lemma insert_by_time_sorted x l :
  StronglySorted earlier l -> StronglySorted earlier (insert_by_time x l).
Proof.
  induction l as [|y l IH]; intros Hs; cbn.
  - repeat constructor.
  - apply StronglySorted_cons in Hs as [Hall Hs]. case_decide as Hxy.
    + apply StronglySorted_cons. split; [|by apply StronglySorted_cons].
      constructor; [done|]. eapply Forall_impl; [exact Hall|].
      intros z Hyz. unfold earlier in *. lia.
    + apply StronglySorted_cons. split; [|by apply IH].
      rewrite insert_by_time_perm. constructor; [unfold earlier in *; lia|done].
Qed.

Lemma sort_by_time_sorted l : StronglySorted earlier (sort_by_time l).
Proof.
  induction l as [|x l IH]; cbn; [constructor|]. by apply insert_by_time_sorted.
Qed.

Lemma insert_by_time_at_time t x l :
  at_time t (insert_by_time x l) = at_time t (x :: l).
Proof.
  unfold at_time. induction l as [|y l IH]; cbn [insert_by_time]; [done|].
  case_decide as Hxy; [done|].
  rewrite (filter_cons _ y (insert_by_time x l)), IH.
  rewrite (filter_cons _ x (y :: l)), (filter_cons _ x l), (filter_cons _ y l).
  unfold earlier in Hxy. repeat case_decide; try done. lia.
Qed.

Lemma sort_by_time_at_time t l : at_time t (sort_by_time l) = at_time t l.
Proof.
  induction l as [|x l IH]; [done|].
  change (sort_by_time (x :: l)) with (insert_by_time x (sort_by_time l)).
  rewrite insert_by_time_at_time. unfold at_time in *.
  by rewrite !filter_cons, IH.
Qed.

(** X2: [getUpcoming] neither throws nor changes anything.  [values]
    being the records of the store as the [Map] lists them, what it returns
    is the beginning of the list of all records that are in status
    [scheduled] with a time still ahead, sorted by time, records with the
    same time staying in the order the [Map] has them: every record
    returned is such a record of the store, no record left out is due before
    a returned one, and for a limit that is not negative the number returned
    is the limit (10 when none is given) or the number of such records, if
    that is smaller; a negative limit drops that many records from the late
    end instead. *)
Theorem getUpcoming_earliest_first values limit w :
  lists_store values w ->
  ∃ result rest,
    getUpcoming values limit w = (inr result, w)
    ∧ result ++ rest ≡ₚ filter (upcoming (now w)) values
    ∧ StronglySorted earlier (result ++ rest)
    ∧ (∀ t, at_time t (result ++ rest) = at_time t (filter (upcoming (now w)) values))
    ∧ (∀ s, s ∈ result ->
         status s = scheduled ∧ (now w < scheduledTime s)%Z
         ∧ ∃ scheduleId, schedules w !! scheduleId = Some s)
    ∧ (∀ a b, a ∈ result -> b ∈ rest -> (scheduledTime a ≤ scheduledTime b)%Z)
    ∧ ((0 ≤ default 10%Z limit)%Z ->
         length result = Z.to_nat (default 10%Z limit) `min` length (result ++ rest))
    ∧ ((default 10%Z limit < 0)%Z ->
         length result = (length (result ++ rest) - Z.to_nat (- default 10%Z limit))%nat).
Proof.
  intros Hvalues.
  set (all := sort_by_time (filter (upcoming (now w)) values)).
  set (n := if bool_decide (default 10%Z limit < 0)%Z
            then Z.to_nat (Z.max (Z.of_nat (length all) + default 10%Z limit) 0)
            else Z.to_nat (default 10%Z limit)).
  assert (Hslice : slice_to (default 10%Z limit) all = take n all).
  { unfold slice_to, n. by case_bool_decide. }
  exists (take n all), (drop n all). rewrite take_drop.
  assert (Hperm : all ≡ₚ filter (upcoming (now w)) values)
    by apply sort_by_time_perm.
  assert (Hsorted : StronglySorted earlier all) by apply sort_by_time_sorted.
  split. { unfold getUpcoming. unfold_m. cbn. fold all. by rewrite Hslice. }
  split; [done|]. split; [done|].
  split; [intros t; apply sort_by_time_at_time|].
  split; [|split; [|split]].
  - intros s Hs. apply elem_of_take in Hs as (i & Hs & _).
    apply list_elem_of_lookup_2 in Hs. rewrite Hperm in Hs.
    apply list_elem_of_filter in Hs as [[Hst Ht] Hin].
    split; [done|]. split; [done|].
    unfold lists_store in Hvalues. rewrite Hvalues in Hin.
    apply list_elem_of_fmap in Hin as ([scheduleId s'] & -> & Hin).
    exists scheduleId. by apply elem_of_map_to_list.
  - intros a b Ha Hb. rewrite <- (take_drop n all) in Hsorted.
    by apply (StronglySorted_app_1_elem_of earlier _ _ a b Hsorted).
  - intros Hpos. rewrite length_take. unfold n. rewrite bool_decide_false by lia. done.
  - intros Hneg. rewrite length_take. unfold n. rewrite bool_decide_true by lia. lia.
Qed.

(** *** Cleaning *)

(** X3: [cleanOldSchedules] never throws.  It removes exactly the records
    that are not in status [scheduled] and were created before the cut-off
    date, and returns how many these were; every other record stays as it
    is, so a record in status [scheduled] is never removed, however old.
    The timer table and the pending timers are left alone, and when
    nothing is removed the scheduler is exactly as before. *)
Theorem cleanOldSchedules_removes_only_stale daysOld w :
  let r := cleanOldSchedules daysOld w in
  let cutoffDate := days_ago (now w) daysOld in
  ∃ cleaned,
    r.1 = inr cleaned
    ∧ (size (schedules r.2) + cleaned = size (schedules w))%nat
    ∧ (∀ scheduleId d,
         schedules r.2 !! scheduleId = Some d
         ↔ schedules w !! scheduleId = Some d
           ∧ (status d = scheduled ∨ (cutoffDate ≤ createdAt d)%Z))
    ∧ jobs r.2 = jobs w
    ∧ timers r.2 = timers w
    ∧ submitted r.2 = submitted w
    ∧ (cleaned = 0%nat -> r.2 = w).
Proof.
  intros r cutoffDate.
  exists (size (filter (stale cutoffDate) (schedules w))).
  assert (Hstore : schedules r.2 = filter (λ entry, ¬ stale cutoffDate entry) (schedules w)
                   ∧ jobs r.2 = jobs w ∧ timers r.2 = timers w ∧ submitted r.2 = submitted w
                   ∧ r.1 = inr (size (filter (stale cutoffDate) (schedules w)))).
  { subst r. unfold cleanOldSchedules. unfold_m. cbn. fold cutoffDate.
    by case_bool_decide. }
  destruct Hstore as (Hs & Hj & Ht & Hsub & Hr).
  split; [done|]. split; [|split; [|split; [|split; [|split]]]]; try done.
  - rewrite Hs.
    rewrite <- (map_filter_union_complement (stale cutoffDate) (schedules w)) at 3.
    rewrite map_size_disj_union by apply map_disjoint_filter_complement. lia.
  - intros scheduleId d. rewrite Hs, map_lookup_filter_Some. unfold stale. cbn.
    split; intros [Hd Hkeep]; (split; [done|]).
    + destruct (decide (status d = scheduled)); [by left|right].
      destruct (decide (cutoffDate ≤ createdAt d)%Z); [done|].
      exfalso. apply Hkeep. split; [done|lia].
    + intros [Hst Hold]. destruct Hkeep; [done|lia].
  - intros Hzero. subst r. unfold cleanOldSchedules. unfold_m. cbn. fold cutoffDate.
    rewrite bool_decide_false by lia. cbn. unfold set_schedules.
    rewrite nothing_stale by done. by destruct w.
Qed.

(** *** Rescheduling *)

(** X4: [reschedule] looks neither at the status of the record nor at the
    clock.  For a known identifier and a time that can be read it succeeds:
    the record gets the new time and zone and is in status [scheduled]
    again, whatever it was before (also [completed] or [cancelled]); its
    identifier, its upload and its creation time stay.  The file is saved
    and no other record changes.  When the new time is not
    in the past a timer is armed for it and registered; when it is in the
    past the call still succeeds, but no timer is armed and none that was
    not pending before is pending afterwards. *)
Theorem reschedule_rearms_any_record scheduleId newTime timezone d date w :
  schedules w !! scheduleId = Some d ->
  moment_tz newTime (default "UTC" timezone) = Some date ->
  let r := reschedule scheduleId newTime timezone w in
  r.1 = inr {| scheduleId := scheduleId; si_scheduledTime := date; si_status := scheduled |}
  ∧ schedules r.2 !! scheduleId
    = Some (with_status scheduled (with_time date (default "UTC" timezone) d))
  ∧ (∃ d', schedules r.2 !! scheduleId = Some d'
           ∧ scheduledTime d' = date
           ∧ Scheduler.timezone d' = default "UTC" timezone
           ∧ status d' = scheduled
           ∧ id d' = id d
           ∧ uploadData d' = uploadData d
           ∧ createdAt d' = createdAt d)
  ∧ (∀ other, other ≠ scheduleId -> schedules r.2 !! other = schedules w !! other)
  ∧ disk r.2 = Some (schedules r.2)
  ∧ ((now w ≤ date)%Z ->
       jobs r.2 !! scheduleId = Some (Some (next_handle w))
       ∧ timers r.2 !! next_handle w = Some {| fireAt := date; target := scheduleId |})
  ∧ ((date < now w)%Z ->
       jobs r.2 !! scheduleId = Some None
       ∧ ∀ h t, timers r.2 !! h = Some t -> timers w !! h = Some t).
Proof.
  intros Hfound Hdate r. subst r.
  rewrite (reschedule_found _ _ _ _ _ Hfound), Hdate. cbn zeta.
  assert (Hold : ∀ h t, timers (cancel_registered scheduleId w) !! h = Some t ->
                        timers w !! h = Some t).
  { intros h t. unfold cancel_registered.
    destruct (jobs w !! scheduleId) as [[job|]|]; [|done|done].
    cbn. rewrite lookup_delete. by case_decide. }
  case_bool_decide as Hcmp; cbn.
  - split; [done|]. split; [by rewrite !lookup_alter_eq, Hfound|].
    split; [eexists; by rewrite !lookup_alter_eq, Hfound|].
    split; [intros other Hne; by rewrite !lookup_alter_ne|].
    split; [done|]. split; [|lia].
    intros _. by rewrite !lookup_insert_eq.
  - split; [done|]. split; [by rewrite !lookup_alter_eq, Hfound|].
    split; [eexists; by rewrite !lookup_alter_eq, Hfound|].
    split; [intros other Hne; by rewrite !lookup_alter_ne|].
    split; [done|]. split; [lia|].
    intros _. by rewrite lookup_insert_eq.
Qed.

(** X5: a call of [reschedule] with a time that cannot be read throws
    [InvalidDate] after the timer registered for the Schedule has been
    cancelled.  The record and the file are as before, so a Schedule that
    was in status [scheduled] still is, with its old time, but the timer
    that would have executed it is gone. *)
Theorem reschedule_unreadable_time_disarms scheduleId newTime timezone d h w :
  schedules w !! scheduleId = Some d ->
  jobs w !! scheduleId = Some (Some h) ->
  moment_tz newTime (default "UTC" timezone) = None ->
  let r := reschedule scheduleId newTime timezone w in
  r.1 = inl InvalidDate
  ∧ schedules r.2 = schedules w
  ∧ disk r.2 = disk w
  ∧ jobs r.2 = jobs w
  ∧ timers r.2 = delete h (timers w)
  ∧ timers r.2 !! h = None.
Proof.
  intros Hfound Hjob Hdate r. subst r.
  rewrite (reschedule_found _ _ _ _ _ Hfound), Hdate. cbn zeta.
  unfold cancel_registered. rewrite Hjob. cbn.
  repeat split. apply lookup_delete_eq.
Qed.

(** X6: rescheduling makes a Schedule run again.  After [reschedule] to a
    time that is not in the past, once that time has come and the new
    timer fires, the upload of the Schedule is handed to the job queue,
    also when the Schedule had been completed before: its upload is then
    submitted a second time. *)
Theorem rescheduled_upload_is_submitted_again scheduleId newTime timezone d date w :
  schedules w !! scheduleId = Some d ->
  moment_tz newTime (default "UTC" timezone) = Some date ->
  (now w ≤ date)%Z ->
  let w1 := step (CallReschedule scheduleId newTime timezone) w in
  let w2 := run [Tick date; Fire (next_handle w)] w1 in
  submitted w1 = submitted w
  ∧ submitted w2 = submitted w ++ [(scheduleId, uploadData d)]
  ∧ schedules w2 !! scheduleId
    = Some (with_status executing
              (with_status scheduled (with_time date (default "UTC" timezone) d))).
Proof.
  intros Hfound Hdate Hle w1 w2. subst w2 w1. cbn [run foldl step].
  rewrite (reschedule_found _ _ _ _ _ Hfound), Hdate. cbn zeta.
  rewrite bool_decide_true by done. cbn [snd].
  match goal with |- context [fire ?h ?w0] => set (w1 := w0) end.
  rewrite (fire_due (next_handle w) {| fireAt := date; target := scheduleId |}
             (with_status scheduled (with_time date (default "UTC" timezone) d)) w1).
  - cbn. split; [done|]. split; [done|]. by rewrite !lookup_alter_eq, Hfound.
  - cbn. apply lookup_insert_eq.
  - cbn. lia.
  - cbn. by rewrite !lookup_alter_eq, Hfound.
Qed.

(** *** Looking a Schedule up *)

(** X7: what [scheduleUpload] returns can be looked up.  After a call
    that returned, [getSchedule] of the returned identifier gives, without
    changing anything, a record with that identifier, the upload that was
    passed, the returned time (which is still ahead), the zone of the call
    and status [scheduled]. *)
Theorem scheduled_upload_can_be_looked_up data time zone info w w' :
  scheduleUpload data time zone w = (inr info, w') ->
  ∃ s, getSchedule (scheduleId info) w' = (inr s, w')
       ∧ id s = scheduleId info
       ∧ uploadData s = data
       ∧ scheduledTime s = si_scheduledTime info
       ∧ (now w < scheduledTime s)%Z
       ∧ timezone s = default "UTC" zone
       ∧ status s = scheduled
       ∧ si_status info = scheduled
       ∧ s ∈ (map_to_list (schedules w')).*2.
Proof.
  intros Hcall.
  destruct (moment_tz time (default "UTC" zone)) as [date|] eqn:Hdate.
  - destruct (decide (date ≤ now w)%Z) as [Hpast|Hfuture].
    + by rewrite (scheduleUpload_past _ _ _ _ _ Hdate Hpast) in Hcall.
    + rewrite (scheduleUpload_future _ _ _ _ _ Hdate) in Hcall by lia.
      injection Hcall as <- <-.
      exists (new_schedule (uuid (uuids w)) data date (default "UTC" zone) (now w)).
      assert (Hl : schedules (armed data date (default "UTC" zone) w) !! uuid (uuids w)
                   = Some (new_schedule (uuid (uuids w)) data date (default "UTC" zone) (now w))).
      { cbn. apply lookup_insert_eq. }
      split. { unfold getSchedule. unfold_m. cbn [scheduleId]. by rewrite Hl. }
      cbn [scheduleId si_scheduledTime si_status].
      repeat (split; [done || (cbn; lia)|]).
      apply list_elem_of_fmap. eexists (_, _). split; [|by apply elem_of_map_to_list]. done.
  - by rewrite (scheduleUpload_invalid _ _ _ _ Hdate) in Hcall.
Qed.

(** X8: an identifier that the scheduler does not know.  [getSchedule]
    and [reschedule] throw [NotFound]; [cancelSchedule] reports success all
    the same; the firing handler does nothing.  None of them changes the
    state. *)
Theorem unknown_schedule_id scheduleId w :
  schedules w !! scheduleId = None ->
  jobs w !! scheduleId = None ->
  getSchedule scheduleId w = (inl NotFound, w)
  ∧ (∀ newTime timezone, reschedule scheduleId newTime timezone w = (inl NotFound, w))
  ∧ cancelSchedule scheduleId w = (inr true, w)
  ∧ executeUpload_begin scheduleId w = (inr None, w).
Proof.
  intros Hnone Hjob. split; [|split; [|split]].
  - unfold getSchedule. unfold_m. by rewrite Hnone.
  - intros newTime timezone. by apply reschedule_missing.
  - by rewrite (cancelSchedule_missing _ _ Hnone), Hjob.
  - unfold executeUpload_begin. unfold_m. by rewrite Hnone.
Qed.

(** *** Bulk scheduling: the other patterns *)

(** X9: a pattern whose type is none of [interval], [daily] and [custom]
    is rejected with [InvalidPattern] before anything is scheduled, but only
    when there is an upload to schedule: for an empty list of uploads the
    pattern is not looked at and the result is the empty list.  The state
    is unchanged in both cases. *)
Theorem scheduleBulk_unknown_pattern uploads pattern name w :
  p_type pattern = other_type name ->
  scheduleBulk uploads pattern w
  = (match uploads with [] => inr [] | _ :: _ => inl InvalidPattern end, w).
Proof.
  intros Htype. unfold scheduleBulk. destruct uploads as [|u rest]; [done|].
  rewrite bulk_from_cons. unfold bulk_time. by rewrite Htype.
Qed.

Lemma add_days_movable zone ms (i : nat) :
  i = 0%nat ∨ movable_days zone ms (Z.of_nat i) ->
  add_days zone (Some ms) (Z.of_nat i) = inr (Some (daily_time zone ms i)).
Proof.
  intros Hmove. unfold add_days, daily_time. case_bool_decide as Hzero; [done|].
  rewrite bool_decide_true; [done|]. destruct Hmove; [lia|done].
Qed.

Lemma bulk_daily_run pattern start timezone uploads index w :
  p_type pattern = daily ->
  (∀ i, (index ≤ i < index + length uploads)%nat ->
        (now w < daily_time timezone start i)%Z
        ∧ (i = 0%nat ∨ movable_days timezone start (Z.of_nat i))) ->
  bulk_from pattern (Some start) timezone index uploads w
  = (inr (infos (daily_time timezone start) index (uuids w) uploads),
     armed_all timezone (daily_time timezone start) index uploads w).
Proof.
  intros Htype. revert index w.
  induction uploads as [|u rest IH]; intros index w Hfuture; [done|].
  rewrite bulk_from_cons. unfold bulk_time. rewrite Htype.
  destruct (Hfuture index) as [Hahead Hmove]; [cbn; lia|].
  rewrite (add_days_movable _ _ _ Hmove). cbn [moment_toISOString].
  rewrite (scheduleUpload_future _ _ _ (daily_time timezone start index)).
  - rewrite IH; [done|]. intros i Hi. cbn [now armed]. apply Hfuture. cbn. lia.
  - done.
  - done.
Qed.

(** X10: the [daily] pattern gives the upload at position [i] the time at
    which the clocks of the zone show, [i] days after the start, the time
    of day of the start; position 0 gets the start time itself.  When
    these times are all still ahead and within the range of [Date],
    [scheduleBulk] returns one Schedule per upload, in the order of the
    uploads, and the one at position [i] has a record with that time in
    status [scheduled] and a timer armed for that time.  When the time of
    the second upload is beyond the range of [Date], the call throws the
    [RangeError] with the first upload scheduled. *)
Theorem scheduleBulk_daily uploads pattern start w :
  p_type pattern = daily ->
  moment_tz (p_startTime pattern) (default "UTC" (p_timezone pattern)) = Some start ->
  (∀ i, (i < length uploads)%nat ->
        (now w < daily_time (default "UTC" (p_timezone pattern)) start i)%Z) ->
  (∀ i j, (i < j < length uploads)%nat -> uuid (uuids w + i) ≠ uuid (uuids w + j)) ->
  let r := scheduleBulk uploads pattern w in
  let timezone := default "UTC" (p_timezone pattern) in
  let time := daily_time timezone start in
  time 0%nat = start
  ∧ (∀ i, time (S i)
          = to_instant timezone (to_wall timezone start + Z.of_nat (S i) * 86400000)%Z)
  ∧ ((∀ i, (0 < i < length uploads)%nat -> movable_days timezone start (Z.of_nat i)) ->
       r.1 = inr (imap (λ i _, {| scheduleId := uuid (uuids w + i);
                                  si_scheduledTime := time i;
                                  si_status := scheduled |}) uploads)
       ∧ (∀ i upload, uploads !! i = Some upload ->
            schedules r.2 !! uuid (uuids w + i)
            = Some (new_schedule (uuid (uuids w + i)) upload (time i) timezone (now w))
            ∧ ∃ h, jobs r.2 !! uuid (uuids w + i) = Some (Some h)
                   ∧ timers r.2 !! h
                     = Some {| fireAt := time i; target := uuid (uuids w + i) |}))
  ∧ (∀ first second rest, uploads = first :: second :: rest ->
       ¬ movable_days timezone start 1 ->
       r = (inl InvalidDate, armed first start timezone w)).
Proof.
  intros Htype Hstart Hfuture Hdistinct r timezone time.
  split; [done|]. split.
  { intros i. unfold time, daily_time. by rewrite bool_decide_false by lia. }
  split.
  - intros Hrange. subst r. unfold scheduleBulk.
    rewrite Hstart, bulk_daily_run; [|done|].
    + cbn [fst snd]. split; [by rewrite infos_imap|].
      intros i upload Hi.
      destruct (armed_all_lookup timezone time 0 uploads w i upload Hi) as (Hs & Hj & Ht).
      { intros j Hj Heq. apply (Hdistinct i j); [lia|done]. }
      cbn in Hs, Hj, Ht. split; [done|]. by eexists.
    + intros i Hi. split; [apply Hfuture; lia|].
      destruct i as [|i]; [by left|right]. apply Hrange. lia.
  - intros first second rest -> Hout. subst r. unfold scheduleBulk.
    rewrite Hstart, bulk_from_cons. unfold bulk_time at 1. rewrite Htype.
    rewrite (add_days_movable _ start 0) by by left. cbn [moment_toISOString].
    rewrite (scheduleUpload_future _ _ _ start); [|done|].
    + rewrite bulk_from_cons. unfold bulk_time. rewrite Htype.
      unfold add_days. rewrite bool_decide_false by done.
      by rewrite bool_decide_false by done.
    + apply (Hfuture 0%nat). cbn. lia.
Qed.

End Store.

(** *** The routes of the scheduler *)

Section Routes.

Context {env : Env}.

Import SchedulerRoutes.

Lemma cancelSchedule_returns scheduleId w : (cancelSchedule scheduleId w).1 = inr true.
Proof.
  destruct (schedules w !! scheduleId) as [d|] eqn:Hd.
  - by rewrite (cancelSchedule_found _ _ _ Hd).
  - by rewrite (cancelSchedule_missing _ _ Hd).
Qed.

(** X11: [DELETE /:scheduleId] never answers 404.  Whatever the
    identifier, known or not, and whatever the state of the Schedule, the
    response is 200 with [{ success: true }], because [cancelSchedule] never
    throws; the state is the one [cancelSchedule] leaves. *)
Theorem delete_route_always_succeeds scheduleId w :
  delete_schedule scheduleId w
  = ({| statusCode := 200; body := OfSuccess true |}, (cancelSchedule scheduleId w).2).
Proof.
  unfold delete_schedule, respond.
  pose proof (cancelSchedule_returns scheduleId w) as Hr.
  destruct (cancelSchedule scheduleId w) as [[e|b] w']; cbn in *; congruence.
Qed.

(** [GET /:scheduleId] answers 200 with the record when the store holds
    one under the identifier, and 404 with the message of [NotFound] when it
    does not; it changes nothing. *)
Lemma get_route_not_found_iff scheduleId w :
  get_schedule scheduleId w
  = (match schedules w !! scheduleId with
     | Some s => {| statusCode := 200; body := OfSchedule s |}
     | None => {| statusCode := 404; body := OfError "Schedule not found" |}
     end, w).
Proof.
  unfold get_schedule, respond, getSchedule. unfold_m.
  by destruct (schedules w !! scheduleId).
Qed.

(** X12: [POST /schedule].  A request that fails validation is answered
    with 400 and nothing happens.  A valid request whose time is not
    strictly ahead is answered with 500 and the message of [InvalidTime];
    no record is stored and no timer armed.  A valid request whose time is
    ahead is answered with 200 and the new Schedule, which [GET] then
    finds. *)
Theorem post_route_answers data time zone date w :
  moment_tz time (default "UTC" zone) = Some date ->
  post_schedule false data time zone w
  = ({| statusCode := 400; body := OfValidationErrors |}, w)
  ∧ ((date ≤ now w)%Z ->
       let r := post_schedule true data time zone w in
       r.1 = {| statusCode := 500; body := OfError "Scheduled time must be in the future" |}
       ∧ schedules r.2 = schedules w ∧ timers r.2 = timers w ∧ disk r.2 = disk w)
  ∧ ((now w < date)%Z ->
       let r := post_schedule true data time zone w in
       let info := {| scheduleId := uuid (uuids w); si_scheduledTime := date;
                      si_status := scheduled |} in
       r.1 = {| statusCode := 200; body := OfScheduleInfo info |}
       ∧ (get_schedule (uuid (uuids w)) r.2).1
         = {| statusCode := 200;
              body := OfSchedule (new_schedule (uuid (uuids w)) data date
                                    (default "UTC" zone) (now w)) |}).
Proof.
  intros Hdate. split; [done|]. split.
  - intros Hpast r. subst r. unfold post_schedule, validated, respond.
    by rewrite (scheduleUpload_past _ _ _ _ _ Hdate Hpast).
  - intros Hfuture r info. subst r. unfold post_schedule, validated, respond.
    rewrite (scheduleUpload_future _ _ _ _ _ Hdate Hfuture). cbn [fst snd].
    split; [done|]. rewrite get_route_not_found_iff. cbn [fst schedules armed].
    by rewrite lookup_insert_eq.
Qed.

End Routes.

(** *** Runs in a concrete environment *)

#[local] Existing Instance numbered_utc.

Lemma getUpcoming_earliest_first_witness :
  let pattern := {| p_type := interval; p_startTime := Instant 5000; p_timezone := None;
                    p_interval := None; p_times := None |} in
  let w := (scheduleBulk [clip1; clip2] pattern fresh_start).2 in
  let first := new_schedule "0" clip1 5000 "UTC" 0 in
  let second := new_schedule "1" clip2 5000 "UTC" 0 in
  ∃ result rest,
    getUpcoming [first; second] (Some 1%Z) w = (inr result, w)
    ∧ at_time 5000 (result ++ rest) = [first; second].
Proof.
  intros pattern w first second.
  destruct (getUpcoming_earliest_first [first; second] (Some 1%Z) w)
    as (result & rest & Hcall & _ & _ & Horder & _).
  - unfold lists_store. vm_compute. first [reflexivity | apply Permutation_swap].
  - exists result, rest. split; [exact Hcall|]. rewrite Horder. by vm_compute.
Defined.

Lemma reschedule_rearms_any_record_witness :
  let r := reschedule "0" (Instant 5000) (Some "Europe/Paris") one_scheduled in
  r.1 = inr {| scheduleId := "0"; si_scheduledTime := 5000; si_status := scheduled |}
  ∧ scheduledTime <$> schedules r.2 !! "0" = Some 5000%Z
  ∧ timezone <$> schedules r.2 !! "0" = Some "Europe/Paris"
  ∧ jobs r.2 !! "0" = Some (Some (next_handle one_scheduled)).
Proof.
  intros r.
  destruct (reschedule_rearms_any_record "0" (Instant 5000) (Some "Europe/Paris")
              (new_schedule "0" clip1 1000 "UTC" 0) 5000 one_scheduled)
    as (H1 & _ & (d' & Hd' & Htime & Hzone & _) & _ & _ & H2 & _).
  - by vm_compute.
  - reflexivity.
  - split; [exact H1|]. fold r in Hd'. rewrite Hd'. cbn [fmap option_fmap option_map].
    rewrite Htime, Hzone. split; [done|]. split; [done|].
    apply H2. vm_compute. discriminate.
Defined.

Lemma reschedule_unreadable_time_disarms_witness :
  let r := reschedule "0" Unparseable None one_scheduled in
  r.1 = inl InvalidDate ∧ timers r.2 !! 0%nat = None
  ∧ status <$> schedules r.2 !! "0" = Some scheduled.
Proof.
  intros r.
  destruct (reschedule_unreadable_time_disarms "0" Unparseable None
              (new_schedule "0" clip1 1000 "UTC" 0) 0 one_scheduled)
    as (H1 & H2 & _ & _ & _ & H3).
  - by vm_compute.
  - by vm_compute.
  - reflexivity.
  - split; [exact H1|]. split; [exact H3|]. fold r in H2. rewrite H2. by vm_compute.
Defined.

Lemma rescheduled_upload_is_submitted_again_witness :
  let w := run [Tick 1000; Fire 0; Settle 0 queued] one_scheduled in
  let w1 := step (CallReschedule "0" (Instant 5000) None) w in
  let w2 := run [Tick 5000; Fire (next_handle w)] w1 in
  status <$> schedules w !! "0" = Some completed
  ∧ submitted w2 = submitted w ++ [("0", clip1)].
Proof.
  intros w w1 w2.
  destruct (rescheduled_upload_is_submitted_again "0" (Instant 5000) None
              (conclude queued 1000
                 (with_status executing (new_schedule "0" clip1 1000 "UTC" 0)))
              5000 w)
    as (_ & H2 & _).
  - by vm_compute.
  - reflexivity.
  - vm_compute. discriminate.
  - split; [by vm_compute|]. exact H2.
Defined.

Lemma scheduled_upload_can_be_looked_up_witness :
  ∃ s, getSchedule "0" one_scheduled = (inr s, one_scheduled)
       ∧ uploadData s = clip1 ∧ scheduledTime s = 1000%Z ∧ status s = scheduled.
Proof.
  destruct (scheduled_upload_can_be_looked_up clip1 (Instant 1000) None
              {| scheduleId := "0"; si_scheduledTime := 1000; si_status := scheduled |}
              fresh_start one_scheduled)
    as (s & H1 & _ & H2 & H3 & _ & _ & H4 & _).
  - rewrite one_scheduled_armed.
    rewrite (scheduleUpload_future clip1 (Instant 1000) None 1000 fresh_start);
      [reflexivity | reflexivity | by vm_compute].
  - exists s. by repeat split.
Defined.

Lemma unknown_schedule_id_witness :
  getSchedule "7" one_scheduled = (inl NotFound, one_scheduled)
  ∧ cancelSchedule "7" one_scheduled = (inr true, one_scheduled).
Proof.
  destruct (unknown_schedule_id "7" one_scheduled) as (H1 & _ & H2 & _).
  - by vm_compute.
  - by vm_compute.
  - by split.
Defined.

Lemma scheduleBulk_unknown_pattern_witness :
  let pattern := {| p_type := other_type "weekly"; p_startTime := Instant 5000;
                    p_timezone := None; p_interval := None; p_times := None |} in
  scheduleBulk [clip1; clip2] pattern fresh_start = (inl InvalidPattern, fresh_start)
  ∧ scheduleBulk [] pattern fresh_start = (inr [], fresh_start).
Proof.
  intros pattern. split.
  - by apply (scheduleBulk_unknown_pattern [clip1; clip2] pattern "weekly").
  - by apply (scheduleBulk_unknown_pattern [] pattern "weekly").
Defined.

Lemma scheduleBulk_daily_witness :
  let pattern := {| p_type := daily; p_startTime := Instant 5000; p_timezone := None;
                    p_interval := None; p_times := None |} in
  let r := scheduleBulk [clip1; clip2; clip3] pattern fresh_start in
  r.1 = inr [ {| scheduleId := "0"; si_scheduledTime := 5000; si_status := scheduled |};
              {| scheduleId := "1"; si_scheduledTime := 86405000; si_status := scheduled |};
              {| scheduleId := "2"; si_scheduledTime := 172805000; si_status := scheduled |} ].
Proof.
  intros pattern r.
  destruct (scheduleBulk_daily [clip1; clip2; clip3] pattern 5000 fresh_start)
    as (_ & _ & Hresults & _).
  - reflexivity.
  - reflexivity.
  - intros i Hi. destruct i as [|[|[|i]]]; [by vm_compute..|cbn in Hi; lia].
  - intros i j Hij Heq. apply serial_inj in Heq. lia.
  - apply Hresults.
    intros i Hi. destruct i as [|[|[|i]]]; [cbn in Hi; lia|by vm_compute..|cbn in Hi; lia].
Defined.

Lemma post_route_answers_witness :
  (SchedulerRoutes.post_schedule true clip1 (Instant 1000) None fresh_start).1
  = {| SchedulerRoutes.statusCode := 200;
       SchedulerRoutes.body :=
         SchedulerRoutes.OfScheduleInfo
           {| scheduleId := "0"; si_scheduledTime := 1000; si_status := scheduled |} |}.
Proof.
  destruct (post_route_answers clip1 (Instant 1000) None 1000 fresh_start)
    as (_ & _ & H).
  - reflexivity.
  - destruct H as [H _]; [vm_compute; reflexivity|]. exact H.
Defined.

End SchedulerStoreFacts.

(** ** The runs of the two processors *)

Module JobQueueRunFacts.

Import Exc AIService JobQueue AIServiceFacts.

Lemma for_each_log {A} (l : list A) (f : A -> Run unit) (g : A -> list Effect) :
  (∀ x, f x = (g x, inr tt)) ->
  for_each l f = (l ≫= g, inr tt).
Proof.
  intros Hf. induction l as [|x l IH]; [done|].
  cbn [for_each]. unfold mbind at 1, run_bind. rewrite Hf, IH. done.
Qed.

Lemma call_log {P A} (adapter : AdapterRun P A) (f : P -> Run unit) (g : P -> list Effect) :
  (∀ x, f x = (g x, inr tt)) ->
  call adapter f = (reports adapter ≫= g, outcome adapter).
Proof.
  intros Hf. unfold call. rewrite (for_each_log _ _ g Hf).
  unfold mbind at 1, run_bind. by rewrite app_nil_r.
Qed.

Lemma emitProgress_log io e : emitProgress io e = (broadcast io e, inr tt).
Proof. by destruct io. Qed.

(** the run of [processVideo], written out *)
Lemma processVideo_log io options download process model :
  processVideo io options download process model
  = let first := JobProgress StepDownload 10 :: broadcast io (Emit downloading 10)
                 ++ download_log io (reports download) in
    match read_quality options, outcome download with
    | inl e, _ =>
        (JobProgress StepDownload 10 :: broadcast io (Emit downloading 10)
         ++ broadcast io (EmitError e), inl e)
    | inr _, inl e => (first ++ broadcast io (EmitError e), inl e)
    | inr _, inr d =>
        let second := JobProgress StepProcess 30 :: broadcast io (Emit processing 30)
                      ++ process_log io (reports process) in
        match outcome process with
        | inl e => (first ++ second ++ broadcast io (EmitError e), inl e)
        | inr clips =>
            let third := JobProgress StepGenerate 70 :: broadcast io (Emit generating_ai 70) in
            match generateBatch model (dr_metadata d) clips with
            | inl e => (first ++ second ++ third ++ broadcast io (EmitError e), inl e)
            | inr aiContent =>
                (first ++ second ++ third
                 ++ CleanupFile (dr_path d) :: JobProgress StepDone 100
                 :: broadcast io (Emit completed 100),
                 inr {| videoInfo := Some (dr_metadata d); clips := clips;
                        aiContent := aiContent; errors := [] |})
            end
        end
    end.
Proof.
  unfold processVideo.
  rewrite (call_log download _
             (λ p, JobProgress StepDownload (10 + p * 0.2)
                   :: broadcast io (Emit downloading (10 + p * 0.2)))).
  2: { intros p. unfold job_progress, tell. rewrite emitProgress_log. reflexivity. }
  rewrite (call_log process _
             (λ progress, JobProgress StepProcess (30 + pp_percent progress * 0.4)
                   :: broadcast io (Emit (of_processor (pp_stage progress)) (pp_percent progress)))).
  2: { intros p. unfold job_progress, tell. rewrite emitProgress_log. reflexivity. }
  fold (download_log io (reports download)). fold (process_log io (reports process)).
  unfold job_progress, tell, raise. rewrite !emitProgress_log.
  unfold mbind, run_bind, mret, run_ret, run_try. cbn zeta.
  destruct (read_quality options) as [e|[]];
    [|destruct (outcome download) as [e|d]; [|destruct (outcome process) as [e|clips];
      [|destruct (generateBatch model (dr_metadata d) clips) as [e|aiContent]]]];
    cbn; rewrite ?emitProgress_log; cbn; rewrite ?app_nil_r;
    repeat first [rewrite <- app_assoc | progress cbn [app]]; reflexivity.
Qed.

Lemma uploadVideo_log io upload :
  uploadVideo io upload
  = let first := broadcast io (Emit uploading 0) ++ upload_log io (reports upload) in
    match outcome upload with
    | inl e => (first ++ broadcast io (EmitError e), inl e)
    | inr result => (first ++ broadcast io (Emit completed 100), inr result)
    end.
Proof.
  unfold uploadVideo.
  rewrite (call_log upload _ (λ p, JobProgress StepUpload p :: broadcast io (Emit uploading p))).
  2: { intros p. unfold job_progress, tell. rewrite emitProgress_log. reflexivity. }
  fold (upload_log io (reports upload)).
  unfold raise. rewrite !emitProgress_log.
  unfold mbind, run_bind, mret, run_ret, run_try. cbn zeta.
  destruct (outcome upload) as [e|result];
    cbn; rewrite ?emitProgress_log; cbn; rewrite ?app_nil_r;
    repeat first [rewrite <- app_assoc | progress cbn [app]]; reflexivity.
Qed.

Lemma cleaned_up_app l1 l2 : cleaned_up (l1 ++ l2) = cleaned_up l1 ++ cleaned_up l2.
Proof. apply omap_app. Qed.

Lemma cleaned_up_broadcast io e :
  is_broadcast e = true -> cleaned_up (broadcast io e) = [].
Proof. by destruct io, e. Qed.

Lemma cleaned_up_download_log io l : cleaned_up (download_log io l) = [].
Proof. induction l as [|p l IH]; [done|]. destruct io; cbn; exact IH. Qed.

Lemma cleaned_up_process_log io l : cleaned_up (process_log io l) = [].
Proof. induction l as [|p l IH]; [done|]. destruct io; cbn; exact IH. Qed.

Lemma cleaned_up_progress step x l : cleaned_up (JobProgress step x :: l) = cleaned_up l.
Proof. done. Qed.

Lemma cleaned_up_file path l : cleaned_up (CleanupFile path :: l) = path :: cleaned_up l.
Proof. done. Qed.

Ltac log_parts :=
  cbn [fst snd returns];
  repeat first
    [ rewrite cleaned_up_app | rewrite cleaned_up_progress | rewrite cleaned_up_file
    | rewrite cleaned_up_download_log | rewrite cleaned_up_process_log
    | rewrite cleaned_up_broadcast by done ].

Lemma trace_app l1 l2 :
  job_progress_trace (l1 ++ l2) = job_progress_trace l1 ++ job_progress_trace l2.
Proof. apply omap_app. Qed.

Lemma trace_broadcast io e :
  is_broadcast e = true -> job_progress_trace (broadcast io e) = [].
Proof. by destruct io, e. Qed.

Lemma trace_download_log io l :
  job_progress_trace (download_log io l) = (λ p, 10 + p * 0.2)%Q <$> l.
Proof. induction l as [|p l IH]; [done|]. destruct io; cbn; by rewrite <- IH. Qed.

Lemma trace_process_log io l :
  job_progress_trace (process_log io l) = (λ r, 30 + pp_percent r * 0.4)%Q <$> l.
Proof. induction l as [|p l IH]; [done|]. destruct io; cbn; by rewrite <- IH. Qed.

Lemma trace_upload_log io l : job_progress_trace (upload_log io l) = l.
Proof. induction l as [|p l IH]; [done|]. destruct io; cbn; by rewrite <- IH at 2. Qed.

(** X13: a job of the pipeline fails exactly when its options are [null]
    or [undefined], or the download or the processing fails.  Without an
    object of options it fails with the [TypeError] of the read of
    [options.quality], before the downloader is called, having recorded 10;
    otherwise it fails with the message of the failed adapter, unchanged.
    The generation of titles and descriptions cannot fail it.  A job that
    succeeds returns the metadata of the video, the clips as the processor
    returned them, one entry of content per clip, and an empty list of
    errors. *)
Theorem processVideo_fails_with_adapter_error io options download process model :
  let r := processVideo io options download process model in
  match options, outcome download, outcome process with
  | is_null, _, _ =>
      r.2 = inl (cannot_read "null" "quality") ∧ job_progress_trace r.1 = [10%Q]
  | is_undefined, _, _ =>
      r.2 = inl (cannot_read "undefined" "quality") ∧ job_progress_trace r.1 = [10%Q]
  | is_object, inl e, _ => r.2 = inl e
  | is_object, inr d, inl e => r.2 = inl e
  | is_object, inr d, inr clips =>
      ∃ aiContent,
        generateBatch model (dr_metadata d) clips = inr aiContent
        ∧ length aiContent = length clips
        ∧ r.2 = inr {| videoInfo := Some (dr_metadata d); clips := clips;
                       aiContent := aiContent; errors := [] |}
  end.
Proof.
  intros r. subst r. rewrite processVideo_log. cbn zeta.
  destruct options; cbn [read_quality].
  - destruct (outcome download) as [e|d]; [done|].
    destruct (outcome process) as [e|clips]; [done|].
    destruct (generateBatch_returns model (dr_metadata d) clips) as (aiContent & Hai & Hlen).
    rewrite Hai. by exists aiContent.
  - split; [done|]. by destruct io.
  - split; [done|]. by destruct io.
Qed.

(** X14: the downloaded file is handed to [cleanup] exactly once, and
    only by a job that succeeds.  A job that fails does not clean up, also
    when the download itself had succeeded and it is the processing that
    failed: the downloaded file is then left where it is. *)
Theorem processVideo_cleans_up_on_success_only io options download process model :
  let r := processVideo io options download process model in
  match outcome download with
  | inl _ => cleaned_up r.1 = [] ∧ returns r.2 = false
  | inr d => cleaned_up r.1 = if returns r.2 then [dr_path d] else []
  end.
Proof.
  intros r. subst r. rewrite processVideo_log. cbn zeta.
  destruct (read_quality options) as [e|[]].
  { destruct (outcome download); by log_parts. }
  destruct (outcome download) as [e|d]; [by log_parts|].
  destruct (outcome process) as [e|clips]; [by log_parts|].
  destruct (generateBatch_returns model (dr_metadata d) clips) as (aiContent & -> & _).
  by log_parts.
Qed.

Lemma silent_download_log l :
  filter (λ e, is_broadcast e = false) (download_log true l) = download_log false l.
Proof.
  induction l as [|p l IH]; [done|].
  change (download_log true (p :: l))
    with (JobProgress StepDownload (10 + p * 0.2)
          :: Emit downloading (10 + p * 0.2) :: download_log true l).
  rewrite filter_cons_True by done. rewrite filter_cons_False by done. by rewrite IH.
Qed.

Lemma silent_process_log l :
  filter (λ e, is_broadcast e = false) (process_log true l) = process_log false l.
Proof.
  induction l as [|p l IH]; [done|].
  change (process_log true (p :: l))
    with (JobProgress StepProcess (30 + pp_percent p * 0.4)
          :: Emit (of_processor (pp_stage p)) (pp_percent p) :: process_log true l).
  rewrite filter_cons_True by done. rewrite filter_cons_False by done. by rewrite IH.
Qed.

Lemma silent_trace l :
  job_progress_trace (filter (λ e, is_broadcast e = false) l) = job_progress_trace l
  ∧ cleaned_up (filter (λ e, is_broadcast e = false) l) = cleaned_up l.
Proof.
  unfold job_progress_trace, cleaned_up.
  induction l as [|e l [IH1 IH2]]; [done|].
  destruct (is_broadcast e) eqn:He.
  - rewrite filter_cons_False by congruence. by destruct e.
  - rewrite filter_cons_True by done. destruct e; try discriminate; cbn; by rewrite ?IH1, ?IH2.
Qed.

Ltac silent_parts :=
  cbn [fst snd broadcast app];
  repeat first
    [ rewrite filter_app | rewrite silent_download_log | rewrite silent_process_log
    | rewrite filter_cons_True by done | rewrite filter_cons_False by done
    | rewrite filter_nil ].

(** X15: the socket server only adds messages.  A job run without one
    ends as the same job run with one, and does the same things in the same
    order, less the messages: the values recorded with [job.progress] and
    the clean-up do not depend on it. *)
Theorem processVideo_socket_only_adds_messages options download process model :
  let loud := processVideo true options download process model in
  let silent := processVideo false options download process model in
  silent.2 = loud.2
  ∧ silent.1 = filter (λ e, is_broadcast e = false) loud.1
  ∧ job_progress_trace silent.1 = job_progress_trace loud.1
  ∧ cleaned_up silent.1 = cleaned_up loud.1.
Proof.
  intros loud silent. subst loud silent. rewrite !processVideo_log. cbn zeta.
  pose proof silent_trace as Hsilent.
  destruct (read_quality options) as [e|[]].
  { cbn [fst snd]. split; [done|].
    match goal with |- ?l1 = filter _ ?l2 ∧ _ =>
      assert (Heq : l1 = filter (λ e, is_broadcast e = false) l2)
        by (silent_parts; by rewrite ?app_nil_r) end.
    rewrite Heq. split; [done|]. apply Hsilent. }
  destruct (outcome download) as [e|d].
  { cbn [fst snd]. split; [done|].
    match goal with |- ?l1 = filter _ ?l2 ∧ _ =>
      assert (Heq : l1 = filter (λ e, is_broadcast e = false) l2)
        by (silent_parts; by rewrite ?app_nil_r) end.
    rewrite Heq. split; [done|]. apply Hsilent. }
  destruct (outcome process) as [e|clips].
  { cbn [fst snd]. split; [done|].
    match goal with |- ?l1 = filter _ ?l2 ∧ _ =>
      assert (Heq : l1 = filter (λ e, is_broadcast e = false) l2)
        by (silent_parts; by rewrite ?app_nil_r) end.
    rewrite Heq. split; [done|]. apply Hsilent. }
  destruct (generateBatch model (dr_metadata d) clips) as [e|aiContent].
  { cbn [fst snd]. split; [done|].
    match goal with |- ?l1 = filter _ ?l2 ∧ _ =>
      assert (Heq : l1 = filter (λ e, is_broadcast e = false) l2)
        by (silent_parts; by rewrite ?app_nil_r) end.
    rewrite Heq. split; [done|]. apply Hsilent. }
  cbn [fst snd]. split; [done|].
  match goal with |- ?l1 = filter _ ?l2 ∧ _ =>
    assert (Heq : l1 = filter (λ e, is_broadcast e = false) l2)
      by (silent_parts; by rewrite ?app_nil_r) end.
  rewrite Heq. split; [done|]. apply Hsilent.
Qed.

Lemma download_trace_bound l :
  Forall (in_range 0 100) l -> Forall (λ x, x <= 70)%Q ((λ p, 10 + p * 0.2)%Q <$> l).
Proof.
  intros Hl. apply Forall_fmap. eapply Forall_impl; [exact Hl|].
  intros p [_ Hp]. cbn. lra.
Qed.

Lemma process_trace_bound (l : list ProcessorProgress) :
  Forall (λ r, in_range 0 100 (pp_percent r)) l ->
  Forall (λ x, x <= 70)%Q ((λ r, 30 + pp_percent r * 0.4)%Q <$> l).
Proof.
  intros Hl. apply Forall_fmap. eapply Forall_impl; [exact Hl|].
  intros p [_ Hp]. cbn. lra.
Qed.

Lemma trace_progress step x l :
  job_progress_trace (JobProgress step x :: l) = x :: job_progress_trace l.
Proof. done. Qed.

Lemma trace_file path l : job_progress_trace (CleanupFile path :: l) = job_progress_trace l.
Proof. done. Qed.

Ltac trace_parts :=
  cbn [fst snd returns];
  repeat first
    [ rewrite trace_app | rewrite trace_progress | rewrite trace_file
    | rewrite trace_download_log | rewrite trace_process_log | rewrite trace_upload_log
    | rewrite trace_broadcast by done ].

(** X16: the progress recorded on the job begins at 10, and it reaches
    100 exactly when the job succeeds.  For adapter percentages between 0
    and 100, a job that fails never records more than 70, while the last
    value a successful job records is 100. *)
Theorem processVideo_records_100_on_success_only io options download process model :
  Forall (in_range 0 100) (reports download) ->
  Forall (λ r, in_range 0 100 (pp_percent r)) (reports process) ->
  let r := processVideo io options download process model in
  head (job_progress_trace r.1) = Some 10%Q
  ∧ (returns r.2 = true -> last (job_progress_trace r.1) = Some 100%Q)
  ∧ (returns r.2 = false -> Forall (λ x, x <= 70)%Q (job_progress_trace r.1)).
Proof.
  intros Hd Hp r. subst r. rewrite processVideo_log. cbn zeta.
  pose proof (download_trace_bound _ Hd) as Hd'.
  pose proof (process_trace_bound _ Hp) as Hp'.
  assert (H10 : (10 <= 70)%Q) by lra. assert (H30 : (30 <= 70)%Q) by lra.
  assert (H70 : (70 <= 70)%Q) by lra.
  destruct (read_quality options) as [e|[]].
  { trace_parts. split; [done|]. split; [done|]. intros _.
    rewrite !app_nil_r. by constructor. }
  destruct (outcome download) as [e|d].
  { trace_parts. split; [done|]. split; [done|]. intros _.
    rewrite !app_nil_r. by constructor. }
  destruct (outcome process) as [e|clips].
  { trace_parts. split; [done|]. split; [done|]. intros _.
    rewrite !app_nil_r. cbn [app]. constructor; [done|].
    apply Forall_app. split; [done|]. by constructor. }
  destruct (generateBatch_returns model (dr_metadata d) clips) as (aiContent & -> & _).
  trace_parts. split; [done|]. split; [|done]. intros _.
  rewrite !app_assoc. apply last_snoc.
Qed.

Lemma broadcast_elem io e x : x ∈ broadcast io e ↔ io = true ∧ x = e.
Proof.
  destruct io; cbn.
  - rewrite list_elem_of_singleton. split; [by intros ->|by intros [_ ->]].
  - rewrite elem_of_nil. split; [done|by intros [? _]].
Qed.

Lemma upload_log_cons io p l :
  upload_log io (p :: l)
  = JobProgress StepUpload p :: broadcast io (Emit uploading p) ++ upload_log io l.
Proof. done. Qed.

Lemma values_upload_log io l : job_progress_values StepUpload (upload_log io l) = l.
Proof.
  unfold job_progress_values. induction l as [|p l IH]; [done|].
  rewrite upload_log_cons.
  destruct io; cbn [broadcast app]; simpl; first [exact IH | f_equal; exact IH].
Qed.

Lemma emitted_upload_log io l :
  emitted_values uploading (upload_log io l) = if io then l else [].
Proof.
  unfold emitted_values. induction l as [|p l IH]; [by destruct io|].
  rewrite upload_log_cons.
  destruct io; cbn [broadcast app]; simpl; first [exact IH | f_equal; exact IH].
Qed.

Lemma completed_upload_log io l : emitted_values completed (upload_log io l) = [].
Proof.
  unfold emitted_values. induction l as [|p l IH]; [done|].
  rewrite upload_log_cons.
  destruct io; cbn [broadcast app]; simpl; first [exact IH | f_equal; exact IH].
Qed.

Lemma no_error_in_upload_log io l e : EmitError e ∉ upload_log io l.
Proof.
  induction l as [|p l IH]; [by apply not_elem_of_nil|].
  rewrite upload_log_cons. destruct io; cbn [broadcast app]; rewrite ?not_elem_of_cons; done.
Qed.

(** X17: [uploadVideo] passes the uploader on unchanged.  The job ends as
    the upload ends, with the same result or the same error message; the
    values recorded with [job.progress] are the percentages of the
    uploader, in order, neither scaled nor clamped; and with a socket server
    the same percentages are broadcast, after a first 0, and [completed] is
    broadcast exactly when the upload has succeeded. *)
Theorem uploadVideo_relays_uploader io upload :
  let r := uploadVideo io upload in
  r.2 = outcome upload
  ∧ job_progress_trace r.1 = reports upload
  ∧ job_progress_values StepUpload r.1 = reports upload
  ∧ emitted_values uploading r.1 = (if io then 0%Q :: reports upload else [])
  ∧ emitted_values completed r.1
    = (if (io && returns (outcome upload))%bool then [100%Q] else [])
  ∧ (∀ e, EmitError e ∈ r.1 ↔ io = true ∧ outcome upload = inl e).
Proof.
  intros r. subst r. rewrite uploadVideo_log. cbn zeta.
  pose proof (values_upload_log io (reports upload)) as Hv.
  pose proof (emitted_upload_log io (reports upload)) as Hu.
  pose proof (completed_upload_log io (reports upload)) as Hc.
  pose proof (no_error_in_upload_log io (reports upload)) as Herr.
  unfold job_progress_values, emitted_values in *.
  destruct (outcome upload) as [e|result]; cbn [fst snd returns].
  - split; [done|]. split; [trace_parts; by rewrite app_nil_r|].
    rewrite !omap_app, Hv, Hu, Hc.
    split; [destruct io; cbn; by rewrite ?app_nil_r|].
    split; [destruct io; cbn; by rewrite ?app_nil_r|].
    split; [by destruct io|].
    intros e'. rewrite !elem_of_app, !broadcast_elem. specialize (Herr e'). intuition congruence.
  - split; [done|]. split; [trace_parts; by rewrite app_nil_r|].
    rewrite !omap_app, Hv, Hu, Hc.
    split; [destruct io; cbn; by rewrite ?app_nil_r|].
    split; [destruct io; cbn; by rewrite ?app_nil_r|].
    split; [by destruct io|].
    intros e'. rewrite !elem_of_app, !broadcast_elem. specialize (Herr e'). intuition congruence.
Qed.

Lemma processVideo_records_100_on_success_only_witness :
  let download : AdapterRun Q DownloadResult :=
    {| reports := [50%Q];
       outcome := inr {| dr_path := "temp/v.mp4";
                         dr_metadata := {| vm_title := "My video"; vm_description := None;
                                           vm_tags := None |} |} |} in
  let process : AdapterRun ProcessorProgress (list ClipInfo) :=
    {| reports := [ {| pp_stage := splitting; pp_percent := 100 |} ]; outcome := inr [] |} in
  let r := processVideo true is_object download process None in
  head (job_progress_trace r.1) = Some 10%Q ∧ last (job_progress_trace r.1) = Some 100%Q.
Proof.
  intros download process r.
  destruct (processVideo_records_100_on_success_only true is_object download process None)
    as (H1 & H2 & _).
  - repeat constructor; vm_compute; discriminate.
  - repeat constructor; vm_compute; discriminate.
  - split; [exact H1|]. by apply H2.
Defined.

End JobQueueRunFacts.

(** ** The texts of the content generator *)

Module AIServiceTextFacts.

Import Exc AIService AIServiceFacts.

#[local] Open Scope string_scope.

Lemma append_cons x a b : String x a ++ b = String x (a ++ b).
Proof. done. Qed.

Lemma length_append a b :
  String.length (a ++ b) = (String.length a + String.length b)%nat.
Proof. induction a as [|c a IH]; [done|]. rewrite append_cons. cbn. by rewrite IH. Qed.

Lemma length_prefix n s :
  String.length (substring 0 n s) = Nat.min n (String.length s).
Proof.
  revert s. induction n as [|n IH]; intros [|c s]; cbn; try done.
  by rewrite IH.
Qed.

Lemma includes_append c a b :
  includes c (a ++ b) = (includes c a || includes c b)%bool.
Proof.
  induction a as [|x a IH]; [done|]. rewrite append_cons. cbn.
  rewrite IH. by destruct (Ascii.eqb x c).
Qed.

Lemma includes_prefix c n s :
  includes c (substring 0 n s) = true -> includes c s = true.
Proof.
  revert s. induction n as [|n IH]; intros [|x s]; cbn; try done.
  destruct (Ascii.eqb x c); [done|]. apply IH.
Qed.

Lemma includes_trim_start c s : includes c (trim_start s) = true -> includes c s = true.
Proof.
  induction s as [|x s IH]; cbn; [done|].
  destruct (is_space x); [|done]. intros H. rewrite (IH H). by destruct (Ascii.eqb x c).
Qed.

Lemma includes_trim_end c s : includes c (trim_end s) = true -> includes c s = true.
Proof.
  induction s as [|x s IH]; cbn; [done|].
  destruct (is_space x && is_empty (trim_end s))%bool; cbn; [done|].
  destruct (Ascii.eqb x c); [done|]. apply IH.
Qed.

Lemma includes_trim c s : includes c (trim s) = true -> includes c s = true.
Proof. intros H. by apply includes_trim_start, includes_trim_end. Qed.

(** *** Titles *)

Lemma validateTitle_short t :
  (String.length t ≤ 100)%nat -> validateTitle t = t.
Proof.
  intros Hlen. unfold validateTitle.
  destruct (Nat.ltb_spec 100 (String.length t)) as [?|_]; [lia|done].
Qed.

Lemma validateTitle_long t :
  (100 < String.length t)%nat ->
  validateTitle t = substring 0 97 t ++ "..."
  ∧ String.length (validateTitle t) = 100%nat.
Proof.
  intros Hlen. unfold validateTitle.
  destruct (Nat.ltb_spec 100 (String.length t)) as [_|?]; [|lia].
  split; [done|]. rewrite length_append, length_prefix.
  change (String.length "...") with 3%nat. lia.
Qed.

(** X18: [validateTitle] never returns more than 100 characters.  A
    title of at most 100 characters is returned as it is; a longer one is
    cut to its first 97 characters followed by three dots, which makes
    exactly 100.  Validating twice changes nothing more. *)
Theorem validateTitle_within_limit t :
  (String.length (validateTitle t) ≤ 100)%nat
  ∧ ((String.length t ≤ 100)%nat -> validateTitle t = t)
  ∧ ((100 < String.length t)%nat ->
       validateTitle t = substring 0 97 t ++ "..."
       ∧ String.length (validateTitle t) = 100%nat)
  ∧ validateTitle (validateTitle t) = validateTitle t.
Proof.
  assert (Hbound : (String.length (validateTitle t) ≤ 100)%nat).
  { destruct (decide (String.length t ≤ 100)%nat) as [Hlen|Hlen].
    - by rewrite validateTitle_short.
    - destruct (validateTitle_long t) as [_ ->]; lia. }
  split; [done|]. split; [apply validateTitle_short|]. split; [apply validateTitle_long|].
  by apply validateTitle_short.
Qed.

Lemma lazy_line_single s g : lazy_line s = Some g -> single_line g ∧ g ≠ "".
Proof.
  revert g. induction s as [|x s IH]; intros g; cbn [lazy_line]; [done|].
  destruct (is_line_terminator x) eqn:Hx; [done|].
  destruct (is_empty s || starts_with nl s)%bool.
  - intros [= <-]. split; [|done]. intros c. cbn.
    destruct (Ascii.eqb_spec x c) as [<-|]; [done|]. by rewrite orb_false_r.
  - destruct (lazy_line s) as [g'|]; [|done]. cbn. intros [= <-].
    destruct (IH g' eq_refl) as [Hg' _]. split; [|done]. intros c. cbn.
    destruct (Ascii.eqb_spec x c) as [<-|]; [done|]. apply Hg'.
Qed.

Lemma greedy_spaces_rest rest s g :
  greedy_spaces rest s = Some g -> ∃ s', rest s' = Some g.
Proof.
  induction s as [|x s IH]; cbn; [by eexists|].
  destruct (is_space x); [|by eexists].
  destruct (greedy_spaces rest s) as [g'|]; [|by eexists].
  intros [= <-]. by apply IH.
Qed.

Lemma search_attempt attempt s g :
  search attempt s = Some g -> ∃ s', attempt s' = Some g.
Proof.
  induction s as [|x s IH]; cbn.
  - destruct (attempt "") eqn:H; [|done]. intros [= <-]. by eexists.
  - destruct (attempt (String x s)) eqn:H; [intros [= <-]; by eexists|]. apply IH.
Qed.

Lemma match_title_single text g : match_title text = Some g -> single_line g ∧ g ≠ "".
Proof.
  unfold match_title. intros H. apply search_attempt in H as (s & H).
  destruct (strip_prefix_ci "TITLE:" s) as [s1|]; [|done]. cbn in H.
  apply greedy_spaces_rest in H as (s2 & H). by apply lazy_line_single in H.
Qed.

(** X19: a title that [parseResponse] returns is fit for a title field:
    it is not empty, it has at most 100 characters, and it is a single
    line, without a line feed or a carriage return. *)
Theorem parsed_title_is_one_short_line text t :
  title (parseResponse text) = Some t ->
  t ≠ "" ∧ (String.length t ≤ 100)%nat ∧ single_line t.
Proof.
  unfold parseResponse. cbn [title].
  destruct (match_title text) as [g|] eqn:Hg; [|done]. cbn.
  destruct (truthy (trim g)) eqn:Htruthy; [|done]. intros [= <-].
  apply match_title_single in Hg as [Hline _].
  pose proof (validateTitle_short (trim g)) as Hshort.
  pose proof (validateTitle_long (trim g)) as Hlong.
  split; [|split].
  - destruct (decide (String.length (trim g) ≤ 100)%nat) as [Hlen|Hlen].
    + rewrite Hshort by done. by destruct (trim g).
    + destruct Hlong as [_ Hl]; [lia|]. intros Heq. by rewrite Heq in Hl.
  - destruct (decide (String.length (trim g) ≤ 100)%nat) as [Hlen|Hlen].
    + by rewrite Hshort.
    + destruct Hlong as [_ ->]; lia.
  - intros c Hc. destruct (decide (String.length (trim g) ≤ 100)%nat) as [Hlen|Hlen].
    + rewrite Hshort in Hc by done. by apply Hline, includes_trim.
    + destruct Hlong as [Heq _]; [lia|]. rewrite Heq, includes_append in Hc.
      apply orb_true_iff in Hc as [Hc|Hc].
      * by apply Hline, includes_trim, (includes_prefix c 97).
      * change (includes c "...")
          with (Ascii.eqb "." c || (Ascii.eqb "." c || (Ascii.eqb "." c || false)))%bool in Hc.
        destruct (Ascii.eqb "." c) eqn:He; [|done].
        apply Ascii.eqb_eq in He. by subst c.
Qed.

(** *** Descriptions *)

(** X20: a description that has been validated always carries a hashtag.
    [validateDescription] leaves a description with a [#] as it is and
    appends the three standard hashtags, after an empty line, to one
    without; validating twice changes nothing more.  So every description
    that [parseResponse] returns contains a [#]. *)
Theorem validated_description_has_hashtag :
  (∀ d, includes "#" (validateDescription d) = true
        ∧ validateDescription (validateDescription d) = validateDescription d
        ∧ (includes "#" d = true -> validateDescription d = d)
        ∧ (includes "#" d = false ->
             validateDescription d = d ++ nl ++ nl ++ "#Shorts #YouTubeShorts #Viral"))
  ∧ (∀ text d, description (parseResponse text) = Some d ->
               includes "#" d = true ∧ d ≠ "").
Proof.
  assert (Hv : ∀ d, includes "#" (validateDescription d) = true).
  { intros d. unfold validateDescription. destruct (includes "#" d) eqn:Hd; cbn; [done|].
    rewrite !includes_append. cbn. by rewrite !orb_true_r. }
  split.
  - intros d. split; [done|]. split; [|split].
    + unfold validateDescription at 1. by rewrite Hv.
    + intros Hd. unfold validateDescription. by rewrite Hd.
    + intros Hd. unfold validateDescription. by rewrite Hd.
  - intros text d. unfold parseResponse. cbn [description].
    destruct (match_description text) as [g|]; [|done]. cbn.
    destruct (truthy (trim g)) eqn:Htruthy; [|done]. intros [= <-].
    split; [done|]. intros Heq. specialize (Hv (trim g)). by rewrite Heq in Hv.
Qed.

(** *** Batches *)

(** X21: [generateBatch] never throws, whatever the model does.  It
    returns one entry per clip, in the order of the clips, each carrying the
    identifier of its clip and what [generateTitleAndDescription] returns
    for that clip; without a model every entry is the fallback of its clip,
    with a title and a description. *)
Theorem generateBatch_one_entry_per_clip model videoMetadata clips :
  ∃ entries,
    generateBatch model videoMetadata clips = inr entries
    ∧ be_clipId <$> entries = clip_id <$> clips
    ∧ (inr ∘ be_content) <$> entries
      = generateTitleAndDescription model videoMetadata <$> clips
    ∧ (model = None ->
         be_content <$> entries = generateFallbackContent videoMetadata <$> clips
         ∧ Forall (λ entry, usable (be_content entry) = true) entries).
Proof.
  induction clips as [|clip rest (entries & IH & Hids & Hcontent & Hnone)]; cbn.
  { exists []. repeat split; try done. }
  destruct (generateTitleAndDescription_total model videoMetadata clip) as (c & Hc).
  rewrite Hc, IH. cbn.
  eexists. split; [done|]. cbn. split; [by rewrite Hids|]. split; [by rewrite Hcontent|].
  intros ->. destruct Hnone as [Hfall Husable]; [done|].
  cbn in Hc. injection Hc as <-. split; [by rewrite Hfall|]. by constructor.
Qed.

(** *** Hashtags *)

Lemma includes_remove c class s :
  includes c (remove class s) = true -> class c = false ∧ includes c s = true.
Proof.
  induction s as [|x s IH]; cbn; [done|].
  destruct (class x) eqn:Hx; cbn.
  - intros H. destruct (IH H) as [? ->]. by rewrite orb_true_r.
  - destruct (Ascii.eqb_spec x c) as [<-|]; [done|]. cbn. apply IH.
Qed.

(** X22: [generateHashtags] returns the three standard hashtags first
    and then one hashtag for each of the first five tags of the video, in
    their order, so at most eight in all; without tags, or with an empty
    list of tags, the three standard ones alone.  Every hashtag consists of
    letters and digits only: the blanks and every other character of a tag
    are dropped (a tag without a letter or digit gives an empty hashtag). *)
Theorem generateHashtags_alphanumeric videoMetadata :
  let tags := default [] (vm_tags videoMetadata) in
  let hashtags := generateHashtags videoMetadata in
  hashtags = (["Shorts"; "YouTubeShorts"; "Viral"] ++ (to_hashtag <$> take 5 tags))%list
  ∧ length hashtags = (3 + Nat.min 5 (length tags))%nat
  ∧ Forall (λ hashtag, ∀ c, includes c hashtag = true -> is_alphanumeric c = true) hashtags.
Proof.
  intros tags hashtags.
  assert (Heq : hashtags = (["Shorts"; "YouTubeShorts"; "Viral"] ++ (to_hashtag <$> take 5 tags))%list).
  { subst hashtags tags. unfold generateHashtags.
    destruct (vm_tags videoMetadata) as [[|tag tags]|]; done. }
  split; [done|]. rewrite Heq. split.
  - rewrite length_app, length_fmap, length_take. done.
  - apply Forall_app. split.
    + rewrite !Forall_cons. repeat split; try apply Forall_nil_2; intros c Hc;
        cbn [includes] in Hc;
        repeat (apply orb_true_iff in Hc as [Hc|Hc];
                [apply Ascii.eqb_eq in Hc; by subst c|]); done.
    + apply Forall_fmap, Forall_forall. intros tag _ c Hc. unfold to_hashtag in Hc.
      apply includes_remove in Hc as [Hc _]. by apply negb_false_iff in Hc.
Qed.

Lemma parsed_title_is_one_short_line_witness :
  let t := "Best moment of the match" in
  t ≠ "" ∧ (String.length t ≤ 100)%nat ∧ single_line t.
Proof.
  apply (parsed_title_is_one_short_line
           "TITLE: Best moment of the match
DESCRIPTION: Watch until the end. #Shorts").
  reflexivity.
Defined.

End AIServiceTextFacts.

(** ** The clips of the video processor *)

Module VideoProcessorFacts.

Import Exc AIService JobQueue VideoProcessor JobQueueRunFacts.

#[local] Open Scope string_scope.

Section Clips.

Context {tools : Tools}.




Lemma whole_clips_count o duration :
  maxClips o = None ->
  (0 < clipDuration o)%Q ->
  let whole := Qfloor ((duration - startTime o) / clipDuration o) in
  numClips o (duration - startTime o) = Finite (inject_Z whole)
  ∧ not_positive (Finite (inject_Z whole)) = bool_decide (whole ≤ 0)%Z
  ∧ passes (Finite (inject_Z whole)) = Z.to_nat whole
  ∧ (startTime o + inject_Z whole * clipDuration o <= duration)%Q.
Proof.
  intros Hmax Hcd whole. split; [|split; [|split]].
  - unfold numClips, floor_of_quotient. rewrite Hmax.
    destruct (Qeq_bool (clipDuration o) 0) eqn:Hzero; [|done].
    apply Qeq_bool_iff in Hzero. lra.
  - cbn. case_bool_decide as Hw.
    + apply Qle_bool_iff. change 0%Q with (inject_Z 0). by rewrite <- Zle_Qle.
    + destruct (Qle_bool (inject_Z whole) 0) eqn:Hle; [|done].
      apply Qle_bool_iff in Hle. change 0%Q with (inject_Z 0) in Hle.
      by rewrite <- Zle_Qle in Hle.
  - cbn. by rewrite Qceiling_Z.
  - pose proof (Qfloor_le ((duration - startTime o) / clipDuration o)) as Hfloor.
    fold whole in Hfloor.
    assert (Hq : ((duration - startTime o) / clipDuration o * clipDuration o
                  == duration - startTime o)%Q).
    { field. lra. }
    assert (Hmul : (inject_Z whole * clipDuration o
                    <= (duration - startTime o) / clipDuration o * clipDuration o)%Q).
    { apply Qmult_le_compat_r; [done|lra]. }
    rewrite Hq in Hmul. lra.
Qed.


(** *** Failures *)

Lemma process_adapter_split_failure o message :
  outcome (splitIntoClips o) = inl message ->
  outcome (process_adapter o) = inl ("Failed to process video to Shorts: " ++ message)
  ∧ reports (process_adapter o)
    = (λ progress, {| pp_stage := splitting; pp_percent := percent progress |})
      <$> reports (splitIntoClips o).
Proof.
  intros Hsplit. unfold process_adapter, processToShorts. cbn [outcome reports].
  by rewrite Hsplit.
Qed.

(** X25: a video that is too short fails the job, and says so.  For a
    clip duration and a start time that are whole numbers of seconds, when
    the download has succeeded but less than one clip duration lies between
    the start time and the end of the video, the job of the pipeline fails
    with the message of [splitIntoClips] wrapped twice; it has recorded the
    progress of the download step and then 30, and the downloaded file is
    not cleaned up. *)
Theorem too_short_video_fails_the_job io download d o model duration :
  outcome download = inr d ->
  getVideoDuration = inr duration ->
  exact_for o duration ->
  maxClips o = None ->
  (duration - startTime o < clipDuration o)%Q ->
  let r := processVideo io is_object download (process_adapter o) model in
  r.2 = inl ("Failed to process video to Shorts: Failed to split video: "
             ++ "Not enough video duration for clips")
  ∧ job_progress_trace r.1
    = ((10%Q :: ((λ p, 10 + p * 0.2)%Q <$> reports download)) ++ [30%Q])%list
  ∧ cleaned_up r.1 = [].
Proof.
  intros Hdownload Hduration (_ & Hone & _) Hmax Hshort r.
  assert (Hcd : (0 < clipDuration o)%Q) by lra.
  destruct (whole_clips_count o duration Hmax Hcd) as (Hcount & Hpos & _ & _).
  assert (Hwhole : (Qfloor ((duration - startTime o) / clipDuration o) ≤ 0)%Z).
  { pose proof (Qfloor_le ((duration - startTime o) / clipDuration o)) as Hfloor.
    assert (Hlt : ((duration - startTime o) / clipDuration o < 1)%Q).
    { apply Qlt_shift_div_r; [done|lra]. }
    assert (Hz : (inject_Z (Qfloor ((duration - startTime o) / clipDuration o))
                  < inject_Z 1)%Q) by (change (inject_Z 1) with 1%Q; lra).
    rewrite <- Zlt_Qlt in Hz. lia. }
  assert (Hsplit : outcome (splitIntoClips o)
                   = inl "Failed to split video: Not enough video duration for clips"
                   ∧ reports (splitIntoClips o) = []).
  { unfold splitIntoClips. rewrite Hduration. cbn zeta. rewrite Hcount, Hpos.
    by rewrite bool_decide_true. }
  destruct Hsplit as [Hout Hreports].
  destruct (process_adapter_split_failure o _ Hout) as [Hfail Hnone].
  rewrite Hreports in Hnone. cbn [fmap list_fmap] in Hnone.
  subst r. rewrite processVideo_log. cbn zeta. cbn [read_quality].
  rewrite Hdownload, Hfail, Hnone.
  split; [done|]. split; [by trace_parts|by log_parts].
Qed.

(** *** The progress of the splitting *)

Lemma split_from_percentages o duration count n i :
  let reports := (split_from o duration count n i).1 in
  (length reports ≤ n)%nat
  ∧ percent <$> reports = (λ j, percent_done j count) <$> seq i (length reports).
Proof.
  revert i. induction n as [|n IH]; intros i; cbn [split_from]; [done|]. cbn zeta.
  destruct (Qlt_le_dec _ _); [cbn; split; [lia|done]|].
  destruct (extractClip _ _ _) as [message|[]]; [cbn; split; [lia|done]|].
  specialize (IH (S i)). cbn zeta in IH.
  destruct (split_from o duration count n (S i)) as [more rest]. cbn in *.
  destruct IH as [Hlen ->]. split; [lia|done].
Qed.

Lemma percent_done_within count j :
  (∀ q, count = Finite q -> (0 < q)%Q ∧ (inject_Z (Z.of_nat (j + 1)) <= q)%Q) ->
  in_range 0 100 (percent_done j count).
Proof.
  intros Hcount. destruct count as [q| | |]; cbn; try (split; lra).
  destruct (Hcount q eq_refl) as [Hq Hj].
  assert (H0 : (0 <= inject_Z (Z.of_nat (j + 1)) / q)%Q).
  { apply Qle_shift_div_l; [done|]. rewrite Qmult_0_l.
    change 0%Q with (inject_Z 0). rewrite <- Zle_Qle. lia. }
  assert (H1 : (inject_Z (Z.of_nat (j + 1)) / q <= 1)%Q).
  { apply Qle_shift_div_r; [done|]. by rewrite Qmult_1_l. }
  split; lra.
Qed.

Lemma numClips_whole o available q :
  (∀ m, maxClips o = Some m -> m == inject_Z (Qfloor m))%Q ->
  numClips o available = Finite q ->
  (q == inject_Z (Qfloor q))%Q.
Proof.
  intros Hmax. unfold numClips, floor_of_quotient.
  assert (Hfloor : (if Qeq_bool (clipDuration o) 0
                    then match (available ?= 0)%Q with
                         | Eq => NotANumber | Lt => MinusInfinity | Gt => PlusInfinity
                         end
                    else Finite (inject_Z (Qfloor (available / clipDuration o))))
                   = Finite q -> (q == inject_Z (Qfloor q))%Q).
  { destruct (Qeq_bool (clipDuration o) 0); [by destruct (available ?= 0)%Q|].
    intros [= <-]. by rewrite Qfloor_Z. }
  destruct (maxClips o) as [m|]; [|done].
  destruct (Qeq_bool m 0); [done|]. intros [= <-]. by apply Hmax.
Qed.

Lemma resize_all_stage clips :
  Forall (λ r, pp_stage r = resizing) (resize_all clips).1.
Proof.
  induction clips as [|clip rest IH]; cbn [resize_all]; [done|]. cbn zeta.
  assert (Hhere : ∀ l : list Q,
            Forall (λ r, pp_stage r = resizing)
              ((λ p, {| pp_stage := resizing; pp_percent := p |}) <$> l)).
  { intros l. apply Forall_fmap. by apply Forall_true. }
  destruct (outcome (resizeToShorts _ _)); [apply Hhere|].
  destruct (unlinkSync _); [apply Hhere|].
  destruct (statSync_size _); [apply Hhere|].
  destruct (resize_all rest) as [more shorts]. cbn in *.
  apply Forall_app. split; [apply Hhere|done].
Qed.

(** X26: the percentages that [splitIntoClips] passes on lie between 0
    and 100, provided [maxClips], when given, is a whole number; so do those
    that [processToShorts] hands on with stage [splitting].  (Those of stage
    [resizing] are the ones of ffmpeg, whatever they are.) *)
Theorem splitting_progress_within_0_100 o :
  (∀ m, maxClips o = Some m -> m == inject_Z (Qfloor m))%Q ->
  Forall (λ progress, in_range 0 100 (percent progress)) (reports (splitIntoClips o))
  ∧ Forall (λ r, pp_stage r = splitting -> in_range 0 100 (pp_percent r))
      (reports (processToShorts o)).
Proof.
  intros Hmax.
  assert (Hsplit : Forall (λ progress, in_range 0 100 (percent progress))
                     (reports (splitIntoClips o))).
  { unfold splitIntoClips. cbn [reports].
    destruct getVideoDuration as [message|duration]; [done|]. cbn zeta.
    set (count := numClips o (duration - startTime o)).
    destruct (not_positive count) eqn:Hpositive; [done|].
    destruct (split_from_percentages o duration count (passes count) 0) as [Hlen Hpercent].
    cbn zeta in Hlen, Hpercent.
    assert (Hall : Forall (in_range 0 100)
                     (percent <$> (split_from o duration count (passes count) 0).1)).
    { rewrite Hpercent.
      apply Forall_fmap, Forall_forall. intros j Hj. apply elem_of_seq in Hj. cbn.
      apply percent_done_within. intros q Hq.
      pose proof (numClips_whole o _ q Hmax Hq) as Hwhole.
      fold count in Hq. rewrite Hq in Hpositive, Hlen, Hj.
      cbn [passes not_positive] in Hpositive, Hlen, Hj.
      assert (H0 : (0 < q)%Q).
      { destruct (Qlt_le_dec 0 q) as [?|Hle]; [done|].
        apply Qle_bool_iff in Hle. congruence. }
      split; [done|].
      rewrite (Qceiling_comp _ _ Hwhole), Qceiling_Z in Hlen, Hj.
      rewrite Hwhole, <- Zle_Qle. lia. }
    rewrite Forall_fmap in Hall. exact Hall. }
  split; [done|].
  unfold processToShorts. cbn [reports]. cbn zeta.
  assert (Hsplitting : Forall (λ r, pp_stage r = splitting -> in_range 0 100 (pp_percent r))
            ((λ progress, {| pp_stage := splitting; pp_percent := percent progress |})
             <$> reports (splitIntoClips o))).
  { apply Forall_fmap. eapply Forall_impl; [exact Hsplit|]. by intros p Hp _. }
  destruct (outcome (splitIntoClips o)) as [message|clips]; [done|].
  pose proof (resize_all_stage clips) as Hresizing.
  destruct (resize_all clips) as [resized shorts]. cbn in *.
  apply Forall_app. split; [done|].
  eapply Forall_impl; [exact Hresizing|]. intros r Hr Hs. congruence.
Qed.

(** *** From clips to Shorts *)

Lemma resize_all_keeps clips reports shorts :
  resize_all clips = (reports, inr shorts) ->
  short_info <$> shorts = info <$> clips
  ∧ short_path <$> shorts
    = (λ c, path_join outputDir ("short_" ++ clip_id (info c) ++ ".mp4")) <$> clips
  ∧ Forall (λ c, unlinkSync (path c) = inr tt) clips.
Proof.
  revert reports shorts. induction clips as [|clip rest IH]; intros reports shorts;
    cbn [resize_all].
  { by intros [= <- <-]. }
  cbn zeta. destruct (outcome (resizeToShorts _ _)); [done|].
  destruct (unlinkSync (path clip)) as [|[]] eqn:Hunlink; [done|].
  destruct (statSync_size _); [done|].
  destruct (resize_all rest) as [more [message|others]]; [done|].
  intros [= <- <-]. destruct (IH _ _ eq_refl) as (H1 & H2 & H3).
  cbn. rewrite H1, H2. split; [done|]. split; [done|]. by constructor.
Qed.

(** X27: when [processToShorts] returns, it returns one Short per clip
    that [splitIntoClips] had cut, in the same order and with the same
    identifier, index, start and duration; the file of each is
    [short_<id>.mp4] in the output directory, and the temporary file of
    every clip has been deleted.  These are the clips the content generator
    of the pipeline is given. *)
Theorem processToShorts_keeps_the_clips o shorts :
  outcome (processToShorts o) = inr shorts ->
  ∃ clips,
    outcome (splitIntoClips o) = inr clips
    ∧ short_info <$> shorts = info <$> clips
    ∧ short_path <$> shorts
      = (λ c, path_join outputDir ("short_" ++ clip_id (info c) ++ ".mp4")) <$> clips
    ∧ Forall (λ c, unlinkSync (path c) = inr tt) clips
    ∧ outcome (process_adapter o) = inr (info <$> clips).
Proof.
  unfold process_adapter, processToShorts. cbn [outcome reports]. cbn zeta.
  destruct (outcome (splitIntoClips o)) as [message|clips]; [done|].
  destruct (resize_all clips) as [resized [message|shorts']] eqn:Hresize; [done|].
  cbn. intros [= <-]. exists clips.
  destruct (resize_all_keeps _ _ _ Hresize) as (H1 & H2 & H3).
  by rewrite H1.
Qed.

End Clips.

(** *** Runs with concrete tools *)



Lemma too_short_video_fails_the_job_witness :
  let download : AdapterRun Q DownloadResult :=
    {| reports := [];
       outcome := inr {| dr_path := "./temp/v.mp4";
                         dr_metadata := {| vm_title := "My video"; vm_description := None;
                                           vm_tags := None |} |} |} in
  (processVideo true is_object download
     (process_adapter (tools := working_tools 10) quarter_minutes) None).2
  = inl ("Failed to process video to Shorts: Failed to split video: "
         ++ "Not enough video duration for clips").
Proof.
  intros download.
  destruct (too_short_video_fails_the_job (tools := working_tools 10) true download
              {| dr_path := "./temp/v.mp4";
                 dr_metadata := {| vm_title := "My video"; vm_description := None;
                                   vm_tags := None |} |}
              quarter_minutes None 10) as [H _].
  - reflexivity.
  - reflexivity.
  - by vm_compute.
  - reflexivity.
  - by vm_compute.
  - exact H.
Defined.

Lemma splitting_progress_within_0_100_witness :
  Forall (λ progress, in_range 0 100 (percent progress))
    (reports (splitIntoClips (tools := working_tools 50) quarter_minutes)).
Proof.
  destruct (splitting_progress_within_0_100 (tools := working_tools 50) quarter_minutes)
    as [H _].
  - intros m Hm. discriminate Hm.
  - exact H.
Defined.

Lemma processToShorts_keeps_the_clips_witness :
  ∃ clips,
    outcome (splitIntoClips (tools := working_tools 50) quarter_minutes) = inr clips
    ∧ outcome (process_adapter (tools := working_tools 50) quarter_minutes)
      = inr (info <$> clips).
Proof.
  destruct (outcome (processToShorts (tools := working_tools 50) quarter_minutes))
    as [message|shorts] eqn:Hrun; [by vm_compute in Hrun|].
  destruct (processToShorts_keeps_the_clips (tools := working_tools 50) quarter_minutes
              shorts Hrun) as (clips & H1 & _ & _ & _ & H2).
  exists clips. by split.
Defined.

End VideoProcessorFacts.

(** ** The downloader in the pipeline, and the thumbnails *)

Module VideoDownloaderFacts.

Import Exc AIService JobQueue VideoDownloader JobQueueRunFacts.

#[local] Open Scope string_scope.

Section Download.

Context {tools : Tools}.

Lemma past_download_values (l : list Effect) :
  Forall (λ e, match e with
               | JobProgress StepDownload _ | Emit downloading _ => False
               | _ => True
               end) l ->
  job_progress_values StepDownload l = [] ∧ emitted_values downloading l = [].
Proof.
  unfold job_progress_values, emitted_values.
  induction 1 as [|e l He _ [IH1 IH2]]; [done|].
  destruct e as [[] x|[] x| |]; cbn [omap]; simpl; done.
Qed.

Lemma past_download_broadcast io e :
  match e with JobProgress StepDownload _ | Emit downloading _ => False | _ => True end ->
  Forall (λ e, match e with
               | JobProgress StepDownload _ | Emit downloading _ => False
               | _ => True
               end) (broadcast io e).
Proof. intros He. destruct io; cbn; by repeat constructor. Qed.

Lemma past_download_process_log io l :
  Forall (λ e, match e with
               | JobProgress StepDownload _ | Emit downloading _ => False
               | _ => True
               end) (process_log io l).
Proof.
  induction l as [|p l IH]; [constructor|].
  change (process_log io (p :: l))
    with (JobProgress StepProcess (30 + pp_percent p * 0.4)
          :: broadcast io (Emit (of_processor (pp_stage p)) (pp_percent p))
          ++ process_log io l).
  constructor; [done|]. apply Forall_app. split; [by apply past_download_broadcast|done].
Qed.

(** X28: the downloader of the repository never reports progress, so
    the download step of a job records 10 on the job and nothing more, and
    broadcasts 10 once.  When yt-dlp cannot give the description of the
    video, the job fails with its message wrapped twice.  The metadata of a
    video that has been downloaded always carries a list of tags, an empty
    one when the video has none. *)
Theorem download_step_records_10_only io quality audioQuality process model :
  let download := downloadVideo quality audioQuality in
  let r := processVideo io is_object download process model in
  reports download = []
  ∧ job_progress_values StepDownload r.1 = [10%Q]
  ∧ emitted_values downloading r.1 = (if io then [10%Q] else [])
  ∧ (∀ message,
       dump_json = inl message -> unlink_partial = inr tt ->
       r.2 = inl ("Failed to download video: Failed to get video info: " ++ message))
  ∧ (∀ d, outcome download = inr d -> ∃ tags, vm_tags (dr_metadata d) = Some tags).
Proof.
  intros download r. split; [done|].
  assert (Hlog : ∃ rest, r.1 = JobProgress StepDownload 10 :: broadcast io (Emit downloading 10)
                               ++ rest
                         ∧ job_progress_values StepDownload rest = []
                         ∧ emitted_values downloading rest = []).
  { subst r. rewrite processVideo_log. cbn zeta.
    change (reports download) with (@nil Q). cbn [download_log mbind list_bind].
    rewrite app_nil_r.
    destruct (outcome download) as [e|d]; [|destruct (outcome process) as [e|clips];
      [|destruct (generateBatch model (dr_metadata d) clips) as [e|aiContent]]];
      cbn [fst]; repeat first [rewrite <- app_assoc | progress cbn [app]];
      (eexists; split; [reflexivity|]); apply past_download_values;
      repeat first [ apply Forall_app; split | apply Forall_cons; split; [done|]
                   | apply past_download_process_log
                   | apply past_download_broadcast; done
                   | apply Forall_nil_2 ]. }
  destruct Hlog as (rest & Hr & Hv & He). rewrite Hr.
  unfold job_progress_values, emitted_values in *.
  split; [|split; [|split]].
  - change (JobProgress StepDownload 10 :: broadcast io (Emit downloading 10) ++ rest)
      with ([JobProgress StepDownload 10] ++ broadcast io (Emit downloading 10) ++ rest)%list.
    rewrite !omap_app, Hv. by destruct io.
  - change (JobProgress StepDownload 10 :: broadcast io (Emit downloading 10) ++ rest)
      with ([JobProgress StepDownload 10] ++ broadcast io (Emit downloading 10) ++ rest)%list.
    rewrite !omap_app, He. by destruct io.
  - intros message Hjson Hunlink. subst r. rewrite processVideo_log. cbn zeta.
    assert (Hout : outcome download
                   = inl ("Failed to download video: Failed to get video info: " ++ message)).
    { subst download. unfold downloadVideo, getVideoInfo. cbn [outcome].
      rewrite Hjson. cbn. by rewrite Hunlink. }
    by rewrite Hout.
  - intros d. subst download. unfold downloadVideo, getVideoInfo. cbn [outcome].
    destruct dump_json as [message|info]; cbn.
    { by destruct unlink_partial. }
    destruct (download _ _ _); cbn; [by destruct unlink_partial|].
    destruct (statSync_size _); cbn; [by destruct unlink_partial|].
    intros [= <-]. by eexists.
Qed.

End Download.

End VideoDownloaderFacts.

Module ThumbnailGeneratorFacts.

Import Exc ThumbnailGenerator.

Section Thumbnails.

Context {tools : Tools}.

Lemma extract_from_thumbnails interval n i thumbnails :
  extract_from interval n i = inr thumbnails ->
  length thumbnails = n
  ∧ ∀ k thumbnail, thumbnails !! k = Some thumbnail ->
      extractThumbnail (interval * inject_Z (Z.of_nat (i + k)))%Q = inr thumbnail.
Proof.
  revert i thumbnails. induction n as [|n IH]; intros i thumbnails; cbn [extract_from].
  { intros [= <-]. split; [done|]. intros k t Hk. by rewrite lookup_nil in Hk. }
  cbn zeta. destruct (extractThumbnail _) as [message|thumbnail] eqn:Hhere; [done|]. cbn.
  destruct (extract_from interval n (S i)) as [message|rest] eqn:Hrest; [done|]. cbn.
  intros [= <-]. destruct (IH _ _ Hrest) as [Hlen Hall]. split; [cbn; by rewrite Hlen|].
  intros [|k] t Hk; cbn in Hk.
  - injection Hk as <-. by rewrite Nat.add_0_r.
  - replace (i + S k)%nat with (S i + k)%nat by lia. by apply Hall.
Qed.

(** X29: [generateMultiple], when it returns, returns as many thumbnails
    as were asked for (three when no number is given, none for a number
    below 1).  The one at position [k] is taken at [(k + 1)] times the
    duration divided by the number asked for plus one: the timestamps are
    evenly spaced and all lie strictly inside the video, so neither the
    first nor the last frame is ever used. *)
Theorem generateMultiple_timestamps_inside_video count duration thumbnails :
  getVideoDuration = inr duration ->
  (0 < duration)%Q ->
  generateMultiple count = inr thumbnails ->
  length thumbnails = Z.to_nat (default 3%Z count)
  ∧ ∀ k thumbnail, thumbnails !! k = Some thumbnail ->
      let timestamp :=
        (duration / inject_Z (default 3%Z count + 1) * inject_Z (Z.of_nat (1 + k)))%Q in
      extractThumbnail timestamp = inr thumbnail
      ∧ (0 < timestamp)%Q ∧ (timestamp < duration)%Q.
Proof.
  intros Hduration Hpositive. unfold generateMultiple. rewrite Hduration.
  intros Hrun. cbn in Hrun. destruct (extract_from_thumbnails _ _ _ _ Hrun) as [Hlen Hall].
  split; [done|]. intros k thumbnail Hk. split; [by apply Hall|].
  assert (Hcount : (Z.of_nat (1 + k) < default 3%Z count + 1)%Z).
  { apply lookup_lt_Some in Hk. lia. }
  set (n := (default 3%Z count + 1)%Z) in *.
  assert (Hn : (0 < inject_Z n)%Q).
  { change 0%Q with (inject_Z 0). rewrite <- Zlt_Qlt. lia. }
  assert (Hk1 : (0 < inject_Z (Z.of_nat (1 + k)))%Q).
  { change 0%Q with (inject_Z 0). rewrite <- Zlt_Qlt. lia. }
  assert (Hkn : (inject_Z (Z.of_nat (1 + k)) < inject_Z n)%Q) by by rewrite <- Zlt_Qlt.
  assert (Hstep : (0 < duration / inject_Z n)%Q) by by apply Qlt_shift_div_l; lra.
  assert (Hwhole : (duration / inject_Z n * inject_Z n == duration)%Q) by (field; lra).
  split; nra.
Qed.

End Thumbnails.

Lemma generateMultiple_timestamps_inside_video_witness :
  generateMultiple (tools := forty_seconds) None
  = inr ["./output/thumb_10.jpg"; "./output/thumb_20.jpg"; "./output/thumb_30.jpg"]%string
  ∧ (0 < 40 / inject_Z (3 + 1) * inject_Z (Z.of_nat (1 + 2)))%Q
  ∧ (40 / inject_Z (3 + 1) * inject_Z (Z.of_nat (1 + 2)) < 40)%Q.
Proof.
  assert (Hrun : generateMultiple (tools := forty_seconds) None
                 = inr ["./output/thumb_10.jpg"; "./output/thumb_20.jpg";
                        "./output/thumb_30.jpg"]%string) by (vm_compute; reflexivity).
  split; [exact Hrun|].
  destruct (generateMultiple_timestamps_inside_video (tools := forty_seconds) None 40 _
              eq_refl eq_refl Hrun) as [_ H].
  destruct (H 2%nat "./output/thumb_30.jpg"%string eq_refl) as [_ Hinside].
  exact Hinside.
Defined.

End ThumbnailGeneratorFacts.
